(** * Plugin core of the sandbox: registry, auxiliary controller,
      signature engine (lib/cuckoo/core/plugins.py)

    A shallow embedding of [plugins.py].  Python objects that the code
    only passes around are records; dictionaries whose keys may be absent
    are [option] fields or finite maps; every operation that can raise
    returns a [result].  Wall-clock timing and logging have no effect on
    control flow and are left out. *)

From Stdlib Require Import ZArith Floats Ascii String.
From stdpp Require Import gmap strings list sorting.

Open Scope string_scope.
Open Scope list_scope.

(** ** Exceptions and fallible results *)

(** The exception classes the module names or can meet.  [SystemExit]
    stands for the classes that do not derive from [Exception]
    ([SystemExit], [KeyboardInterrupt], [GeneratorExit]): a bare [except:]
    catches them, [except Exception] does not. *)
Inductive exn :=
| NotImplementedError
| CuckooOperationalError
| CuckooDependencyError
| CuckooProcessingError
| CuckooReportError
| ValueError
| KeyError
| IndexError
| AttributeError
| TypeError
| OverflowError
| RuntimeError
| SystemExit.

Definition is_Exception (e : exn) : bool :=
  match e with SystemExit => false | _ => true end.

Inductive result (A : Type) :=
| Ok (a : A)
| Raise (e : exn).
Arguments Ok {A} a.
Arguments Raise {A} e.

#[global] Instance result_ret : MRet result := λ A a, Ok a.
#[global] Instance result_bind : MBind result := λ A B k r,
  match r with Ok a => k a | Raise e => Raise e end.

(** ** Python string operations used by the module *)

Module PyStr.

Definition dot : ascii := "."%char.
Definition dash : ascii := "-"%char.

(** [c in s] for a one-character needle. *)
Fixpoint contains (c : ascii) (s : string) : bool :=
  match s with
  | EmptyString => false
  | String d s' => if Ascii.eqb c d then true else contains c s'
  end.

(** Text after the last occurrence of [c], or all of [s] when [c] does
    not occur: [s.rsplit(c, 1)[1]] guarded by [c in s]. *)
Fixpoint after_last (c : ascii) (s cur : string) : string :=
  match s with
  | EmptyString => cur
  | String d s' =>
      if Ascii.eqb c d then after_last c s' EmptyString
      else after_last c s' (cur +:+ String d EmptyString)
  end.

(** [s.split(c)[0]]: text before the first occurrence of [c]. *)
Fixpoint before_first (c : ascii) (s : string) : string :=
  match s with
  | EmptyString => EmptyString
  | String d s' =>
      if Ascii.eqb c d then EmptyString else String d (before_first c s')
  end.

(** [s.startswith(p)] *)
Definition startswith (p s : string) : bool := String.prefix p s.

(** [s[n:]] *)
Fixpoint drop (n : nat) (s : string) : string :=
  match n, s with
  | O, _ => s
  | S n', EmptyString => EmptyString
  | S n', String _ s' => drop n' s'
  end.

Definition is_upper (c : ascii) : bool :=
  let n := nat_of_ascii c in (65 <=? n)%nat && (n <=? 90)%nat.
Definition is_lower (c : ascii) : bool :=
  let n := nat_of_ascii c in (97 <=? n)%nat && (n <=? 122)%nat.
Definition is_digit (c : ascii) : bool :=
  let n := nat_of_ascii c in (48 <=? n)%nat && (n <=? 57)%nat.
Definition is_alpha (c : ascii) : bool := is_upper c || is_lower c.

Definition to_lower (c : ascii) : ascii :=
  if is_upper c then ascii_of_nat (nat_of_ascii c + 32) else c.
Definition to_upper (c : ascii) : ascii :=
  if is_lower c then ascii_of_nat (nat_of_ascii c - 32) else c.

(** [s.lower()] *)
Fixpoint lower (s : string) : string :=
  match s with
  | EmptyString => EmptyString
  | String c s' => String (to_lower c) (lower s')
  end.

(** [s.title()]: a letter that follows a letter is lowered, any other
    letter is raised. *)
Fixpoint title_from (prev_cased : bool) (s : string) : string :=
  match s with
  | EmptyString => EmptyString
  | String c s' =>
      String (if prev_cased then to_lower c else to_upper c)
             (title_from (is_alpha c) s')
  end.
Definition title (s : string) : string := title_from false s.

(** [re.findall(r"[A-Za-z0-9\.]+", s)]: the maximal runs of letters,
    digits and dots, left to right. *)
Definition is_word (c : ascii) : bool :=
  is_alpha c || is_digit c || Ascii.eqb c dot.

Fixpoint findall_from (cur : string) (s : string) : list string :=
  match s with
  | EmptyString =>
      match cur with EmptyString => [] | _ => [cur] end
  | String c s' =>
      if is_word c then findall_from (cur +:+ String c EmptyString) s'
      else match cur with
           | EmptyString => findall_from EmptyString s'
           | _ => cur :: findall_from EmptyString s'
           end
  end.
Definition findall_words (s : string) : list string :=
  findall_from EmptyString s.

(** Truth value of a string. *)
Definition truthy (s : string) : bool :=
  match s with EmptyString => false | _ => true end.

(** [x in l] for a list of strings. *)
Definition mem (x : string) (l : list string) : bool :=
  existsb (String.eqb x) l.

End PyStr.

(** ** Python list sorting *)

Module PyList.
Section WithKey.
Context {A : Type} (key : A → Z).

(** [l.sort(key=...)]: ascending in the key and stable.  An element is
    put in front of the first element whose key is not smaller. *)
Fixpoint insert_by (a : A) (l : list A) : list A :=
  match l with
  | [] => [a]
  | x :: l' =>
      if (key a <=? key x)%Z then a :: l else x :: insert_by a l'
  end.

Definition sort_by (l : list A) : list A := foldr insert_by [] l.

Definition key_le (a b : A) : Prop := (key a ≤ key b)%Z.

(** The elements with key [k], in the order they have in [l]. *)
Definition with_key (k : Z) (l : list A) : list A :=
  List.filter (λ x, key x =? k)%Z l.

End WithKey.
End PyList.

(** ** The plugin registry *)

Module Registry.

Section WithDescriptor.
Context {D : Type}.

(** A value stored under a group key of [_modules].  The global is a
    [defaultdict(dict)]: reading an absent key stores and returns a
    fresh empty [dict]; [register_plugin] stores lists. *)
Inductive bucket :=
| BDict
| BList (l : list D).

(** What [list_plugins] hands back: one bucket, or the whole
    registry when no group is given. *)
Inductive listing :=
| LGroup (b : bucket)
| LAll (m : gmap string bucket).

(** [_modules.setdefault(group, [])] *)
Definition setdefault (group : string) (m : gmap string bucket)
  : bucket * gmap string bucket :=
  match m !! group with
  | Some b => (b, m)
  | None => (BList [], <[group := BList []]> m)
  end.

(** [register_plugin(group, name)]: the bucket found or created by
    [setdefault] receives [.append(name)]; a [dict] has no such
    attribute. *)
Definition register_plugin (group : string) (name : D)
    (m : gmap string bucket) : result unit * gmap string bucket :=
  let '(b, m1) := setdefault group m in
  match b with
  | BList l => (Ok (), <[group := BList (l ++ [name])]> m1)
  | BDict => (Raise AttributeError, m1)
  end.

(** [_modules[group]] on the [defaultdict]. *)
Definition getitem (group : string) (m : gmap string bucket)
  : bucket * gmap string bucket :=
  match m !! group with
  | Some b => (b, m)
  | None => (BDict, <[group := BDict]> m)
  end.

(** [list_plugins(group=None)] *)
Definition list_plugins (group : option string)
    (m : gmap string bucket) : listing * gmap string bucket :=
  match group with
  | Some g =>
      if PyStr.truthy g
      then let '(b, m1) := getitem g m in (LGroup b, m1)
      else (LAll m, m)
  | None => (LAll m, m)
  end.

(** Truth value and iteration order of a bucket. *)
Definition bucket_items (b : bucket) : list D :=
  match b with BDict => [] | BList l => l end.

Definition bucket_truthy (b : bucket) : bool :=
  match bucket_items b with [] => false | _ => true end.

End WithDescriptor.
Arguments bucket : clear implicits.
Arguments listing : clear implicits.

End Registry.

(** ** Module configuration *)

(** [Config(group)]: the sections of one configuration file, by module
    short name; the only option the core reads is [enabled].  [get]
    raises [CuckooOperationalError] for a section that does not exist. *)
Record Options := { opt_enabled : bool }.

Definition cfg_get (cfg : gmap string Options) (section : string)
  : result Options :=
  match cfg !! section with
  | Some o => Ok o
  | None => Raise CuckooOperationalError
  end.

(** [module_name] as computed in every stage: the module's dotted name,
    cut after its last dot when it has one. *)
Definition short_name (module_name : string) : string :=
  if PyStr.contains PyStr.dot module_name
  then PyStr.after_last PyStr.dot module_name EmptyString
  else module_name.

(** ** The auxiliary controller *)

Module Auxiliary.

(** An auxiliary module class: the outcome of calling it, the name of
    the Python module that defines it, and the outcomes of the two
    hooks of its instance. *)
Record AuxClass := {
  aux_ctor : result unit;
  aux_module : string;
  aux_start : result unit;
  aux_stop : result unit;
}.

(** Instances are told apart by the position of their class in the
    registered sequence. *)
Record AuxInst := { aux_pos : nat; aux_cls : AuxClass }.

Inductive event :=
| Constructed (pos : nat) (r : result unit)
| StartCalled (pos : nat) (r : result unit)
| StopCalled (pos : nat) (r : result unit).

Record state := {
  enabled : list AuxInst;          (* self.enabled *)
  log : list event;
}.

Definition init : state := {| enabled := []; log := [] |}.

Definition emit (e : event) (s : state) : state :=
  {| enabled := enabled s; log := log s ++ [e] |}.

Definition enable (i : AuxInst) (s : state) : state :=
  {| enabled := enabled s ++ [i]; log := log s |}.

(** The body of [for module in auxiliary_list] in [start]; [pos] is the
    index of [module] in the list.  A constructor failure leaves the
    whole method ([return]). *)
Fixpoint start_loop (cfg : gmap string Options) (pos : nat)
    (mods : list AuxClass) (s : state) : result unit * state :=
  match mods with
  | [] => (Ok (), s)
  | module :: rest =>
      let s := emit (Constructed pos (aux_ctor module)) s in
      match aux_ctor module with
      | Raise _ => (Ok (), s)
      | Ok _ =>
          let current := {| aux_pos := pos; aux_cls := module |} in
          match cfg_get cfg (short_name (aux_module module)) with
          | Raise CuckooOperationalError => start_loop cfg (S pos) rest s
          | Raise e => (Raise e, s)
          | Ok options =>
              if negb (opt_enabled options)
              then start_loop cfg (S pos) rest s
              else
                let s := emit (StartCalled pos (aux_start module)) s in
                match aux_start module with
                | Raise NotImplementedError => start_loop cfg (S pos) rest s
                | Raise e =>
                    if is_Exception e
                    then start_loop cfg (S pos) rest s
                    else (Raise e, s)
                | Ok _ => start_loop cfg (S pos) rest (enable current s)
                end
          end
      end
  end.

(** [RunAuxiliary.start], on the bucket [list_plugins("auxiliary")]
    returned. *)
Definition start (cfg : gmap string Options)
    (auxiliary_list : Registry.bucket AuxClass) (s : state)
  : result unit * state :=
  if Registry.bucket_truthy auxiliary_list
  then start_loop cfg 0 (Registry.bucket_items auxiliary_list) s
  else (Ok (), s).

(** [RunAuxiliary.stop] *)
Fixpoint stop_loop (mods : list AuxInst) (lg : list event)
  : result unit * list event :=
  match mods with
  | [] => (Ok (), lg)
  | module :: rest =>
      let r := aux_stop (aux_cls module) in
      let lg := lg ++ [StopCalled (aux_pos module) r] in
      match r with
      | Raise e =>
          if is_Exception e then stop_loop rest lg else (Raise e, lg)
      | Ok _ => stop_loop rest lg
      end
  end.

Definition stop (s : state) : result unit * state :=
  let '(r, lg) := stop_loop (enabled s) (log s) in
  (r, {| enabled := enabled s; log := lg |}).

(** Number of [stop] calls the instance at [pos] received. *)
Definition is_stop_of (pos : nat) (e : event) : bool :=
  match e with StopCalled p _ => Nat.eqb p pos | _ => false end.

Definition stops (pos : nat) (lg : list event) : nat :=
  length (List.filter (is_stop_of pos) lg).

(** The instance at [pos] had its [start] hook called and the call
    returned. *)
Definition started_ok (pos : nat) (lg : list event) : Prop :=
  StartCalled pos (Ok ()) ∈ lg.

Definition start_called (pos : nat) (lg : list event) : Prop :=
  ∃ r, StartCalled pos r ∈ lg.

Definition constructed (pos : nat) (lg : list event) : Prop :=
  ∃ r, Constructed pos r ∈ lg.

(** The positions whose [start] hook returned, in call order, and the
    positions whose [stop] hook was called, in call order. *)
Fixpoint ok_positions (lg : list event) : list nat :=
  match lg with
  | [] => []
  | StartCalled p (Ok _) :: rest => p :: ok_positions rest
  | _ :: rest => ok_positions rest
  end.

Fixpoint stop_positions (lg : list event) : list nat :=
  match lg with
  | [] => []
  | StopCalled p _ :: rest => p :: stop_positions rest
  | _ :: rest => stop_positions rest
  end.

(** What [start] maintains: [self.enabled] holds, in order, exactly
    the instances whose start hook returned, each once, and no stop
    hook has been called. *)
Record consistent (bound : nat) (s : state) : Prop := {
  enabled_ok : aux_pos <$> enabled s = ok_positions (log s);
  enabled_bound : Forall (λ p, p < bound) (ok_positions (log s));
  enabled_nodup : NoDup (ok_positions (log s));
  no_stop_yet : stop_positions (log s) = [];
}.

End Auxiliary.

(** ** Version numbers: [distutils.version.StrictVersion] *)

Module Version.

(** Longest prefix of decimal digits, and what follows it. *)
Fixpoint span_digits (s : string) : string * string :=
  match s with
  | EmptyString => (EmptyString, EmptyString)
  | String c s' =>
      if PyStr.is_digit c
      then let '(ds, rest) := span_digits s' in (String c ds, rest)
      else (EmptyString, s)
  end.

(** [string.atoi] on a string of digits. *)
Fixpoint atoi_from (acc : N) (s : string) : N :=
  match s with
  | EmptyString => acc
  | String c s' =>
      atoi_from (acc * 10 + N.of_nat (nat_of_ascii c - 48))%N s'
  end.
Definition atoi (s : string) : N := atoi_from 0%N s.

(** A parsed number: [version] is the triple (major, minor, patch),
    [prerelease] the optional tag letter and number. *)
Record number := {
  version : N * N * N;
  prerelease : option (ascii * N);
}.

(** [\d+] *)
Definition digits1 (s : string) : option (N * string) :=
  let '(ds, rest) := span_digits s in
  match ds with
  | EmptyString => None
  | _ => Some (atoi ds, rest)
  end.

(** [(\. (\d+))?]: the group is optional, but a dot it does not
    consume cannot be matched by anything after it. *)
Definition opt_patch (s : string) : option (N * string) :=
  match s with
  | String "." s' => digits1 s'
  | _ => Some (0%N, s)
  end.

(** [([ab](\d+))?] *)
Definition opt_prerelease (s : string)
  : option (option (ascii * N) * string) :=
  match s with
  | String c s' =>
      if Ascii.eqb c "a" || Ascii.eqb c "b"
      then match digits1 s' with
           | Some (n, rest) => Some (Some (c, n), rest)
           | None => None
           end
      else Some (None, s)
  | EmptyString => Some (None, s)
  end.

(** [$] matches at the end and before a final newline. *)
Definition at_end (s : string) : bool :=
  match s with
  | EmptyString => true
  | String c EmptyString => Ascii.eqb c "010"
  | _ => false
  end.

(** [StrictVersion.parse]: the pattern
    [^(\d+) \. (\d+) (\. (\d+))? ([ab](\d+))?$], [ValueError] when it
    does not match. *)
Definition parse (vstring : string) : result number :=
  match digits1 vstring with
  | Some (major, String "." s1) =>
      match digits1 s1 with
      | Some (minor, s2) =>
          match opt_patch s2 with
          | Some (patch, s3) =>
              match opt_prerelease s3 with
              | Some (pre, s4) =>
                  if at_end s4
                  then Ok {| version := (major, minor, patch);
                             prerelease := pre |}
                  else Raise ValueError
              | None => Raise ValueError
              end
          | None => Raise ValueError
          end
      | None => Raise ValueError
      end
  | _ => Raise ValueError
  end.

(** A [StrictVersion] object.  The constructor parses only a non-empty
    string ([if vstring: self.parse(vstring)]); built from the empty
    string the object has neither attribute. *)
Inductive StrictVersion :=
| Unparsed
| Parsed (n : number).

Definition make (vstring : string) : result StrictVersion :=
  if PyStr.truthy vstring
  then n ← parse vstring; Ok (Parsed n)
  else Ok Unparsed.

(** [cmp] on triples and on prerelease tags. *)
Definition cmp_triple (a b : N * N * N) : comparison :=
  let '(a1, a2, a3) := a in
  let '(b1, b2, b3) := b in
  match (a1 ?= b1)%N with
  | Eq => match (a2 ?= b2)%N with
          | Eq => (a3 ?= b3)%N
          | c => c
          end
  | c => c
  end.

Definition cmp_tag (a b : ascii * N) : comparison :=
  match (N_of_ascii (fst a) ?= N_of_ascii (fst b))%N with
  | Eq => (snd a ?= snd b)%N
  | c => c
  end.

(** [StrictVersion.__cmp__]; reading [.version] of an object built
    from the empty string raises [AttributeError]. *)
Definition cmp (self other : StrictVersion) : result comparison :=
  match self, other with
  | Parsed a, Parsed b =>
      match cmp_triple (version a) (version b) with
      | Eq =>
          match prerelease a, prerelease b with
          | None, None => Ok Eq
          | Some _, None => Ok Lt
          | None, Some _ => Ok Gt
          | Some p, Some q => Ok (cmp_tag p q)
          end
      | c => Ok c
      end
  | _, _ => Raise AttributeError
  end.

Definition is_lt (c : comparison) : bool :=
  match c with Lt => true | _ => false end.
Definition is_gt (c : comparison) : bool :=
  match c with Gt => true | _ => false end.

(** Truth value of an optional attribute string. *)
Definition given (bound : option string) : option string :=
  match bound with
  | Some s => if PyStr.truthy s then Some s else None
  | None => None
  end.

(** One guarded comparison of [_check_signature_version]:
    [StrictVersion(version) <op> StrictVersion(bound.split("-")[0])]
    under [try] / [except ValueError].  [Ok true] is "return None". *)
Definition rejects (out_of_range : comparison → bool)
    (version bound : string) : result bool :=
  let attempt :=
    a ← make version;
    b ← make (PyStr.before_first PyStr.dash bound);
    c ← cmp a b;
    Ok (out_of_range c) in
  match attempt with
  | Raise ValueError => Ok true
  | r => r
  end.

(** [RunSignatures._check_signature_version]; [Ok false] is the
    [None] result, [Ok true] the [True] result. *)
Definition _check_signature_version (CUCKOO_VERSION : string)
    (minimum maximum : option string) : result bool :=
  let version := PyStr.before_first PyStr.dash CUCKOO_VERSION in
  below ← match given minimum with
          | Some m => rejects is_lt version m
          | None => Ok false
          end;
  if below : bool then Ok false
  else
    above ← match given maximum with
            | Some m => rejects is_gt version m
            | None => Ok false
            end;
    if above : bool then Ok false else Ok true.

(** The gate as the specification words it, for a running version [v]
    that is a number: a bound that is given rejects when the text before
    its separator is not a number or when [v] is out of range against
    it in the dotted-numeric ordering. *)
Definition spec_rejects (out_of_range : comparison → bool) (v : number)
    (bound : option string) : bool :=
  match given bound with
  | None => false
  | Some b =>
      match parse (PyStr.before_first PyStr.dash b) with
      | Ok n =>
          match cmp (Parsed v) (Parsed n) with
          | Ok c => out_of_range c
          | Raise _ => true
          end
      | Raise _ => true
      end
  end.

Definition spec_gate (v : number) (minimum maximum : option string) : bool :=
  negb (spec_rejects is_lt v minimum) && negb (spec_rejects is_gt v maximum).

(** A bound that is given has some text before its separator. *)
Definition head_present (bound : option string) : Prop :=
  match given bound with
  | Some b => PyStr.truthy (PyStr.before_first PyStr.dash b) = true
  | None => True
  end.

End Version.

(** ** The processing stage *)

Module Processing.
Section WithData.
(** What a processing module's [run] returns. *)
Context {D : Type}.

(** A processing module class: class name, defining Python module,
    [order], [key], and the outcomes of its constructor and of the [run]
    of its instance. *)
Record ProcClass := {
  pc_name : string;
  pc_module : string;
  pc_order : Z;
  pc_key : string;
  pc_ctor : result unit;
  pc_run : result D;
}.

Inductive event :=
| Loaded (name : string) (ok : bool)
| Ran (name : string) (r : result D).

(** The part of the aggregate the stage touches: the contributions by
    key, and [results["statistics"]["processing"]] when it exists. *)
Record state := {
  contributions : gmap string D;
  statistics : option (list string);
  log : list event;
}.

Definition emit (e : event) (s : state) : state :=
  {| contributions := contributions s; statistics := statistics s;
     log := log s ++ [e] |}.

(** [RunProcessing.process]: the single-key contribution, if any. *)
Definition process (cfg : gmap string Options) (module : ProcClass)
    (s : state) : option (string * D) * state :=
  match pc_ctor module with
  | Raise _ => (None, emit (Loaded (pc_name module) false) s)
  | Ok _ =>
      let s := emit (Loaded (pc_name module) true) s in
      match cfg_get cfg (short_name (pc_module module)) with
      | Raise _ => (None, s)
      | Ok options =>
          if negb (opt_enabled options) then (None, s)
          else
            let s := emit (Ran (pc_name module) (pc_run module)) s in
            match pc_run module with
            | Raise _ => (None, s)
            | Ok data =>
                match statistics s with
                | None => (None, s)
                | Some timed =>
                    (Some (pc_key module, data),
                     {| contributions := contributions s;
                        statistics := Some (timed ++ [pc_name module]);
                        log := log s |})
                end
            end
      end
  end.

(** [for module in processing_list:] with [self.results.update(result)]. *)
Fixpoint run_loop (cfg : gmap string Options) (mods : list ProcClass)
    (s : state) : state :=
  match mods with
  | [] => s
  | module :: rest =>
      let '(result, s) := process cfg module s in
      let s := match result with
               | Some (k, data) =>
                   {| contributions := <[k := data]> (contributions s);
                      statistics := statistics s; log := log s |}
               | None => s
               end in
      run_loop cfg rest s
  end.

(** [RunProcessing.run], on the bucket [list_plugins("processing")]
    returned. *)
Definition run (cfg : gmap string Options)
    (processing_list : Registry.bucket ProcClass) (s : state) : state :=
  if Registry.bucket_truthy processing_list
  then run_loop cfg
         (PyList.sort_by pc_order (Registry.bucket_items processing_list)) s
  else s.

Definition loaded (name : string) (lg : list event) : Prop :=
  ∃ ok, Loaded name ok ∈ lg.

End WithData.
Arguments ProcClass : clear implicits.
Arguments state : clear implicits.
Arguments event : clear implicits.
End Processing.

(** ** The result aggregate *)

(** One intercepted API call. *)
Record Call := { api : string; category : string }.

(** The object held under [process["calls"]].  Its class is defined
    outside [plugins.py], which only iterates it, calls [reset()] on it
    after each batch signature and [begin_reporting()] before
    reporting. *)
Module CallLog.

(** Modelled from the spec: the call-log class.  The specification
    describes a process's calls as "an ordered, finite sequence of Call
    Records", "exposed to consumers via an independent, resettable
    cursor: each signature traversal gets its own read position into
    the same underlying sequence", a cursor that can be "reset to its
    initial position": the log is the sequence together with the read
    position of the traversal under way; a traversal that begins gets a
    read position of its own, at the first call; reading moves that
    position; [reset] puts it back to the first call. *)
Record t := { entries : list Call; cursor : nat }.

Definition fresh (cs : list Call) : t := {| entries := cs; cursor := 0 |}.

(** A traversal begins ([iter(log)], as [for call in log] does): it is
    given its own read position. *)
Definition iter (l : t) : t := {| entries := entries l; cursor := 0 |}.

(** What the traversal under way has still to read. *)
Definition observed (l : t) : list Call := drop (cursor l) (entries l).

(** A consumer reads [n] further calls (or all that are left). *)
Definition consume (n : nat) (l : t) : t :=
  {| entries := entries l;
     cursor := Nat.min (cursor l + n) (length (entries l)) |}.

(** A [for call in log] loop that runs to exhaustion. *)
Definition exhaust (l : t) : t :=
  {| entries := entries l; cursor := length (entries l) |}.

Definition reset (l : t) : t := {| entries := entries l; cursor := 0 |}.

(** [begin_reporting()] switches the log to its reporting view; it
    changes nothing the core reads. *)
Definition begin_reporting (l : t) : t := l.

End CallLog.

Record Process := { process_name : string; calls : CallLog.t }.

Definition map_calls (f : CallLog.t → CallLog.t) (p : Process) : Process :=
  {| process_name := process_name p; calls := f (calls p) |}.

(** A Match Record ([Signature.as_result()]); [families] is [None] when
    the key is absent. *)
Record Match := {
  m_name : string;
  severity : Z;
  confidence : Z;
  weight : Z;
  families : option (list string);
}.

Record VTResult := { vendor : string; sig : option string }.
Record VirusTotal := { vt_results : option (list VTResult) }.
Record Alert := { signature : option string }.
Record Suricata := { alerts : option (list Alert) }.
Record File := { clamav : option string }.

(** The keys of the aggregate the signature engine reads or writes.  A
    key the code tests with [in] before use is an [option]; so are
    ["behavior"] and [target["file"]], which are used unguarded in
    places.  [signatures], [malscore] and [malfamily] are written by
    [RunSignatures.run]. *)
Record Results := {
  info_category : string;                 (* results["info"]["category"] *)
  target_category : string;               (* results["target"]["category"] *)
  target_file : option File;              (* results["target"]["file"] *)
  behavior : option (list Process);       (* results["behavior"]["processes"] *)
  virustotal : option VirusTotal;
  suricata : option Suricata;
  signatures : option (list Match);
  malscore : option float;
  malfamily : option string;
}.

Definition set_behavior (ps : option (list Process)) (r : Results) : Results :=
  {| info_category := info_category r; target_category := target_category r;
     target_file := target_file r; behavior := ps;
     virustotal := virustotal r; suricata := suricata r;
     signatures := signatures r; malscore := malscore r;
     malfamily := malfamily r |}.

Definition set_signatures (ms : list Match) (r : Results) : Results :=
  {| info_category := info_category r; target_category := target_category r;
     target_file := target_file r; behavior := behavior r;
     virustotal := virustotal r; suricata := suricata r;
     signatures := Some ms; malscore := malscore r;
     malfamily := malfamily r |}.

Definition set_verdict (score : float) (family : string) (r : Results)
  : Results :=
  {| info_category := info_category r; target_category := target_category r;
     target_file := target_file r; behavior := behavior r;
     virustotal := virustotal r; suricata := suricata r;
     signatures := signatures r; malscore := Some score;
     malfamily := Some family |}.

(** ** Aggregation: ordering, score and family *)

Module Aggregate.

(** [matched.sort(key=lambda key: key["severity"])] *)
Definition sort_by_severity (l : list Match) : list Match :=
  PyList.sort_by severity l.

(** *** Score *)

Open Scope float_scope.

(** Conversion of a Python integer to a float in mixed arithmetic:
    round to nearest, ties to even; [OverflowError] when out of
    range. *)
Definition float_of_Z (z : Z) : result float :=
  let f := SF2Prim (binary_normalize prec emax z 0 false) in
  if is_infinity f then Raise OverflowError else Ok f.

(** The amount one match adds. *)
Definition contribution (m : Match) : result float :=
  if (severity m =? 1)%Z then
    w ← float_of_Z (weight m);
    c ← float_of_Z (confidence m);
    Ok (w * 0.5 * (c / 100.0))
  else
    w ← float_of_Z (weight m * (severity m - 1));
    c ← float_of_Z (confidence m);
    Ok (w * (c / 100.0)).

(** [for match in matched: malscore += ...] *)
Fixpoint accumulate (acc : float) (matched : list Match) : result float :=
  match matched with
  | [] => Ok acc
  | m :: rest => t ← contribution m; accumulate (acc + t) rest
  end.

(** The score written to [results["malscore"]]. *)
Definition compute_malscore (matched : list Match) : result float :=
  malscore ← accumulate 0.0 matched;
  let malscore := if 10.0 <? malscore then 10.0 else malscore in
  let malscore := if malscore <? 0.0 then 0.0 else malscore in
  Ok malscore.

Close Scope float_scope.

(** *** Family *)

Definition has_families (m : Match) : bool :=
  match families m with
  | Some (_ :: _) => true
  | _ => false
  end.

(** First loop: the first match with a non-empty family list gives its
    first entry, title-cased, and ends the loop. *)
Fixpoint family_of_matches (matched : list Match) : string :=
  match matched with
  | [] => ""
  | m :: rest =>
      match families m with
      | Some (f :: _) => PyStr.title f
      | _ => family_of_matches rest
      end
  end.

(** The detection names handed to the consensus function. *)
Fixpoint detectnames (rs : list VTResult) : list string :=
  match rs with
  | [] => []
  | res :: rest =>
      match sig res with
      | Some s =>
          if PyStr.truthy s then
            if String.eqb (vendor res) "Microsoft"
            then s :: s :: detectnames rest
            else s :: detectnames rest
          else detectnames rest
      | None => detectnames rest
      end
  end.

(** The reputation results when all three guards on them hold. *)
Definition vt_results_present (r : Results) : option (list VTResult) :=
  match virustotal r with
  | Some vt =>
      match vt_results vt with
      | Some (x :: l) => Some (x :: l)
      | _ => None
      end
  | None => None
  end.

Definition suricata_alerts_present (r : Results) : option (list Alert) :=
  match suricata r with
  | Some s =>
      match alerts s with
      | Some (x :: l) => Some (x :: l)
      | _ => None
      end
  | None => None
  end.

Definition blacklist : list string :=
  [ "upx"; "executable"; "potential"; "likely"; "rogue"; "supicious";
    "generic"; "possible"; "known"; "common"; "troj"; "trojan"; "team";
    "probably"; "w2km"; "http"; "abuse.ch"; "win32"; "unknown";
    "single" ].

(** [words[i]] *)
Definition index (words : list string) (i : nat) : result string :=
  match words !! i with
  | Some w => Ok w
  | None => Raise IndexError
  end.

Definition is_trojan_alert (s : string) : bool :=
  PyStr.startswith "ET TROJAN" s || PyStr.startswith "ETPRO TROJAN" s.

(** The candidate name of one trojan alert: [Ok None] when the
    blacklist rejects it. *)
Definition alert_family (s : string) : result (option string) :=
  let words := PyStr.findall_words s in
  famcheck ← index words 2;
  famcheck ← (if String.eqb (PyStr.lower famcheck) "win32"
              then index words 3 else Ok famcheck);
  let famchecklower := PyStr.lower famcheck in
  if PyStr.mem famchecklower blacklist then Ok None
  else Ok (Some (PyStr.title (PyStr.before_first PyStr.dot famcheck))).

(** [for alert in alerts]: every accepted candidate overwrites
    [family]. *)
Fixpoint suricata_loop (al : list Alert) (family : string)
  : result string :=
  match al with
  | [] => Ok family
  | alert :: rest =>
      match signature alert with
      | Some s =>
          if PyStr.truthy s && is_trojan_alert s then
            c ← alert_family s;
            match c with
            | Some f => suricata_loop rest f
            | None => suricata_loop rest family
            end
          else suricata_loop rest family
      | None => suricata_loop rest family
      end
  end.

Section Family.
(** [lib.cuckoo.common.utils.get_vt_consensus], an external
    collaborator. *)
Variable get_vt_consensus : list string → string.

(** The family written to [results["malfamily"]], from the sorted
    match list. *)
Definition compute_malfamily (matched : list Match) (r : Results)
  : result string :=
  let family := family_of_matches matched in
  let family :=
    if negb (PyStr.truthy family) && String.eqb (info_category r) "file"
    then match vt_results_present r with
         | Some rs => get_vt_consensus (detectnames rs)
         | None => family
         end
    else family in
  family ← (if negb (PyStr.truthy family)
            then match suricata_alerts_present r with
                 | Some al => suricata_loop al family
                 | None => Ok family
                 end
            else Ok family);
  if negb (PyStr.truthy family) && String.eqb (info_category r) "file"
  then match target_file r with
       | None => Raise KeyError
       | Some f =>
           match clamav f with
           | Some c =>
               if PyStr.truthy c && PyStr.startswith "Win.Trojan." c
               then Ok (PyStr.drop 11 c)
               else Ok family
           | None => Ok family
           end
       end
  else Ok family.
End Family.

End Aggregate.

(** ** The score and the family as the specification words them *)

(** The score of the "Aggregation" paragraph, on binary64 floats:
    "clamp to [0, 10] of: for each match, if severity == 1 add
    weight × 0.5 × (confidence/100); else add
    weight × (severity − 1) × (confidence/100)".  The fields are
    integers; products of integers are integers, and an integer that
    meets a float is rounded to the nearest float. *)
Module ScoreSpec.
Open Scope float_scope.

Definition of_int (z : Z) : float :=
  SF2Prim (binary_normalize prec emax z 0 false).

Definition term (m : Match) : float :=
  if (severity m =? 1)%Z
  then of_int (weight m) * 0.5 * (of_int (confidence m) / 100)
  else of_int (weight m * (severity m - 1)) * (of_int (confidence m) / 100).

Definition total (matched : list Match) : float :=
  foldl (λ sum m, sum + term m) 0 matched.

Definition clamp (lo hi x : float) : float :=
  if x <? lo then lo else if hi <? x then hi else x.

Definition malscore (matched : list Match) : float :=
  clamp 0 10 (total matched).

(** A score within the bounds: [0 ≤ x ≤ 10].  No comparison holds of
    a NaN. *)
Definition in_range (x : float) : bool := (0 <=? x) && (x <=? 10).

(** A float that is a number, zero included, and no infinity. *)
Definition finite (x : float) : bool :=
  match Prim2SF x with
  | S754_zero _ | S754_finite _ _ _ => true
  | _ => false
  end.

(** The integers of a match that meet a float can be rounded to one:
    they are within the range of the floats. *)
Definition within_floats (z : Z) : bool := negb (is_infinity (of_int z)).

Definition representable (m : Match) : bool :=
  within_floats (confidence m)
  && within_floats (if (severity m =? 1)%Z then weight m
                    else weight m * (severity m - 1))%Z.

Close Scope float_scope.
End ScoreSpec.

(** The family of the "Aggregation" paragraph: "a fixed-priority
    waterfall, first rule that yields a non-empty name wins". *)
Module FamilySpec.

(** Rule 1: "First Match Record (severity-ascending order) that
    declares a non-empty family list: take its first entry,
    title-cased."  The order is that of the stable sort: of the matches
    that declare a family the least severe comes first, and of equally
    severe ones the one found first. *)
Definition declared (m : Match) : option string :=
  match families m with
  | Some (f :: _) => Some f
  | _ => None
  end.

Fixpoint first_by_severity (ms : list Match) : option Match :=
  match ms with
  | [] => None
  | m :: rest =>
      match declared m, first_by_severity rest with
      | None, later => later
      | Some _, None => Some m
      | Some _, Some m' =>
          if (severity m' <? severity m)%Z then Some m' else Some m
      end
  end.

Definition by_match (ms : list Match) : string :=
  match first_by_severity ms ≫= declared with
  | Some f => PyStr.title f
  | None => ""
  end.

(** Rule 2: "If target category is "file" and a reputation-lookup
    enrichment result with per-engine detection names is present: build
    a name list (each detection name appended once, plus a second time
    if its reporting engine is a particular trusted vendor), and
    resolve via an external naming-consensus heuristic". *)
Definition trusted_vendor : string := "Microsoft".

Definition names_of (res : VTResult) : list string :=
  match sig res with
  | Some n =>
      if PyStr.truthy n
      then replicate (if String.eqb (vendor res) trusted_vendor
                      then 2 else 1) n
      else []
  | None => []
  end.

Definition name_list (rs : list VTResult) : list string :=
  concat (names_of <$> rs).

Definition by_reputation (consensus : list string → string)
    (category : string) (vt : option VirusTotal) : string :=
  if String.eqb category "file" then
    match vt with
    | Some lookup =>
        match vt_results lookup with
        | Some (res :: rs) => consensus (name_list (res :: rs))
        | _ => ""
        end
    | None => ""
    end
  else "".

(** Rule 3: "If an intrusion-detection alerts enrichment result is
    present: scan alert signature strings for ones beginning with a
    known trojan-alert prefix, tokenize into word-like fragments, take
    the third token as the candidate family (or the fourth if the third
    is a generic platform tag), reject the candidate if it
    case-insensitively equals any entry in a fixed blocklist of generic
    terms, otherwise strip any trailing dotted subtype and title-case
    it."  An alert without the token gives no candidate.  The paragraph
    does not say which alert names the family when several give a
    candidate: here the last one does. *)
Definition trojan_prefixes : list string := ["ET TROJAN"; "ETPRO TROJAN"].
Definition platform_tag : string := "win32".

Definition candidate (text : string) : option string :=
  let tokens := PyStr.findall_words text in
  third ← tokens !! 2%nat;
  c ← (if String.eqb (PyStr.lower third) platform_tag
       then tokens !! 3%nat else Some third);
  if PyStr.mem (PyStr.lower c) Aggregate.blacklist then None
  else Some (PyStr.title (PyStr.before_first PyStr.dot c)).

Definition proposal (a : Alert) : option string :=
  text ← signature a;
  if existsb (λ p, PyStr.startswith p text) trojan_prefixes
  then candidate text else None.

Definition by_alerts (ids : option Suricata) : string :=
  match ids with
  | Some found =>
      match alerts found with
      | Some al => default "" (last (omap proposal al))
      | None => ""
      end
  | None => ""
  end.

(** Rule 4: "If target category is "file" and a signature-scanner
    enrichment result exists with a name following a known vendor
    naming convention for a specific platform family, strip the
    convention's fixed prefix and use the remainder." *)
Definition convention_prefix : string := "Win.Trojan.".

Definition by_antivirus (category : string) (file : option File) : string :=
  if String.eqb category "file" then
    match file with
    | Some f =>
        match clamav f with
        | Some n =>
            if PyStr.startswith convention_prefix n
            then PyStr.drop (String.length convention_prefix) n
            else ""
        | None => ""
        end
    | None => ""
    end
  else "".

(** "First rule that yields a non-empty name wins ... If none yield a
    name, malfamily is the empty string." *)
Definition first_non_empty (names : list string) : string :=
  default "" (List.find PyStr.truthy names).

Definition malfamily (consensus : list string → string)
    (category : string) (ms : list Match) (vt : option VirusTotal)
    (ids : option Suricata) (file : option File) : string :=
  first_non_empty [ by_match ms;
                    by_reputation consensus category vt;
                    by_alerts ids;
                    by_antivirus category file ].

(** Every trojan alert has the token the heuristic takes. *)
Definition has_token (a : Alert) : bool :=
  match signature a with
  | Some text =>
      if existsb (λ p, PyStr.startswith p text) trojan_prefixes then
        let tokens := PyStr.findall_words text in
        match tokens !! 2%nat with
        | Some third =>
            if String.eqb (PyStr.lower third) platform_tag
            then bool_decide (is_Some (tokens !! 3%nat)) else true
        | None => false
        end
      else true
  | None => true
  end.

End FamilySpec.

(** ** The signature engine *)

Module Engine.

(** The class attributes of a signature the engine reads. *)
Record SigAttrs := {
  name : string;
  enabled : bool;
  evented : bool;
  minimum : option string;
  maximum : option string;
  order : Z;
  filter_processnames : list string;
  filter_apinames : list string;
  filter_categories : list string;
  filter_analysistypes : list string;
}.

(** What a hook hands back, as far as the engine tells values apart:
    [is None], [is True], and the truth value otherwise. *)
Inductive pyval :=
| PNone
| PTrue
| PFalse
| POther (truth : bool).

Definition truth (v : pyval) : bool :=
  match v with
  | PTrue => true
  | POther b => b
  | _ => false
  end.

(** The overlay file as loaded: signature name to the effect of
    assigning its attribute overrides. *)
Definition apply_overlay (overlay : gmap string (SigAttrs → SigAttrs))
    (a : SigAttrs) : SigAttrs :=
  match overlay !! name a with
  | Some set_all => set_all a
  | None => a
  end.

(** [not filter or value in filter] *)
Definition admits (filter : list string) (value : string) : bool :=
  match filter with
  | [] => true
  | _ => PyStr.mem value filter
  end.

Section WithState.
(** The private state of a signature instance. *)
Context {St : Type}.

(** A signature class: its identity, its attributes, its constructor
    and the methods of its instances.  [run] also tells how many
    further calls it read from each process's call log. *)
Record SigClass := {
  cid : nat;
  attrs : SigAttrs;
  new : Results → result St;
  on_call : St → Call → Process → result pyval * St;
  on_complete : St → result pyval * St;
  run : St → Results → result pyval * St * list nat;
  as_result : St → result Match;
}.

(** An instance: its identity, its class, the attributes it shows
    and its state. *)
Record SigInst := {
  serial : nat;
  icls : SigClass;
  iattrs : SigAttrs;
  ist : St;
}.

Definition with_attrs (a : SigAttrs) (c : SigClass) : SigClass :=
  {| cid := cid c; attrs := a; new := new c; on_call := on_call c;
     on_complete := on_complete c; run := run c;
     as_result := as_result c |}.

Definition with_state (st : St) (i : SigInst) : SigInst :=
  {| serial := serial i; icls := icls i; iattrs := iattrs i; ist := st |}.

(** Objects compare by identity: two classes are equal when they are
    the same class, two instances when they are the same instance,
    and an instance never equals a class. *)
Inductive pyobj :=
| AClass (c : SigClass)
| AnInstance (i : SigInst).

Definition py_eq (a b : pyobj) : bool :=
  match a, b with
  | AClass c, AClass d => Nat.eqb (cid c) (cid d)
  | AnInstance i, AnInstance j => Nat.eqb (serial i) (serial j)
  | _, _ => false
  end.

(** [x in l] *)
Definition py_in {A} (inj : A → pyobj) (x : pyobj) (l : list A) : bool :=
  existsb (λ y, py_eq (inj y) x) l.

(** [l.remove(x)]: drops the first element equal to [x];
    [ValueError] when there is none. *)
Fixpoint py_remove {A} (inj : A → pyobj) (x : pyobj) (l : list A)
  : result (list A) :=
  match l with
  | [] => Raise ValueError
  | y :: l' =>
      if py_eq (inj y) x then Ok l'
      else l'' ← py_remove inj x l'; Ok (y :: l'')
  end.

Inductive event :=
| Instantiated (c : nat) (ok : bool)
| OnCall (s : nat) (pidx cidx : nat) (r : result pyval)
| OnComplete (s : nat) (r : result pyval)
| BatchRun (c : nat) (seen : list (list Call)) (r : result pyval)
| CursorsReset.

(** The variables of [RunSignatures.run] that the passes share. *)
Record state := {
  evented_list : list SigInst;
  complete_list : list SigClass;
  matched : list Match;
  results : Results;
  trace : list event;
}.

Definition emit (e : event) (s : state) : state :=
  {| evented_list := evented_list s; complete_list := complete_list s;
     matched := matched s; results := results s;
     trace := trace s ++ [e] |}.

Definition set_evented (l : list SigInst) (s : state) : state :=
  {| evented_list := l; complete_list := complete_list s;
     matched := matched s; results := results s; trace := trace s |}.

Definition set_complete (l : list SigClass) (s : state) : state :=
  {| evented_list := evented_list s; complete_list := l;
     matched := matched s; results := results s; trace := trace s |}.

Definition set_matched (l : list Match) (s : state) : state :=
  {| evented_list := evented_list s; complete_list := complete_list s;
     matched := l; results := results s; trace := trace s |}.

Definition set_results (r : Results) (s : state) : state :=
  {| evented_list := evented_list s; complete_list := complete_list s;
     matched := matched s; results := r; trace := trace s |}.

(** [matched.append(sig.as_result())] followed by
    [if sig in complete_list: complete_list.remove(sig)]. *)
Definition record_match (sig : SigInst) (s : state) : result state :=
  m ← as_result (icls sig) (ist sig);
  let s := set_matched (matched s ++ [m]) s in
  if py_in AClass (AnInstance sig) (complete_list s)
  then l ← py_remove AClass (AnInstance sig) (complete_list s);
       Ok (set_complete l s)
  else Ok s.

(** The three filter tests at the head of the innermost loop. *)
Definition interested (sig : SigInst) (proc : Process) (call : Call)
  : bool :=
  admits (filter_processnames (iattrs sig)) (process_name proc)
  && admits (filter_apinames (iattrs sig)) (api call)
  && admits (filter_categories (iattrs sig)) (category call).

(** The body of the innermost loop, for the signature [sig] found at
    index [i]. *)
Definition sig_body (i : nat) (sig : SigInst) (proc : Process)
    (pidx cidx : nat) (call : Call) (s : state) : result state :=
  if negb (interested sig proc call) then Ok s
  else
    let '(r, st) := on_call (icls sig) (ist sig) call proc in
    let sig := with_state st sig in
    let s := set_evented (<[i := sig]> (evented_list s)) s in
    let s := emit (OnCall (serial sig) pidx cidx r) s in
    let result := match r with Ok v => v | Raise _ => PFalse end in
    match result with
    | PNone => Ok s
    | _ =>
        s ← match result with
            | PTrue => record_match sig s
            | _ => Ok s
            end;
        l ← py_remove AnInstance (AnInstance sig) (evented_list s);
        Ok (set_evented l s)
    end.

(** [for sig in evented_list:] for one call.  The list iterator holds
    an index [i] into the list as it is now, and the body may shorten
    the list.  [fuel] bounds the number of iterations; the length of the
    list is always enough ([sig_loop_fuel]). *)
Fixpoint sig_loop (fuel : nat) (i : nat) (proc : Process)
    (pidx cidx : nat) (call : Call) (s : state) : result state :=
  match fuel with
  | O => Ok s
  | S fuel =>
      match evented_list s !! i with
      | None => Ok s
      | Some sig =>
          s ← sig_body i sig proc pidx cidx call s;
          sig_loop fuel (S i) proc pidx cidx call s
      end
  end.

(** [for call in proc["calls"]:] over the calls the log yields. *)
Fixpoint call_loop (proc : Process) (pidx cidx : nat)
    (cs : list Call) (s : state) : result state :=
  match cs with
  | [] => Ok s
  | call :: rest =>
      s ← sig_loop (length (evented_list s)) 0 proc pidx cidx call s;
      call_loop proc pidx (S cidx) rest s
  end.

(** The processes of the aggregate, and their replacement. *)
Definition processes (s : state) : list Process :=
  default [] (behavior (results s)).

Definition set_processes (ps : list Process) (s : state) : state :=
  set_results (set_behavior (Some ps) (results s)) s.

(** [for proc in self.results["behavior"]["processes"]:]; the
    traversal of each log begins, and reads the log to its end. *)
Fixpoint proc_loop (pidx : nat) (todo : list Process) (s : state)
  : result state :=
  match todo with
  | [] => Ok s
  | proc :: rest =>
      let log := CallLog.iter (calls proc) in
      s ← call_loop proc pidx (CallLog.cursor log) (CallLog.observed log) s;
      let s := set_processes
                 (alter (map_calls (CallLog.exhaust ∘ CallLog.iter)) pidx
                        (processes s)) s in
      proc_loop (S pidx) rest s
  end.

(** [for sig in evented_list:] around [on_complete]; [i] is the
    index of [sig]. *)
Fixpoint complete_loop (i : nat) (todo : list SigInst) (s : state)
  : result state :=
  match todo with
  | [] => Ok s
  | sig :: rest =>
      let '(r, st) := on_complete (icls sig) (ist sig) in
      let sig := with_state st sig in
      let s := set_evented (<[i := sig]> (evented_list s)) s in
      let s := emit (OnComplete (serial sig) r) s in
      match r with
      | Ok PTrue => s ← record_match sig s; complete_loop (S i) rest s
      | _ => complete_loop (S i) rest s
      end
  end.

(** The block under [if evented_list and "behavior" in self.results]. *)
Definition evented_pass (s : state) : result state :=
  match evented_list s, behavior (results s) with
  | _ :: _, Some procs =>
      s ← proc_loop 0 procs s;
      complete_loop 0 (evented_list s) s
  | _, _ => Ok s
  end.

(** The running version, [lib.cuckoo.common.constants.CUCKOO_VERSION]. *)
Variable CUCKOO_VERSION : string.

Definition check_version (a : SigAttrs) : result bool :=
  Version._check_signature_version CUCKOO_VERSION (minimum a) (maximum a).

(** The traversal a batch signature makes of each log begins, and
    moves on by what the signature reads. *)
Definition consumed (used : list nat) (ps : list Process) : list Process :=
  imap (λ i, map_calls (CallLog.consume (default 0 (used !! i))
                        ∘ CallLog.iter)) ps.

(** [RunSignatures.process]: the match it returns, if any. *)
Definition process (signature : SigClass) (s : state)
  : result (option Match * state) :=
  match new signature (results s) with
  | Raise _ => Ok (None, emit (Instantiated (cid signature) false) s)
  | Ok st =>
      let s := emit (Instantiated (cid signature) true) s in
      if negb (enabled (attrs signature)) then Ok (None, s)
      else
        ok ← check_version (attrs signature);
        if negb ok then Ok (None, s)
        else
          let '(r, st, used) := run signature st (results s) in
          let seen :=
            CallLog.observed ∘ CallLog.iter ∘ calls <$> processes s in
          let s := emit (BatchRun (cid signature) seen r) s in
          let s := match behavior (results s) with
                   | Some ps => set_processes (consumed used ps) s
                   | None => s
                   end in
          match r with
          | Ok data =>
              if truth data
              then match as_result signature st with
                   | Ok m => Ok (Some m, s)
                   | Raise _ => Ok (None, s)
                   end
              else Ok (None, s)
          | Raise _ => Ok (None, s)
          end
  end.

(** [matched] and [results["signatures"]] are one list object once
    linked. *)
Definition append_matched (m : Match) (s : state) : state :=
  let s := set_matched (matched s ++ [m]) s in
  set_results (set_signatures (matched s) (results s)) s.

Definition reset_cursors (s : state) : state :=
  match behavior (results s) with
  | Some ps =>
      emit CursorsReset
        (set_processes (map_calls CallLog.reset <$> ps) s)
  | None => s
  end.

(** [for signature in complete_list:] of the compatibility loop. *)
Fixpoint batch_loop (todo : list SigClass) (s : state) : result state :=
  match todo with
  | [] => Ok s
  | signature :: rest =>
      if admits (filter_analysistypes (attrs signature))
                (target_category (results s))
      then
        '(m, s) ← process signature s;
        let s := match m with
                 | Some m => append_matched m s
                 | None => s
                 end in
        batch_loop rest (reset_cursors s)
      else batch_loop rest s
  end.

(** [complete_list.sort(key=lambda sig: sig.order)] *)
Definition sort_by_order (l : list SigClass) : list SigClass :=
  PyList.sort_by (λ sig, order (attrs sig)) l.

Definition batch_pass (s : state) : result state :=
  match complete_list s with
  | [] => Ok s
  | _ =>
      let sorted := sort_by_order (complete_list s) in
      batch_loop sorted (set_complete sorted s)
  end.

(** The comprehension that builds [evented_list]; [pos] numbers the
    instances. *)
Fixpoint build_evented (pos : nat) (classes : list SigClass)
    (r : Results) (tr : list event)
  : result (list SigInst * list event) :=
  match classes with
  | [] => Ok ([], tr)
  | sig :: rest =>
      wanted ← (if enabled (attrs sig) && evented (attrs sig)
                then ok ← check_version (attrs sig);
                     Ok (ok && admits (filter_analysistypes (attrs sig))
                                      (target_category r))
                else Ok false);
      if wanted : bool then
        match new sig r with
        | Raise e => Raise e
        | Ok st =>
            let inst := {| serial := pos; icls := sig;
                           iattrs := attrs sig; ist := st |} in
            '(l, tr) ← build_evented (S pos) rest r
                         (tr ++ [Instantiated (cid sig) true]);
            Ok (inst :: l, tr)
        end
      else build_evented (S pos) rest r tr
  end.

(** The overlay loop over [complete_list + evented_list].  Classes
    are shared objects: [class_store] is what the attributes of each
    class are once every entry of [complete_list] has been visited;
    an instance then shows its class's attributes under the overrides
    assigned to itself. *)
Variable overlay : gmap string (SigAttrs → SigAttrs).

Definition class_store (classes : list SigClass) : gmap nat SigAttrs :=
  foldl (λ m c, <[cid c := apply_overlay overlay
                             (default (attrs c) (m !! cid c))]> m)
        ∅ classes.

Definition class_now (store : gmap nat SigAttrs) (c : SigClass)
  : SigClass :=
  with_attrs (default (attrs c) (store !! cid c)) c.

Definition inst_now (store : gmap nat SigAttrs) (i : SigInst) : SigInst :=
  let c := class_now store (icls i) in
  {| serial := serial i; icls := c;
     iattrs := apply_overlay overlay (attrs c); ist := ist i |}.

Variable get_vt_consensus : list string → string.

(** The end of [run]: ordering, score and family. *)
Definition aggregate (s : state) : result state :=
  let sorted := Aggregate.sort_by_severity (matched s) in
  let s := set_matched sorted s in
  let s := set_results (set_signatures sorted (results s)) s in
  score ← Aggregate.compute_malscore sorted;
  family ← Aggregate.compute_malfamily get_vt_consensus sorted (results s);
  Ok (set_results (set_verdict score family (results s)) s).

(** [RunSignatures.run], on the bucket [list_plugins("signatures")]
    returned and the aggregate.  [dict + list] raises [TypeError]. *)
Definition RunSignatures_run (bucket : Registry.bucket SigClass)
    (r : Results) : result state :=
  let classes := Registry.bucket_items bucket in
  '(ev, tr) ← build_evented 0 classes r [];
  match bucket with
  | Registry.BDict => Raise TypeError
  | Registry.BList _ =>
      let store := class_store classes in
      let s := {| evented_list := inst_now store <$> ev;
                  complete_list := class_now store <$> classes;
                  matched := []; results := r; trace := tr |} in
      s ← evented_pass s;
      let s := set_results (set_signatures (matched s) (results s)) s in
      s ← batch_pass s;
      aggregate s
  end.

(** [RunReporting.__init__] *)
Definition RunReporting_init (r : Results) : result Results :=
  match behavior r with
  | None => Raise KeyError
  | Some ps =>
      Ok (set_behavior (Some (map_calls CallLog.begin_reporting <$> ps)) r)
  end.

(** *** Vocabulary for the properties of a run *)



(** The batch entry point of class [c] was invoked. *)
Definition batch_run (c : nat) (tr : list event) : Prop :=
  ∃ seen r, BatchRun c seen r ∈ tr.


(** Class [c] was instantiated; a class whose constructor never fails;
    what the batch pass owes a candidate it takes up: it instantiates
    the class, and invokes its [run] when the class can be loaded, is
    enabled and passes the version gate. *)
Definition instantiated (c : nat) (tr : list event) : Prop :=
  ∃ ok, Instantiated c ok ∈ tr.

Definition loadable (c : SigClass) : Prop := ∀ r, ∃ st, new c r = Ok st.

Definition taken_up (c : SigClass) (tr : list event) : Prop :=
  instantiated (cid c) tr
  ∧ (loadable c → enabled (attrs c) = true →
     check_version (attrs c) = Ok true → batch_run (cid c) tr).


Definition full_view (s : state) : list (list Call) :=
  CallLog.entries ∘ calls <$> processes s.



(** The per-call hook of instance [n] was invoked for call [cidx] of
    process [pidx]. *)
Definition called_on (n pidx cidx : nat) (tr : list event) : Prop :=
  ∃ r, OnCall n pidx cidx r ∈ tr.

End WithState.
Arguments SigClass : clear implicits.
Arguments SigInst : clear implicits.
Arguments state : clear implicits.
Arguments pyobj : clear implicits.
End Engine.

(** ** Sample inputs *)

Module Samples.
Import Engine.

(** *** Auxiliary modules *)

Definition aux_enabled : gmap string Options :=
  {[ "sniffer" := {| opt_enabled := true |} ]}.

Definition sniffer : Auxiliary.AuxClass :=
  {| Auxiliary.aux_ctor := Ok ();
     Auxiliary.aux_module := "modules.auxiliary.sniffer";
     Auxiliary.aux_start := Ok ();
     Auxiliary.aux_stop := Ok () |}.

Definition broken : Auxiliary.AuxClass :=
  {| Auxiliary.aux_ctor := Raise RuntimeError;
     Auxiliary.aux_module := "modules.auxiliary.sniffer";
     Auxiliary.aux_start := Ok ();
     Auxiliary.aux_stop := Ok () |}.

(** *** Signatures *)

Definition plain (n : string) (is_evented : bool) : SigAttrs :=
  {| name := n; enabled := true; evented := is_evented;
     minimum := None; maximum := None; order := 0;
     filter_processnames := []; filter_apinames := [];
     filter_categories := []; filter_analysistypes := [] |}.

Definition hit (n : string) : Match :=
  {| m_name := n; severity := 2; confidence := 100; weight := 1;
     families := None |}.

(** A signature whose hooks always answer the same. *)
Definition constant (id : nat) (a : SigAttrs) (ctor : result unit)
    (call complete batch : result pyval) (used : list nat)
  : SigClass unit :=
  {| cid := id; attrs := a;
     new := λ _, ctor;
     on_call := λ st _ _, (call, st);
     on_complete := λ st, (complete, st);
     run := λ st _, (batch, st, used);
     as_result := λ _, Ok (hit (name a)) |}.

(** Evented: answers not-matched on the first call it is shown. *)
Definition quitter : SigClass unit :=
  constant 0 (plain "quitter" true) (Ok ())
    (Ok PFalse) (Ok PNone) (Raise NotImplementedError) [].

(** Evented: keeps watching, matches at completion. *)
Definition watcher : SigClass unit :=
  constant 1 (plain "watcher" true) (Ok ())
    (Ok PNone) (Ok PTrue) (Raise NotImplementedError) [].

(** Batch: reads every call and matches. *)
Definition reader : SigClass unit :=
  constant 2 (plain "reader" false) (Ok ())
    (Ok PNone) (Ok PNone) (Ok PTrue) [2].

(** Evented: its constructor fails. *)
Definition unloadable : SigClass unit :=
  constant 3 (plain "unloadable" true) (Raise RuntimeError)
    (Ok PNone) (Ok PNone) (Raise NotImplementedError) [].

Definition create_file : Call :=
  {| api := "NtCreateFile"; category := "filesystem" |}.
Definition write_file : Call :=
  {| api := "NtWriteFile"; category := "filesystem" |}.

Definition one_process (cs : list Call) : list Process :=
  [ {| process_name := "sample.exe"; calls := CallLog.fresh cs |} ].

Definition aggregate_of (b : option (list Process))
    (s : option Suricata) : Results :=
  {| info_category := "file"; target_category := "file";
     target_file := Some {| clamav := None |};
     behavior := b; virustotal := None; suricata := s;
     signatures := None; malscore := None; malfamily := None |}.

Definition one_call : Results :=
  aggregate_of (Some (one_process [create_file])) None.
Definition two_calls : Results :=
  aggregate_of (Some (one_process [create_file; write_file])) None.
Definition short_alert : Results :=
  aggregate_of (Some (one_process [create_file]))
    (Some {| alerts := Some [ {| signature := Some "ET TROJAN" |} ] |}).
Definition no_behavior : Results := aggregate_of None None.

(** One run of the engine: running version 1.3, no overlay file. *)
Definition run_on (classes : list (SigClass unit)) (r : Results)
  : result (state unit) :=
  RunSignatures_run "1.3-NG" ∅ (λ _, "") (Registry.BList classes) r.

(** *** Match records of the scoring examples *)

Definition low : Match :=
  {| m_name := "low"; severity := 1; confidence := 100; weight := 2;
     families := None |}.
Definition mid : Match :=
  {| m_name := "mid"; severity := 3; confidence := 50; weight := 2;
     families := None |}.


(** *** Aggregates crafted to satisfy chosen family rules *)

Definition zeus_match : Match :=
  {| m_name := "banker"; severity := 3; confidence := 100; weight := 1;
     families := Some ["zeus"; "zbot"] |}.

(** A stand-in for the consensus collaborator: the first name. *)
Definition first_name (names : list string) : string := hd "" names.

(** A stand-in that counts: the name given most often, the earliest
    of those given equally often. *)
Definition most_common (names : list string) : string :=
  let count n := length (List.filter (String.eqb n) names) in
  foldr (λ n best, if (count best <=? count n)%nat then n else best)
        "" names.

(** A match of low severity that declares a family. *)
Definition ramnit_match : Match :=
  {| m_name := "dropper"; severity := 1; confidence := 100; weight := 1;
     families := Some ["ramnit"] |}.

(** Two engines of the reputation lookup that disagree, the trusted
    vendor second. *)
Definition two_opinions : Results :=
  {| info_category := "file"; target_category := "file";
     target_file := Some {| clamav := None |}; behavior := None;
     virustotal :=
       Some {| vt_results :=
                 Some [ {| vendor := "Other"; sig := Some "Agent" |};
                        {| vendor := "Microsoft";
                           sig := Some "Ramnit" |} ] |};
     suricata := None;
     signatures := None; malscore := None; malfamily := None |}.

Definition crafted_matches (by_match : bool) : list Match :=
  if by_match then [zeus_match; low] else [mid; low].

Definition crafted (by_reputation by_alert by_antivirus : bool) : Results :=
  {| info_category := "file"; target_category := "file";
     target_file :=
       Some {| clamav := if by_antivirus then Some "Win.Trojan.Agent-42"
                         else None |};
     behavior := None;
     virustotal :=
       if by_reputation
       then Some {| vt_results :=
                      Some [ {| vendor := "Other"; sig := None |};
                             {| vendor := "Microsoft";
                                sig := Some "Ramnit" |} ] |}
       else None;
     suricata :=
       if by_alert
       then Some {| alerts :=
                      Some [ {| signature :=
                                  Some "ET TROJAN Win32/dridex.A Checkin" |} ] |}
       else None;
     signatures := None; malscore := None; malfamily := None |}.

Definition crafted_state (by_match by_reputation by_alert by_antivirus : bool)
  : state unit :=
  {| evented_list := []; complete_list := [];
     matched := crafted_matches by_match;
     results := crafted by_reputation by_alert by_antivirus; trace := [] |}.

End Samples.

(** ** Plugin discovery: [load_plugins], [import_plugin], [import_package] *)

Module Loader.

(** The capability classes [load_plugins] tests against. *)
Inductive capability :=
| CAuxiliary
| CMachinery
| CLibVirtMachinery
| CProcessing
| CReport
| CSignature
| CFeed.

#[global] Instance capability_eq_dec : EqDecision capability.
Proof. solve_decision. Defined.

(** A class object found among a module's members: the capability
    classes it is a subclass of ([issubclass], which holds of a class
    and itself), and which capability class, if any, the object itself
    is. *)
Record pyclass := {
  class_name : string;
  ancestors : list capability;
  itself : option capability;
}.

Definition issubclass (value : pyclass) (c : capability) : bool :=
  bool_decide (c ∈ ancestors value).

Definition is_not (value : pyclass) (c : capability) : bool :=
  negb (bool_decide (itself value = Some c)).

(** The capability classes as module members. *)
Definition base (c : capability) : pyclass :=
  {| class_name := "";
     ancestors := match c with
                  | CLibVirtMachinery => [CLibVirtMachinery; CMachinery]
                  | _ => [c]
                  end;
     itself := Some c |}.

(** The [if]/[elif] chain of [load_plugins]: the group a class is
    registered in, if any. *)
Definition classify (value : pyclass) : option string :=
  if issubclass value CAuxiliary && is_not value CAuxiliary
  then Some "auxiliary"
  else if issubclass value CMachinery && is_not value CMachinery
          && is_not value CLibVirtMachinery
  then Some "machinery"
  else if issubclass value CProcessing && is_not value CProcessing
  then Some "processing"
  else if issubclass value CReport && is_not value CReport
  then Some "reporting"
  else if issubclass value CSignature && is_not value CSignature
  then Some "signatures"
  else if issubclass value CFeed && is_not value CFeed
  then Some "feeds"
  else None.

(** A member as [inspect.getmembers] lists it: its name, and the class
    when the value is one ([inspect.isclass]). *)
Definition member : Type := string * option pyclass.

(** [load_plugins(module)], on the members of the module; it stops at
    the first registration that raises. *)
Fixpoint load_plugins (members : list member)
    (m : gmap string (Registry.bucket pyclass))
  : result unit * gmap string (Registry.bucket pyclass) :=
  match members with
  | [] => (Ok (), m)
  | (_, value) :: rest =>
      match value with
      | Some cls =>
          match classify cls with
          | Some group =>
              match Registry.register_plugin group cls m with
              | (Ok _, m1) => load_plugins rest m1
              | (Raise e, m1) => (Raise e, m1)
              end
          | None => load_plugins rest m
          end
      | None => load_plugins rest m
      end
  end.

(** What can leave [import_plugin]: the [CuckooCriticalError] it raises
    itself on an [ImportError], or whatever else left [__import__] or
    [load_plugins]. *)
Inductive failure :=
| CuckooCriticalError (name : string)
| Escaped (e : exn).

(** What [__import__(name)] does: it returns the module, with its
    members; it raises [ImportError] (so it does when there is no such
    module); or another error leaves the module's code while it is
    imported. *)
Inductive imported :=
| Found (members : list member)
| ImportError
| Broken (e : exn).

(** [import_plugin(name)]; [importable] gives what [__import__] does for
    each module name, a name it does not hold being a module that does
    not exist.  Only [ImportError] is caught and turned into
    [CuckooCriticalError]. *)
Definition import_plugin (importable : gmap string imported)
    (name : string) (m : gmap string (Registry.bucket pyclass))
  : option failure * gmap string (Registry.bucket pyclass) :=
  match default ImportError (importable !! name) with
  | ImportError => (Some (CuckooCriticalError name), m)
  | Broken e => (Some (Escaped e), m)
  | Found members =>
      match load_plugins members m with
      | (Ok _, m1) => (None, m1)
      | (Raise e, m1) => (Some (Escaped e), m1)
      end
  end.

(** [import_package(package)], on what [pkgutil.iter_modules] yields:
    the prefixed names with their [ispkg] flag. *)
Fixpoint import_package (importable : gmap string imported)
    (found : list (string * bool))
    (m : gmap string (Registry.bucket pyclass))
  : option failure * gmap string (Registry.bucket pyclass) :=
  match found with
  | [] => (None, m)
  | (name, ispkg) :: rest =>
      if ispkg : bool then import_package importable rest m
      else match import_plugin importable name m with
           | (None, m1) => import_package importable rest m1
           | (Some f, m1) => (Some f, m1)
           end
  end.

(** No group of the registry holds a dict. *)
Definition list_only {D} (m : gmap string (Registry.bucket D)) : Prop :=
  ∀ g, m !! g ≠ Some Registry.BDict.

(** The plugins a group holds. *)
Definition plugins {D} (g : string) (m : gmap string (Registry.bucket D))
  : list D :=
  match m !! g with
  | Some b => Registry.bucket_items b
  | None => []
  end.

(** The classes among [members] that belong to group [g], in order. *)
Fixpoint classified (g : string) (members : list member) : list pyclass :=
  match members with
  | [] => []
  | (_, Some cls) :: rest =>
      if bool_decide (classify cls = Some g)
      then cls :: classified g rest else classified g rest
  | (_, None) :: rest => classified g rest
  end.

(** The members of the modules of a package that are not packages, in
    the order they are imported; [None] when one cannot be imported. *)
Fixpoint package_members (importable : gmap string imported)
    (found : list (string * bool)) : option (list member) :=
  match found with
  | [] => Some []
  | (name, ispkg) :: rest =>
      if ispkg : bool then package_members importable rest
      else match importable !! name, package_members importable rest with
           | Some (Found ms), Some more => Some (ms ++ more)
           | _, _ => None
           end
  end.

(** The class is one of the capability classes (or
    [LibVirtMachinery]) themselves. *)
Definition is_capability_class (cls : pyclass) : Prop :=
  ∃ c, ancestors cls = ancestors (base c) ∧ itself cls = Some c.

End Loader.

(** ** Vocabulary for the further properties *)

Module AuxiliarySpec.
Import Auxiliary.

(** The module's section exists and enables it. *)
Definition configured (cfg : gmap string Options) (m : AuxClass) : bool :=
  match cfg !! short_name (aux_module m) with
  | Some o => opt_enabled o
  | None => false
  end.

Definition start_returns (m : AuxClass) : bool :=
  match aux_start m with Ok _ => true | Raise _ => false end.

(** The hook raises something that [except Exception] lets through. *)
Definition escapes (r : result unit) : bool :=
  match r with Raise e => negb (is_Exception e) | Ok _ => false end.

(** The modules in front of the first one whose constructor raises. *)
Fixpoint reached (mods : list AuxClass) : list AuxClass :=
  match mods with
  | [] => []
  | m :: rest =>
      match aux_ctor m with
      | Ok _ => m :: reached rest
      | Raise _ => []
      end
  end.

End AuxiliarySpec.

Module ProcessingSpec.
Import Processing.
Section WithData.
Context {D : Type}.

(** What a module adds when the statistics list exists: its key and
    data, provided it loads, its section enables it and its [run]
    returns. *)
Definition contributes (cfg : gmap string Options) (m : ProcClass D)
  : option (string * D) :=
  match pc_ctor m, cfg !! short_name (pc_module m), pc_run m with
  | Ok _, Some o, Ok data =>
      if opt_enabled o then Some (pc_key m, data) else None
  | _, _, _ => None
  end.

Definition merge (cfg : gmap string Options) (c : gmap string D)
    (m : ProcClass D) : gmap string D :=
  match contributes cfg m with
  | Some (k, d) => <[k := d]> c
  | None => c
  end.

Definition contributors (cfg : gmap string Options) (mods : list (ProcClass D))
  : list string :=
  pc_name <$> List.filter (λ m, bool_decide (is_Some (contributes cfg m))) mods.

End WithData.
End ProcessingSpec.

(** ** Sample processing modules *)

Module ProcessingSamples.
Import Processing.

Definition proc_cfg : gmap string Options :=
  {[ "static" := {| opt_enabled := true |};
     "strings" := {| opt_enabled := true |};
     "network" := {| opt_enabled := false |} ]}.

Definition proc (n modname key : string) (o : Z) (r : result nat)
  : ProcClass nat :=
  {| pc_name := n; pc_module := modname; pc_order := o; pc_key := key;
     pc_ctor := Ok (); pc_run := r |}.

Definition static : ProcClass nat :=
  proc "Static" "modules.processing.static" "static" 1 (Ok 11).

(** A second module writing the key [static]. *)
Definition strings : ProcClass nat :=
  proc "Strings" "modules.processing.strings" "static" 2 (Ok 22).

Definition failing : ProcClass nat :=
  proc "Failing" "modules.processing.strings" "strings" 1
       (Raise CuckooProcessingError).

Definition disabled : ProcClass nat :=
  proc "Network" "modules.processing.network" "network" 3 (Ok 33).

Definition timed : state nat :=
  {| contributions := ∅; statistics := Some []; log := [] |}.

Definition untimed : state nat :=
  {| contributions := ∅; statistics := None; log := [] |}.

End ProcessingSamples.

Module AggregateSpec.
Import Aggregate.

(** What one alert proposes in the loop over the alerts: a name, nothing
    ([Ok None]: no signature text, not a trojan alert, or a blacklisted
    word), or the error of the word lookup. *)
Definition alert_candidate (a : Alert) : result (option string) :=
  match signature a with
  | Some s =>
      if PyStr.truthy s && is_trojan_alert s then alert_family s
      else Ok None
  | None => Ok None
  end.

End AggregateSpec.

Module EngineSpec.
Import Engine.

(** The event reports a hook call on instance [n]. *)
Definition about (n : nat) (e : event) : Prop :=
  match e with
  | OnCall m _ _ _ => m = n
  | OnComplete m _ => m = n
  | _ => False
  end.

(** The event is a per-call answer of instance [n] other than [None]
    (an error included): what takes the instance off the list. *)
Definition answers (n : nat) (e : event) : Prop :=
  match e with
  | OnCall m _ _ r => m = n ∧ r ≠ Ok PNone
  | _ => False
  end.

(** After an instance has answered, no hook of it is called again. *)
Definition left_alone (tr : list event) : Prop :=
  ∀ before e after n,
    tr = before ++ e :: after → answers n e →
    Forall (λ e', ¬ about n e') after.

(** What the call loops maintain: the instances on the list are told
    apart by their numbers, and none of them has answered. *)
Definition inv {St} (s : state St) : Prop :=
  NoDup (serial <$> evented_list s)
  ∧ left_alone (trace s)
  ∧ ∀ e n, e ∈ trace s → answers n e → n ∉ (serial <$> evented_list s).

(** The event reports a call of an evented hook. *)
Definition is_hook (e : event) : Prop :=
  match e with
  | OnCall _ _ _ _ => True
  | OnComplete _ _ => True
  | _ => False
  end.

(** What the evented pass leaves alone from one state to a later one:
    the batch candidates, the target category and the content of the
    call logs, which do not go away; and the trace only grows, by hook
    calls. *)
Definition frame {St} (s s' : state St) : Prop :=
  complete_list s' = complete_list s
  ∧ target_category (results s') = target_category (results s)
  ∧ full_view s' = full_view s
  ∧ (behavior (results s) ≠ None → behavior (results s') ≠ None)
  ∧ ∃ more, trace s' = trace s ++ more ∧ Forall is_hook more.

(** The state in which the evented pass starts for the one class
    [watcher], which matches at completion. *)
Definition watcher_state : state unit :=
  {| evented_list := [ {| serial := 0; icls := Samples.watcher;
                          iattrs := attrs Samples.watcher; ist := () |} ];
     complete_list := [Samples.watcher]; matched := [];
     results := Samples.one_call; trace := [] |}.

(** An overlay file that switches the batch signature [reader] off. *)
Definition reader_off : gmap string (SigAttrs → SigAttrs) :=
  {[ "reader" :=
       λ a, {| name := name a; enabled := false; evented := evented a;
               minimum := minimum a; maximum := maximum a;
               order := order a;
               filter_processnames := filter_processnames a;
               filter_apinames := filter_apinames a;
               filter_categories := filter_categories a;
               filter_analysistypes := filter_analysistypes a |} ]}.

(** A batch class whose minimum version begins with the separator. *)
Definition misversioned : SigClass unit :=
  Samples.constant 4
    {| name := "misversioned"; enabled := true; evented := false;
       minimum := Some "-dev"; maximum := None; order := 0;
       filter_processnames := []; filter_apinames := [];
       filter_categories := []; filter_analysistypes := [] |}
    (Ok ()) (Ok PNone) (Ok PNone) (Ok PTrue) [].

Definition batch_state (classes : list (SigClass unit)) : state unit :=
  {| evented_list := []; complete_list := classes; matched := [];
     results := Samples.one_call; trace := [] |}.

End EngineSpec.

(** ** The reporting stage *)

Module Reporting.

(** A reporting module class: class name, defining Python module,
    [order], and the outcomes of its constructor, of the calls made on
    the instance between the [enabled] test and the [try] block
    ([set_path], [set_task], [set_options] and [Config(cfg=conf_path)]),
    and of its [run]. *)
Record ReportClass := {
  rc_name : string;
  rc_module : string;
  rc_order : Z;
  rc_ctor : result unit;
  rc_setup : result unit;
  rc_run : result unit;
}.

Inductive event :=
| Loaded (name : string) (ok : bool)
| Ran (name : string) (r : result unit).

(** [results["statistics"]["reporting"]] when it exists, and what was
    called. *)
Record state := {
  statistics : option (list string);
  log : list event;
}.

Definition emit (e : event) (s : state) : state :=
  {| statistics := statistics s; log := log s ++ [e] |}.

(** [RunReporting.process] *)
Definition process (cfg : gmap string Options) (module : ReportClass)
    (s : state) : result unit * state :=
  match rc_ctor module with
  | Raise _ => (Ok (), emit (Loaded (rc_name module) false) s)
  | Ok _ =>
      let s := emit (Loaded (rc_name module) true) s in
      match cfg_get cfg (short_name (rc_module module)) with
      | Raise CuckooOperationalError => (Ok (), s)
      | Raise e => (Raise e, s)
      | Ok options =>
          if negb (opt_enabled options) then (Ok (), s)
          else
            match rc_setup module with
            | Raise e => (Raise e, s)
            | Ok _ =>
                let s := emit (Ran (rc_name module) (rc_run module)) s in
                match rc_run module with
                | Raise _ => (Ok (), s)
                | Ok _ =>
                    match statistics s with
                    | None => (Ok (), s)
                    | Some timed =>
                        (Ok (),
                         {| statistics := Some (timed ++ [rc_name module]);
                            log := log s |})
                    end
                end
            end
      end
  end.

(** [for module in reporting_list: self.process(module)] *)
Fixpoint run_loop (cfg : gmap string Options) (mods : list ReportClass)
    (s : state) : result unit * state :=
  match mods with
  | [] => (Ok (), s)
  | module :: rest =>
      match process cfg module s with
      | (Ok _, s) => run_loop cfg rest s
      | (Raise e, s) => (Raise e, s)
      end
  end.

(** [RunReporting.run], on the bucket [list_plugins("reporting")]
    returned. *)
Definition run (cfg : gmap string Options)
    (reporting_list : Registry.bucket ReportClass) (s : state)
  : result unit * state :=
  if Registry.bucket_truthy reporting_list
  then run_loop cfg
         (PyList.sort_by rc_order (Registry.bucket_items reporting_list)) s
  else (Ok (), s).

(** The module loads and its section exists and enables it. *)
Definition reportable (cfg : gmap string Options) (m : ReportClass) : bool :=
  match rc_ctor m, cfg !! short_name (rc_module m) with
  | Ok _, Some o => opt_enabled o
  | _, _ => false
  end.

(** The names of the classes instantiated, and of those whose [run] was
    called, in call order. *)
Fixpoint loaded_names (lg : list event) : list string :=
  match lg with
  | [] => []
  | Loaded n _ :: rest => n :: loaded_names rest
  | _ :: rest => loaded_names rest
  end.

Fixpoint ran_names (lg : list event) : list string :=
  match lg with
  | [] => []
  | Ran n _ :: rest => n :: ran_names rest
  | _ :: rest => ran_names rest
  end.

(** *** Sample report modules *)

Definition report_cfg : gmap string Options :=
  {[ "jsondump" := {| opt_enabled := true |};
     "reporthtml" := {| opt_enabled := true |};
     "mongodb" := {| opt_enabled := false |} ]}.

Definition report (n modname : string) (o : Z) (ctor setup r : result unit)
  : ReportClass :=
  {| rc_name := n; rc_module := modname; rc_order := o;
     rc_ctor := ctor; rc_setup := setup; rc_run := r |}.

Definition jsondump : ReportClass :=
  report "JsonDump" "modules.reporting.jsondump" 1 (Ok ()) (Ok ()) (Ok ()).

Definition reporthtml : ReportClass :=
  report "ReportHTML" "modules.reporting.reporthtml" 2
         (Ok ()) (Ok ()) (Raise CuckooReportError).

Definition mongodb : ReportClass :=
  report "MongoDB" "modules.reporting.mongodb" 3
         (Ok ()) (Raise CuckooReportError) (Ok ()).

Definition unwritable : ReportClass :=
  report "Unwritable" "modules.reporting.jsondump" 2
         (Ok ()) (Raise CuckooReportError) (Ok ()).

Definition start_state : state := {| statistics := Some []; log := [] |}.

End Reporting.

(** ** The feed engine *)

Module Feeds.

(** What can leave [GetFeeds.process]: the [UnboundLocalError] of its
    own handler, or an error of the feed. *)
Inductive error :=
| UnboundLocalError
| Propagated (e : exn).

(** A feed class: its [name] and [enabled] attributes, and the outcomes
    of its constructor and of the methods of its instance; [fd_run] is
    [run(modified=...)]. *)
Record FeedClass := {
  fd_name : string;
  fd_enabled : bool;
  fd_ctor : result unit;
  fd_update : result bool;
  fd_modify : result unit;
  fd_run : bool → result unit;
  fd_feedpath : result string;
}.

Inductive event :=
| Constructed (name : string) (ok : bool)
| RunCalled (name : string) (modified : bool).

(** [results["feeds"]], and what was called. *)
Record state := {
  feeds : gmap string string;
  log : list event;
}.

(** [GetFeeds.__init__]: [self.results["feeds"] = dict()] *)
Definition init : state := {| feeds := ∅; log := [] |}.

Definition emit (e : event) (s : state) : state :=
  {| feeds := feeds s; log := log s ++ [e] |}.

(** How the block under [if current.update():] ends: it falls through
    to the assignment, returns, or lets an error out. *)
Inductive ending :=
| Through
| Return
| Fail (e : error).

(** [except NotImplementedError: current.run(modified=False)]; what
    the call raises is raised inside the handler and leaves. *)
Definition fallback (feed : FeedClass) (s : state) : ending * state :=
  let s := emit (RunCalled (fd_name feed) false) s in
  match fd_run feed false with
  | Ok _ => (Through, s)
  | Raise e => (Fail (Propagated e), s)
  end.

(** The [try] block under [if current.update():]. *)
Definition refresh (feed : FeedClass) (s : state) : ending * state :=
  match fd_modify feed with
  | Ok _ =>
      let s := emit (RunCalled (fd_name feed) true) s in
      match fd_run feed true with
      | Ok _ => (Through, s)
      | Raise NotImplementedError => fallback feed s
      | Raise _ => (Return, s)
      end
  | Raise NotImplementedError => fallback feed s
  | Raise _ => (Return, s)
  end.

(** [GetFeeds.process]; [None] is a return.  When the constructor
    raises, the handler reads [current.name] with [current] not yet
    bound. *)
Definition process (feed : FeedClass) (s : state) : option error * state :=
  match fd_ctor feed with
  | Raise _ =>
      (Some UnboundLocalError, emit (Constructed (fd_name feed) false) s)
  | Ok _ =>
      let s := emit (Constructed (fd_name feed) true) s in
      match fd_update feed with
      | Raise e => (Some (Propagated e), s)
      | Ok updated =>
          let '(how, s) := if updated : bool then refresh feed s
                           else (Through, s) in
          match how with
          | Through =>
              match fd_feedpath feed with
              | Ok path =>
                  (None, {| feeds := <[fd_name feed := path]> (feeds s);
                            log := log s |})
              | Raise e => (Some (Propagated e), s)
              end
          | Return => (None, s)
          | Fail e => (Some e, s)
          end
      end
  end.

(** [for feed in feeds_list: if feed.enabled: self.process(feed)] *)
Fixpoint run_loop (feeds_list : list FeedClass) (s : state)
  : option error * state :=
  match feeds_list with
  | [] => (None, s)
  | feed :: rest =>
      if fd_enabled feed
      then match process feed s with
           | (None, s) => run_loop rest s
           | (Some e, s) => (Some e, s)
           end
      else run_loop rest s
  end.

(** [GetFeeds.run], on the bucket [list_plugins("feeds")] returned. *)
Definition run (feeds_list : Registry.bucket FeedClass) (s : state)
  : option error * state :=
  if Registry.bucket_truthy feeds_list
  then run_loop (Registry.bucket_items feeds_list) s
  else (None, s).

(** The [try] block under [if current.update():] fails with something
    other than [NotImplementedError]. *)
Definition refresh_fails (feed : FeedClass) : Prop :=
  (∃ e, fd_modify feed = Raise e ∧ e ≠ NotImplementedError)
  ∨ (∃ e, fd_modify feed = Ok () ∧ fd_run feed true = Raise e
          ∧ e ≠ NotImplementedError).

(** *** Sample feeds *)

Definition feed (n : string) (on : bool) (ctor : result unit)
    (update : result bool) (modify : result unit)
    (r : bool → result unit) : FeedClass :=
  {| fd_name := n; fd_enabled := on; fd_ctor := ctor;
     fd_update := update; fd_modify := modify; fd_run := r;
     fd_feedpath := Ok ("feeds/" +:+ n +:+ ".feed") |}.

Definition abuse_ch : FeedClass :=
  feed "abuse_ch" true (Ok ()) (Ok true) (Raise NotImplementedError)
       (λ _, Ok ()).

Definition stale : FeedClass :=
  feed "stale" true (Ok ()) (Ok false) (Ok ()) (λ _, Ok ()).

Definition garbled : FeedClass :=
  feed "garbled" true (Ok ()) (Ok true) (Raise ValueError) (λ _, Ok ()).

Definition unloadable : FeedClass :=
  feed "unloadable" true (Raise RuntimeError) (Ok true) (Ok ()) (λ _, Ok ()).

Definition switched_off : FeedClass :=
  feed "switched_off" false (Ok ()) (Ok true) (Ok ()) (λ _, Ok ()).

End Feeds.

(** * Properties *)

(** ** Sorting *)

Module PyListFacts.
Import PyList.
Section WithKey.
Context {A : Type} (key : A → Z).
Implicit Types (a x : A) (l : list A).

Lemma insert_by_perm a l : insert_by key a l ≡ₚ a :: l.
Proof.
  induction l as [|x l IH]; simpl; [done |].
  destruct (key a <=? key x)%Z; [done |].
  rewrite IH. apply Permutation_swap.
Qed.

Lemma sort_by_perm l : sort_by key l ≡ₚ l.
Proof.
  induction l as [|a l IH]; simpl; [done |].
  by rewrite insert_by_perm, IH.
Qed.

Lemma insert_by_sorted a l :
  StronglySorted (key_le key) l → StronglySorted (key_le key) (insert_by key a l).
Proof.
  induction 1 as [|x l Hs IH Hx]; simpl; [repeat constructor |].
  destruct (Z.leb_spec (key a) (key x)) as [Hle|Hgt].
  - constructor; [by constructor |]. constructor; [done |].
    eapply Forall_impl; [exact Hx |]. unfold key_le. simpl. lia.
  - constructor; [done |].
    rewrite insert_by_perm. constructor; [| done].
    unfold key_le. lia.
Qed.

Lemma sort_by_sorted l : StronglySorted (key_le key) (sort_by key l).
Proof.
  induction l as [|a l IH]; simpl; [constructor |].
  by apply insert_by_sorted.
Qed.

(** Stability: the elements of any one key keep the order they had. *)
Lemma insert_by_stable (k : Z) a l :
  with_key key k (insert_by key a l) = with_key key k (a :: l).
Proof.
  unfold with_key. induction l as [|x l IH]; [done |]. cbn [insert_by].
  destruct (Z.leb_spec (key a) (key x)) as [Hle|Hgt]; [done |].
  cbn [List.filter] in *. rewrite IH.
  destruct (Z.eqb_spec (key a) k), (Z.eqb_spec (key x) k); try done; lia.
Qed.

Lemma sort_by_stable (k : Z) l :
  with_key key k (sort_by key l) = with_key key k l.
Proof.
  induction l as [|a l IH]; [done |]. cbn [sort_by foldr].
  rewrite insert_by_stable. unfold with_key in *. cbn [List.filter].
  fold (sort_by key l). by rewrite IH.
Qed.

End WithKey.
End PyListFacts.

(** ** Registry *)

Module RegistryFacts.
Import Registry.

Section WithDescriptor.
Context {D : Type}.
Implicit Types (m : gmap string (bucket D)) (d : D) (g : string).

(** Registering into a group that holds a list (or nothing yet)
    appends. *)
Lemma register_appends g d m l :
  m !! g = Some (BList l) ∨ (m !! g = None ∧ l = []) →
  register_plugin g d m = (Ok (), <[g := BList (l ++ [d])]> m).
Proof.
  unfold register_plugin, setdefault.
  intros [H | [H ->]]; rewrite H; [done |].
  by rewrite insert_insert_eq.
Qed.

(** Listing a group that holds something returns it and leaves the
    registry alone. *)
Lemma list_registered g m b :
  PyStr.truthy g = true → m !! g = Some b →
  list_plugins (Some g) m = (LGroup b, m).
Proof.
  intros Hg H. unfold list_plugins, getitem. by rewrite Hg, H.
Qed.

(** Listing a group nothing was registered in returns an empty dict,
    and stores it. *)
Lemma list_unregistered g m :
  PyStr.truthy g = true → m !! g = None →
  list_plugins (Some g) m = (LGroup BDict, <[g := BDict]> m).
Proof.
  intros Hg H. unfold list_plugins, getitem. by rewrite Hg, H.
Qed.

(** C10 (fails on the code): listing a group before anything was
    registered in it, then registering into it.  The listing returns
    an empty collection, but the registration that follows raises
    [AttributeError] and the descriptor is not stored: the bucket
    the listing created is a dict, which has no [append]. *)
Theorem list_then_register_raises g d m :
  PyStr.truthy g = true → m !! g = None →
  let '(l, m1) := list_plugins (Some g) m in
  let '(r, m2) := register_plugin g d m1 in
  l = LGroup BDict ∧ r = Raise AttributeError ∧ m2 !! g = Some BDict.
Proof.
  intros Hg H. rewrite (list_unregistered g m Hg H).
  unfold register_plugin, setdefault.
  rewrite lookup_insert_eq. by rewrite lookup_insert_eq.
Qed.
End WithDescriptor.

Lemma list_then_register_raises_witness :
  let '(l, m1) := list_plugins (D := nat) (Some "signatures") ∅ in
  let '(r, m2) := register_plugin "signatures" 7 m1 in
  l = LGroup BDict ∧ r = Raise AttributeError
  ∧ m2 !! "signatures" = Some BDict.
Proof.
  apply (list_then_register_raises "signatures" 7 ∅); reflexivity.
Defined.

End RegistryFacts.

(** ** Auxiliary controller *)

Module AuxiliaryFacts.
Import Auxiliary.

Lemma ok_positions_app lg lg' :
  ok_positions (lg ++ lg') = ok_positions lg ++ ok_positions lg'.
Proof.
  induction lg as [|[p r|p [[]|e]|p r] lg IH]; simpl; by rewrite ?IH.
Qed.

Lemma stop_positions_app lg lg' :
  stop_positions (lg ++ lg') = stop_positions lg ++ stop_positions lg'.
Proof.
  induction lg as [|[p r|p r|p r] lg IH]; simpl; by rewrite ?IH.
Qed.

Lemma started_ok_positions pos lg :
  started_ok pos lg ↔ pos ∈ ok_positions lg.
Proof.
  unfold started_ok. induction lg as [|e lg IH]; simpl.
  - split; intros H; inversion H.
  - rewrite elem_of_cons, IH.
    destruct e as [p r|p [[]|x]|p r]; rewrite ?elem_of_cons;
      intuition congruence.
Qed.

Lemma stops_count pos lg :
  stops pos lg = length (List.filter (Nat.eqb pos) (stop_positions lg)).
Proof.
  unfold stops. induction lg as [|[p r|p r|p r] lg IH]; simpl; auto.
  rewrite (Nat.eqb_sym pos p). destruct (Nat.eqb p pos); simpl; auto.
Qed.

Lemma count_absent pos (l : list nat) :
  pos ∉ l → length (List.filter (Nat.eqb pos) l) = 0.
Proof.
  induction l as [|x l IH]; simpl; [done |].
  rewrite not_elem_of_cons. intros [Hne Hl].
  destruct (Nat.eqb_spec pos x); [done | auto].
Qed.

Lemma count_once pos (l : list nat) :
  NoDup l → pos ∈ l → length (List.filter (Nat.eqb pos) l) = 1.
Proof.
  induction 1 as [|x l Hx Hnd IH]; [by intros ?%elem_of_nil |].
  rewrite elem_of_cons. simpl. destruct (Nat.eqb_spec pos x) as [->|Hne].
  - intros _. simpl. by rewrite count_absent.
  - intros [?|Hin]; [done | auto].
Qed.

Lemma consistent_init : consistent 0 init.
Proof. split; simpl; auto using NoDup_nil_2. Qed.

Lemma consistent_weaken (b b' : nat) s :
  (b ≤ b')%nat → consistent b s → consistent b' s.
Proof.
  intros Hle [H1 H2 H3 H4]. split; auto.
  eapply Forall_impl; [exact H2 | simpl; lia].
Qed.

Lemma consistent_emit b s e :
  ok_positions [e] = [] → stop_positions [e] = [] →
  consistent b s → consistent b (emit e s).
Proof.
  intros He Hs [H1 H2 H3 H4]. split; simpl;
    rewrite ?ok_positions_app, ?stop_positions_app, ?He, ?Hs, ?app_nil_r;
    auto.
Qed.

Lemma consistent_started b s cls :
  consistent b s →
  consistent (S b)
    (enable {| aux_pos := b; aux_cls := cls |}
            (emit (StartCalled b (Ok ())) s)).
Proof.
  intros [H1 H2 H3 H4]. split; simpl;
    rewrite ?ok_positions_app, ?stop_positions_app; simpl.
  - by rewrite fmap_app, H1.
  - apply Forall_app. split; [| repeat constructor].
    eapply Forall_impl; [exact H2 | simpl; lia].
  - apply NoDup_app. repeat split; auto.
    + intros x Hx ->%list_elem_of_singleton.
      rewrite Forall_forall in H2. specialize (H2 _ Hx). simpl in H2. lia.
    + apply NoDup_singleton.
  - by rewrite H4.
Qed.

Lemma start_loop_consistent cfg mods : ∀ pos s r s',
  start_loop cfg pos mods s = (r, s') →
  consistent pos s → ∃ b, consistent b s'.
Proof.
  induction mods as [|module rest IH]; simpl; intros pos s r s' Heq Hs.
  { inversion Heq; subst; eauto. }
  assert (Hc : consistent pos (emit (Constructed pos (aux_ctor module)) s))
    by (apply consistent_emit; auto).
  destruct (aux_ctor module) as [[]|e].
  2:{ inversion Heq; subst; eauto. }
  destruct (cfg_get cfg (short_name (aux_module module))) as [options|e].
  2:{ destruct e; try (inversion Heq; subst; eauto; fail).
      eapply IH; [exact Heq |]. eapply consistent_weaken; [| exact Hc]. lia. }
  destruct (opt_enabled options); simpl in Heq.
  2:{ eapply IH; [exact Heq |]. eapply consistent_weaken; [| exact Hc]. lia. }
  destruct (aux_start module) as [[]|e] eqn:Hst.
  - eapply IH; [exact Heq |]. by apply consistent_started.
  - assert (Hc' : consistent (S pos)
              (emit (StartCalled pos (Raise e))
                 (emit (Constructed pos (Ok ())) s))).
    { apply consistent_emit; auto.
      eapply consistent_weaken; [| exact Hc]. lia. }
    destruct e; simpl in Heq;
      solve [ eapply IH; [exact Heq | exact Hc']
            | inversion Heq; subst; eauto ].
Qed.

Lemma start_consistent cfg bucket r s :
  start cfg bucket init = (r, s) → ∃ b, consistent b s.
Proof.
  unfold start. destruct (Registry.bucket_truthy bucket).
  - intros H. eapply start_loop_consistent; [exact H | apply consistent_init].
  - intros H. inversion H; subst. eauto using consistent_init.
Qed.

(** A [stop] that returns has called the stop hook of every recorded
    instance, in order, and nothing else. *)
Lemma stop_loop_returns mods : ∀ lg lg',
  stop_loop mods lg = (Ok (), lg') →
  ok_positions lg' = ok_positions lg
  ∧ stop_positions lg' = stop_positions lg ++ (aux_pos <$> mods).
Proof.
  induction mods as [|module rest IH]; simpl; intros lg lg' Heq.
  { inversion Heq; subst. by rewrite app_nil_r. }
  assert (Hgo : ∀ r, stop_loop rest (lg ++ [StopCalled (aux_pos module) r])
                      = (Ok (), lg') →
            ok_positions lg' = ok_positions lg
            ∧ stop_positions lg'
              = stop_positions lg ++ aux_pos module :: (aux_pos <$> rest)).
  { intros r H. apply IH in H as [H1 H2].
    rewrite H1, H2, ok_positions_app, stop_positions_app. simpl.
    by rewrite app_nil_r, <- app_assoc. }
  destruct (aux_stop (aux_cls module)) as [[]|e]; [exact (Hgo _ Heq) |].
  destruct (is_Exception e); [exact (Hgo _ Heq) | discriminate].
Qed.

(** C9: after [start()] and one [stop()] that returns, the stop hook
    has been called on exactly the instances recorded as started, in
    that order; an instance whose start hook returned without error
    received exactly one stop call, and every other module (constructor
    error, section missing or disabled, error from the start hook,
    never reached) received none. *)
Theorem stop_exactly_started cfg bucket r s1 s2 :
  start cfg bucket init = (r, s1) →
  stop s1 = (Ok (), s2) →
  stop_positions (log s2) = aux_pos <$> enabled s1
  ∧ ∀ pos,
      (started_ok pos (log s2) → stops pos (log s2) = 1)
      ∧ (¬ started_ok pos (log s2) → stops pos (log s2) = 0).
Proof.
  intros Hstart Hstop.
  destruct (start_consistent _ _ _ _ Hstart) as [b [H1 H2 H3 H4]].
  unfold stop in Hstop.
  destruct (stop_loop (enabled s1) (log s1)) as [r' lg] eqn:Hloop.
  inversion Hstop; subst; simpl.
  apply stop_loop_returns in Hloop as [Hok Hsp].
  rewrite H4 in Hsp. simpl in Hsp. split; [done |].
  intros pos. rewrite started_ok_positions, stops_count, Hok, Hsp, H1.
  split; [by apply count_once | by apply count_absent].
Qed.

Lemma stop_exactly_started_witness :
  let bucket := Registry.BList [Samples.sniffer; Samples.sniffer] in
  let s1 := (start Samples.aux_enabled bucket init).2 in
  let s2 := (stop s1).2 in
  stop_positions (log s2) = aux_pos <$> enabled s1
  ∧ ∀ pos,
      (started_ok pos (log s2) → stops pos (log s2) = 1)
      ∧ (¬ started_ok pos (log s2) → stops pos (log s2) = 0).
Proof.
  intros bucket s1 s2.
  apply (stop_exactly_started Samples.aux_enabled bucket (Ok ()) s1 s2);
    vm_compute; reflexivity.
Defined.

Local Ltac finish Hno :=
  simpl; split; [repeat constructor |];
  apply Hno; repeat constructor; done.

(** C8 (fails on the code): three auxiliary modules, the middle one's
    constructor raising.  [start] returns at the failure: whatever the
    first and the third module are, the third is neither instantiated
    nor started, and only the first can be recorded as started. *)
Theorem constructor_failure_ends_start cfg first third e name st sp :
  let middle := {| aux_ctor := Raise e; aux_module := name;
                   aux_start := st; aux_stop := sp |} in
  let s := (start cfg (Registry.BList [first; middle; third]) init).2 in
  Forall (λ i, aux_pos i = 0) (enabled s)
  ∧ ¬ constructed 2 (log s)
  ∧ ¬ start_called 2 (log s).
Proof.
  intros middle. unfold start; simpl.
  assert (Hno : ∀ lg, Forall (λ ev, match ev with
                                    | Constructed p _ | StartCalled p _
                                    | StopCalled p _ => p ≠ 2
                                    end) lg →
                      ¬ constructed 2 lg ∧ ¬ start_called 2 lg).
  { intros lg Hlg. rewrite Forall_forall in Hlg.
    split; intros [r H]; apply Hlg in H; done. }
  destruct (aux_ctor first) as [[]|x]; [| finish Hno].
  destruct (cfg_get cfg (short_name (aux_module first))) as [o|x];
    [| destruct x; finish Hno].
  destruct (opt_enabled o); [| finish Hno].
  destruct (aux_start first) as [[]|x]; [finish Hno |].
  destruct x; finish Hno.
Qed.

(** The sibling stage: the same three modules where nothing fails are
    all started. *)
Example all_three_start_without_failure :
  let bucket := Registry.BList
                  [Samples.sniffer; Samples.sniffer; Samples.sniffer] in
  aux_pos <$> enabled (start Samples.aux_enabled bucket init).2 = [0; 1; 2].
Proof. reflexivity. Qed.

Example middle_failure_starts_only_first :
  let bucket := Registry.BList
                  [Samples.sniffer; Samples.broken; Samples.sniffer] in
  aux_pos <$> enabled (start Samples.aux_enabled bucket init).2 = [0].
Proof. reflexivity. Qed.

End AuxiliaryFacts.

(** ** Processing stage *)

Module ProcessingFacts.
Import Processing.
Section WithData.
Context {D : Type}.
Implicit Types (s : state D) (m : ProcClass D).

Lemma process_log cfg m s :
  ∃ ok more,
    log (process cfg m s).2 = log s ++ Loaded (pc_name m) ok :: more.
Proof.
  unfold process. destruct (pc_ctor m) as [[]|e]; simpl; [| by eauto].
  destruct (cfg_get cfg (short_name (pc_module m))) as [o|e]; simpl;
    [| by eauto].
  destruct (opt_enabled o); simpl; [| by eauto].
  destruct (pc_run m) as [d|e]; simpl.
  - destruct (statistics s); simpl; rewrite <- app_assoc; eauto.
  - rewrite <- app_assoc. eauto.
Qed.

Lemma run_loop_log cfg mods : ∀ s,
  ∃ more, log (run_loop cfg mods s) = log s ++ more.
Proof.
  induction mods as [|m mods IH]; intros s; simpl.
  { exists []. by rewrite app_nil_r. }
  destruct (process_log cfg m s) as (ok & more & Hlog).
  destruct (process cfg m s) as [result s1]. simpl in Hlog.
  match goal with |- context [run_loop cfg mods ?s2] =>
    destruct (IH s2) as [more' Hmore];
    assert (Hs2 : log s2 = log s1) by (destruct result as [[k d]|]; done)
  end.
  rewrite Hmore, Hs2, Hlog, <- app_assoc. eauto.
Qed.

(** In the processing stage no module can keep a sibling from being
    instantiated: whatever the constructors and [run] methods of the
    registered modules do, each of them is loaded. *)
Lemma every_module_is_loaded cfg mods : ∀ s m,
  m ∈ mods → loaded (pc_name m) (log (run_loop cfg mods s)).
Proof.
  induction mods as [|x mods IH]; intros s m Hin; [by inversion Hin |].
  simpl. destruct (process_log cfg x s) as (ok & more & Hlog).
  destruct (process cfg x s) as [result s1]. simpl in Hlog.
  apply elem_of_cons in Hin as [->|Hin]; [| by apply IH].
  match goal with |- context [run_loop cfg mods ?s2] =>
    destruct (run_loop_log cfg mods s2) as [more' Hmore];
    assert (Hs2 : log s2 = log s1) by (destruct result as [[k d]|]; done)
  end.
  exists ok. rewrite Hmore, Hs2, Hlog.
  rewrite !elem_of_app, elem_of_cons. auto.
Qed.

Lemma run_loads_every_module cfg mods s m :
  m ∈ mods → loaded (pc_name m) (log (run cfg (Registry.BList mods) s)).
Proof.
  intros Hin. unfold run, Registry.bucket_truthy. simpl.
  destruct mods as [|x mods]; [by inversion Hin |].
  apply every_module_is_loaded.
  by rewrite (PyListFacts.sort_by_perm pc_order (x :: mods)).
Qed.

End WithData.
End ProcessingFacts.

(** ** Version gate *)

Module VersionFacts.
Import Version.

Lemma parse_raises_ValueError vstring e :
  parse vstring = Raise e → e = ValueError.
Proof.
  unfold parse.
  destruct (digits1 vstring) as [[major [|c s1]]|]; try congruence.
  destruct (Ascii.eqb_spec c ".") as [->|Hc].
  2:{ destruct c as [[] [] [] [] [] [] [] []]; congruence. }
  destruct (digits1 s1) as [[minor s2]|]; try congruence.
  destruct (opt_patch s2) as [[patch s3]|]; try congruence.
  destruct (opt_prerelease s3) as [[pre s4]|]; try congruence.
  destruct (at_end s4); congruence.
Qed.

Lemma cmp_parsed a b : ∃ c, cmp (Parsed a) (Parsed b) = Ok c.
Proof.
  unfold cmp. destruct (cmp_triple (version a) (version b)); eauto.
  destruct (prerelease a), (prerelease b); eauto.
Qed.

(** A comparison against a bound whose text before the dash is a number
    decides by the ordering, and one against any other non-empty text
    rejects; neither raises. *)
Lemma rejects_well_formed f running bound v n :
  parse running = Ok v →
  parse (PyStr.before_first PyStr.dash bound) = Ok n →
  ∃ c, cmp (Parsed v) (Parsed n) = Ok c ∧ rejects f running bound = Ok (f c).
Proof.
  intros Hv Hn. destruct (cmp_parsed v n) as [c Hc]. exists c. split; [done |].
  unfold rejects, make.
  destruct running as [|x running]; [discriminate |].
  destruct (PyStr.before_first PyStr.dash bound) as [|y head];
    [discriminate |].
  simpl PyStr.truthy. cbv iota. rewrite Hv, Hn. simpl.
  unfold cmp in Hc. rewrite Hc. simpl. by destruct (f c).
Qed.

Lemma rejects_malformed f running bound v :
  parse running = Ok v →
  PyStr.truthy (PyStr.before_first PyStr.dash bound) = true →
  (∀ n, parse (PyStr.before_first PyStr.dash bound) ≠ Ok n) →
  rejects f running bound = Ok true.
Proof.
  intros Hv Hne Hbad. unfold rejects, make.
  destruct running as [|x running]; [discriminate |].
  simpl PyStr.truthy. cbv iota. rewrite Hv, Hne. simpl.
  destruct (parse (PyStr.before_first PyStr.dash bound)) as [n|e] eqn:Hp.
  - by destruct (Hbad n).
  - apply parse_raises_ValueError in Hp as ->. reflexivity.
Qed.

(** Apart from bounds that begin with the separator, the check is the
    gate of the specification: it never raises, rejects a version below
    the minimum or above the maximum, rejects on a bound that is not a
    number, and passes otherwise. *)
Lemma rejects_spec f running v bound b :
  parse running = Ok v →
  given bound = Some b →
  PyStr.truthy (PyStr.before_first PyStr.dash b) = true →
  rejects f running b = Ok (spec_rejects f v bound).
Proof.
  intros Hv Hb Hhead. unfold spec_rejects. rewrite Hb.
  destruct (parse (PyStr.before_first PyStr.dash b)) as [n|e] eqn:Hn.
  - destruct (rejects_well_formed f running b v n Hv Hn) as (c & Hc & ->).
    by rewrite Hc.
  - apply rejects_malformed with v; [done | done |]. congruence.
Qed.

Lemma gate_characterised running v minimum maximum :
  parse (PyStr.before_first PyStr.dash running) = Ok v →
  head_present minimum → head_present maximum →
  _check_signature_version running minimum maximum
  = Ok (spec_gate v minimum maximum).
Proof.
  intros Hv Hmin Hmax. unfold _check_signature_version, spec_gate.
  unfold head_present in *.
  assert (Hone : ∀ f bound,
            match given bound with
            | Some b => PyStr.truthy (PyStr.before_first PyStr.dash b) = true
            | None => True
            end →
            match given bound with
            | Some m => rejects f (PyStr.before_first PyStr.dash running) m
            | None => Ok false
            end = Ok (spec_rejects f v bound)).
  { intros f bound H. destruct (given bound) as [b|] eqn:Hb.
    - by apply rejects_spec.
    - unfold spec_rejects. by rewrite Hb. }
  rewrite (Hone is_lt minimum Hmin). cbn [mbind result_bind].
  destruct (spec_rejects is_lt v minimum); [done |].
  rewrite (Hone is_gt maximum Hmax). cbn [mbind result_bind].
  by destruct (spec_rejects is_gt v maximum).
Qed.

(** No bound given: the check passes. *)
Lemma no_bounds_pass running minimum maximum :
  given minimum = None → given maximum = None →
  _check_signature_version running minimum maximum = Ok true.
Proof. unfold _check_signature_version. by intros -> ->. Qed.

(** The three gates of the specification's examples. *)
Example minimum_above_running :
  _check_signature_version "1.5" (Some "2.0") None = Ok false.
Proof. reflexivity. Qed.

Example maximum_below_running :
  _check_signature_version "1.5" None (Some "1.0") = Ok false.
Proof. reflexivity. Qed.

Example unparsable_bound :
  _check_signature_version "1.5" (Some "x.y") None = Ok false
  ∧ _check_signature_version "1.5" None (Some "x.y") = Ok false.
Proof. split; reflexivity. Qed.

Example bounds_satisfied :
  _check_signature_version "1.5-dev" (Some "1.0") (Some "2.0") = Ok true.
Proof. reflexivity. Qed.

(** Whatever the running version, once it is a number: a bound with
    nothing before its separator makes the guarded comparison raise. *)
Lemma empty_head_raises f running v rest :
  parse running = Ok v →
  rejects f running (String PyStr.dash rest) = Raise AttributeError.
Proof.
  intros Hv. unfold rejects, make.
  destruct running as [|x running]; [discriminate |].
  simpl PyStr.truthy. cbv iota. by rewrite Hv.
Qed.

(** C7 (fails on the code): a malformed bound that begins with the
    separator, such as ["-dev"].  The text before the separator is
    empty, [StrictVersion("")] parses nothing, and the comparison raises
    [AttributeError], which [except ValueError] does not catch: the
    error leaves the check, for a minimum and for a maximum alike. *)
Theorem separator_first_bound_raises rest other :
  let bound := Some (String PyStr.dash rest) in
  _check_signature_version "1.5" bound other = Raise AttributeError
  ∧ _check_signature_version "1.5" None bound = Raise AttributeError.
Proof. split; reflexivity. Qed.

End VersionFacts.

(** ** Aggregation *)

Module AggregateFacts.
Import Aggregate.

(** *** The ordering of the match list *)

Lemma sort_by_severity_perm l : sort_by_severity l ≡ₚ l.
Proof. apply PyListFacts.sort_by_perm. Qed.

Lemma sort_by_severity_sorted l :
  StronglySorted (PyList.key_le severity) (sort_by_severity l).
Proof. apply PyListFacts.sort_by_sorted. Qed.

Lemma sort_by_severity_stable (k : Z) l :
  PyList.with_key severity k (sort_by_severity l)
  = PyList.with_key severity k l.
Proof. apply PyListFacts.sort_by_stable. Qed.

(** *** Family *)

Lemma truthy_empty s : PyStr.truthy s = false → s = "".
Proof. by destruct s. Qed.

Lemma startswith_truthy p c :
  PyStr.truthy p = true → PyStr.startswith p c = true → PyStr.truthy c = true.
Proof. destruct p, c; simpl; auto; discriminate. Qed.

(** A trojan alert with fewer than three word-like fragments makes the
    heuristic raise. *)
Lemma alert_needs_three_words s :
  (length (PyStr.findall_words s) < 3)%nat →
  alert_family s = Raise IndexError.
Proof.
  intros H. unfold alert_family, index.
  by rewrite (lookup_ge_None_2 (PyStr.findall_words s) 2) by lia.
Qed.

(** **** Rule 1: the order of severity *)

Lemma find_declared_insert a l :
  StronglySorted (PyList.key_le severity) l →
  List.find has_families (PyList.insert_by severity a l)
  = match FamilySpec.declared a, List.find has_families l with
    | None, later => later
    | Some _, None => Some a
    | Some _, Some m' =>
        if (severity m' <? severity a)%Z then Some m' else Some a
    end.
Proof.
  assert (Hdec : ∀ m, has_families m
                      = bool_decide (is_Some (FamilySpec.declared m))).
  { intros m. unfold has_families, FamilySpec.declared.
    destruct (families m) as [[|f fs]|]; try done.
    all: symmetry; apply bool_decide_eq_false; by intros [? ?]. }
  induction 1 as [|x l Hs IH Hx]; simpl.
  { rewrite Hdec. destruct (FamilySpec.declared a); done. }
  destruct (Z.leb_spec (severity a) (severity x)) as [Hle|Hgt]; simpl.
  - rewrite (Hdec a). destruct (FamilySpec.declared a) as [f|] eqn:Ha;
      simpl; [| done].
    destruct (has_families x) eqn:Hfx.
    + by rewrite (proj2 (Z.ltb_ge _ _) Hle).
    + destruct (List.find has_families l) as [m'|] eqn:Hfind; [| done].
      apply find_some in Hfind as [Hin _].
      rewrite Forall_forall in Hx.
      apply list_elem_of_In, Hx in Hin. unfold PyList.key_le in Hin.
      by rewrite (proj2 (Z.ltb_ge (severity m') (severity a))) by lia.
  - destruct (has_families x) eqn:Hfx.
    + rewrite (proj2 (Z.ltb_lt _ _) Hgt).
      by destruct (FamilySpec.declared a).
    + exact IH.
Qed.

Lemma find_declared_sorted ms :
  List.find has_families (sort_by_severity ms)
  = FamilySpec.first_by_severity ms.
Proof.
  induction ms as [|m ms IH]; [done |].
  unfold sort_by_severity, PyList.sort_by in *. cbn [foldr].
  rewrite find_declared_insert by apply PyListFacts.sort_by_sorted.
  fold (PyList.sort_by severity ms). unfold PyList.sort_by. by rewrite IH.
Qed.

Lemma family_of_matches_find matched :
  family_of_matches matched
  = match List.find has_families matched ≫= FamilySpec.declared with
    | Some f => PyStr.title f
    | None => ""
    end.
Proof.
  induction matched as [|m rest IH]; simpl; [done |].
  unfold has_families at 1.
  destruct (families m) as [[|f fs]|] eqn:Hf; simpl; auto.
  unfold FamilySpec.declared. by rewrite Hf.
Qed.

Lemma by_match_agrees ms :
  family_of_matches (sort_by_severity ms) = FamilySpec.by_match ms.
Proof.
  rewrite family_of_matches_find, find_declared_sorted. done.
Qed.

(** **** Rule 2: the name list *)

Lemma detectnames_agrees rs : detectnames rs = FamilySpec.name_list rs.
Proof.
  unfold FamilySpec.name_list.
  induction rs as [|res rs IH]; simpl; [done |].
  unfold FamilySpec.names_of at 1.
  destruct (sig res) as [n|]; [| exact IH].
  destruct (PyStr.truthy n); [| exact IH].
  unfold FamilySpec.trusted_vendor.
  destruct (String.eqb (vendor res) "Microsoft"); simpl; by rewrite IH.
Qed.

Lemma by_reputation_agrees g r :
  (if String.eqb (info_category r) "file"
   then match vt_results_present r with
        | Some rs => g (detectnames rs)
        | None => ""
        end
   else "")
  = FamilySpec.by_reputation g (info_category r) (virustotal r).
Proof.
  unfold FamilySpec.by_reputation, vt_results_present.
  destruct (String.eqb _ _); [| done].
  destruct (virustotal r) as [vt|]; [| done].
  destruct (vt_results vt) as [[|res rs]|]; try done.
  by rewrite detectnames_agrees.
Qed.

(** **** Rule 3: the alerts *)

Lemma trojan_alert_prefixed s :
  PyStr.truthy s && is_trojan_alert s
  = existsb (λ p, PyStr.startswith p s) FamilySpec.trojan_prefixes.
Proof.
  unfold is_trojan_alert. simpl. rewrite orb_false_r.
  destruct (PyStr.startswith "ET TROJAN" s) eqn:H1.
  { by rewrite (startswith_truthy "ET TROJAN" s eq_refl H1). }
  destruct (PyStr.startswith "ETPRO TROJAN" s) eqn:H2.
  { rewrite (startswith_truthy "ETPRO TROJAN" s eq_refl H2).
    by rewrite orb_true_r. }
  by rewrite andb_false_r.
Qed.

Lemma alert_family_candidate s c :
  alert_family s = Ok c → FamilySpec.candidate s = c.
Proof.
  unfold alert_family, FamilySpec.candidate, index,
    FamilySpec.platform_tag.
  destruct (PyStr.findall_words s !! 2%nat) as [third|];
    cbn [mbind result_bind option_bind]; [| done].
  destruct (String.eqb (PyStr.lower third) "win32").
  - destruct (PyStr.findall_words s !! 3%nat) as [fourth|];
      cbn [mbind result_bind option_bind]; [| done].
    destruct (PyStr.mem _ _); by intros [= <-].
  - cbn [mbind result_bind option_bind].
    destruct (PyStr.mem _ _); by intros [= <-].
Qed.

Lemma alert_family_returns s :
  FamilySpec.has_token {| signature := Some s |} = true →
  PyStr.truthy s && is_trojan_alert s = true →
  ∃ c, alert_family s = Ok c.
Proof.
  unfold FamilySpec.has_token. cbn [signature].
  intros Htok Htro. rewrite trojan_alert_prefixed in Htro.
  rewrite Htro in Htok.
  unfold alert_family, index. cbv zeta in Htok.
  destruct (PyStr.findall_words s !! 2%nat) as [third|]; [| done].
  cbn [mbind result_bind]. unfold FamilySpec.platform_tag in Htok.
  destruct (String.eqb (PyStr.lower third) "win32").
  - apply bool_decide_eq_true in Htok as [fourth ->].
    cbn [mbind result_bind]. destruct (PyStr.mem _ _); eauto.
  - cbn [mbind result_bind]. destruct (PyStr.mem _ _); eauto.
Qed.

Lemma suricata_loop_last al : ∀ family f,
  suricata_loop al family = Ok f →
  f = default family (last (omap FamilySpec.proposal al)).
Proof.
  induction al as [|a al IH]; intros family f; simpl.
  { by intros [= <-]. }
  unfold FamilySpec.proposal at 1.
  destruct (signature a) as [s|]; cbn [mbind option_bind]; [| apply IH].
  rewrite trojan_alert_prefixed.
  destruct (existsb _ FamilySpec.trojan_prefixes); [| apply IH].
  destruct (alert_family s) as [c|e] eqn:Hc; cbn [mbind result_bind];
    [| done].
  apply alert_family_candidate in Hc as ->.
  destruct c as [x|]; [| apply IH].
  intros H. apply IH in H as ->. rewrite last_cons.
  by destruct (last _).
Qed.

Lemma suricata_loop_has_token al : ∀ family,
  Forall (λ a, FamilySpec.has_token a = true) al →
  ∃ f, suricata_loop al family = Ok f.
Proof.
  induction al as [|a al IH]; intros family Hall; simpl; [eauto |].
  apply Forall_cons in Hall as [Ha Hall].
  destruct a as [[s|]]; cbn [signature] in *; [| by apply IH].
  destruct (PyStr.truthy s && is_trojan_alert s) eqn:Htro; [| by apply IH].
  destruct (alert_family_returns s Ha Htro) as [c ->].
  cbn [mbind result_bind]. destruct c; by apply IH.
Qed.

Lemma by_alerts_agrees r f :
  match suricata_alerts_present r with
  | Some al => suricata_loop al ""
  | None => Ok ""
  end = Ok f →
  f = FamilySpec.by_alerts (suricata r).
Proof.
  unfold suricata_alerts_present, FamilySpec.by_alerts.
  destruct (suricata r) as [found|]; [| by intros [= <-]].
  destruct (alerts found) as [[|a al]|]; try by intros [= <-].
  apply suricata_loop_last.
Qed.

(** **** Rule 4 and the waterfall *)

Lemma first_non_empty_last a :
  FamilySpec.first_non_empty [""; ""; ""; a] = a.
Proof. by destruct a. Qed.

(** Whenever the family computation of the code returns, on the
    severity-sorted matches, it returns the family of the waterfall. *)
Lemma compute_malfamily_spec g ms r family :
  compute_malfamily g (sort_by_severity ms) r = Ok family →
  family = FamilySpec.malfamily g (info_category r) ms (virustotal r)
             (suricata r) (target_file r).
Proof.
  unfold compute_malfamily, FamilySpec.malfamily. cbv zeta.
  rewrite by_match_agrees.
  destruct (PyStr.truthy (FamilySpec.by_match ms)) eqn:H1; cbn [negb andb].
  { rewrite H1. cbn [negb andb mbind result_bind]. rewrite H1.
    cbn [negb andb]. intros [= <-].
    unfold FamilySpec.first_non_empty. simpl. by rewrite H1. }
  apply truthy_empty in H1 as H1'. rewrite H1', by_reputation_agrees.
  destruct (PyStr.truthy (FamilySpec.by_reputation g (info_category r)
                            (virustotal r))) eqn:H2; cbn [negb].
  { cbn [mbind result_bind]. rewrite H2. cbn [negb andb].
    intros [= <-]. unfold FamilySpec.first_non_empty. simpl.
    by rewrite H2. }
  apply truthy_empty in H2 as H2'. rewrite H2'.
  destruct (match suricata_alerts_present r with
            | Some al => suricata_loop al ""
            | None => Ok ""
            end) as [f|e] eqn:Hal; cbn [mbind result_bind]; [| done].
  apply by_alerts_agrees in Hal as <-.
  destruct (PyStr.truthy f) eqn:H3; cbn [negb andb].
  { intros [= <-]. unfold FamilySpec.first_non_empty. simpl.
    by rewrite H3. }
  apply truthy_empty in H3 as ->. rewrite first_non_empty_last.
  unfold FamilySpec.by_antivirus, FamilySpec.convention_prefix.
  destruct (String.eqb (info_category r) "file"); [| by intros [= <-]].
  destruct (target_file r) as [file|]; [| done].
  destruct (clamav file) as [c|]; [| by intros [= <-]].
  destruct (PyStr.startswith "Win.Trojan." c) eqn:Hp.
  - rewrite (startswith_truthy "Win.Trojan." c eq_refl Hp).
    by intros [= <-].
  - rewrite andb_false_r. by intros [= <-].
Qed.

(** The family computation returns when every trojan alert has the
    token the heuristic takes and the target has a file section. *)
Lemma compute_malfamily_returns g matched r :
  (∀ found al, suricata r = Some found → alerts found = Some al →
               Forall (λ a, FamilySpec.has_token a = true) al) →
  target_file r ≠ None →
  ∃ family, compute_malfamily g matched r = Ok family.
Proof.
  intros Halerts Hfile. unfold compute_malfamily. cbv zeta.
  match goal with |- context [mbind _ ?x] =>
    assert (Hloop : ∃ f, x = Ok f)
  end.
  { destruct (negb _); [| eauto].
    unfold suricata_alerts_present.
    destruct (suricata r) as [found|] eqn:Hs; [| eauto].
    destruct (alerts found) as [[|a al]|] eqn:Ha; eauto.
    apply suricata_loop_has_token. by eapply Halerts. }
  destruct Hloop as [f ->]. cbn [mbind result_bind].
  destruct (negb (PyStr.truthy f) && _); [| eauto].
  destruct (target_file r) as [file|]; [| done].
  destruct (clamav file) as [c|]; [| eauto].
  destruct (_ && _); eauto.
Qed.

(** *** Score *)

Open Scope float_scope.

(** **** The code against the formula *)

Lemma float_of_Z_of_int z f :
  float_of_Z z = Ok f ↔ ScoreSpec.within_floats z = true ∧ f = ScoreSpec.of_int z.
Proof.
  unfold float_of_Z, ScoreSpec.within_floats, ScoreSpec.of_int. cbv zeta.
  destruct (is_infinity _); simpl; split.
  - done.
  - by intros [? _].
  - by intros [= <-].
  - by intros [_ ->].
Qed.

Lemma contribution_term m t :
  contribution m = Ok t
  ↔ ScoreSpec.representable m = true ∧ t = ScoreSpec.term m.
Proof.
  unfold contribution, ScoreSpec.representable, ScoreSpec.term.
  destruct (severity m =? 1)%Z.
  - destruct (float_of_Z (weight m)) as [w|e] eqn:Hw.
    + apply float_of_Z_of_int in Hw as [Hw ->]. rewrite Hw.
      destruct (float_of_Z (confidence m)) as [c|e] eqn:Hc.
      * apply float_of_Z_of_int in Hc as [Hc ->]. rewrite Hc.
        cbn [mbind result_bind andb]. split; [by intros [= <-] |].
        by intros [_ ->].
      * cbn [mbind result_bind]. split; [done |]. intros [H _].
        apply andb_true_iff in H as [H _].
        assert (Hok : float_of_Z (confidence m)
                      = Ok (ScoreSpec.of_int (confidence m)))
          by (by apply float_of_Z_of_int).
        congruence.
    + cbn [mbind result_bind]. split; [done |]. intros [H _].
      apply andb_true_iff in H as [_ H].
      assert (Hok : float_of_Z (weight m) = Ok (ScoreSpec.of_int (weight m)))
        by (by apply float_of_Z_of_int).
      congruence.
  - destruct (float_of_Z (weight m * (severity m - 1))) as [w|e] eqn:Hw.
    + apply float_of_Z_of_int in Hw as [Hw ->]. rewrite Hw.
      destruct (float_of_Z (confidence m)) as [c|e] eqn:Hc.
      * apply float_of_Z_of_int in Hc as [Hc ->]. rewrite Hc.
        cbn [mbind result_bind andb]. split; [by intros [= <-] |].
        by intros [_ ->].
      * cbn [mbind result_bind]. split; [done |]. intros [H _].
        apply andb_true_iff in H as [H _].
        assert (Hok : float_of_Z (confidence m)
                      = Ok (ScoreSpec.of_int (confidence m)))
          by (by apply float_of_Z_of_int).
        congruence.
    + cbn [mbind result_bind]. split; [done |]. intros [H _].
      apply andb_true_iff in H as [_ H].
      assert (Hok : float_of_Z (weight m * (severity m - 1))
                    = Ok (ScoreSpec.of_int (weight m * (severity m - 1))))
        by (by apply float_of_Z_of_int).
      congruence.
Qed.

Lemma accumulate_total matched : ∀ acc t,
  accumulate acc matched = Ok t
  ↔ Forall (λ m, ScoreSpec.representable m = true) matched
    ∧ t = foldl (λ sum m, sum + ScoreSpec.term m) acc matched.
Proof.
  induction matched as [|m rest IH]; intros acc t; simpl.
  { split; [by intros [= <-] | by intros [_ ->]]. }
  destruct (contribution m) as [x|e] eqn:Hm; cbn [mbind result_bind].
  - apply contribution_term in Hm as [Hrep ->]. rewrite IH, Forall_cons.
    tauto.
  - split; [done |]. intros [[Hrep _]%Forall_cons _].
    assert (Hok : contribution m = Ok (ScoreSpec.term m))
      by (by apply contribution_term).
    congruence.
Qed.

Lemma above_ten_not_negative x : (10.0 <? x) = true → (x <? 0.0) = false.
Proof.
  rewrite !ltb_spec.
  let ten := eval vm_compute in (Prim2SF 10.0) in
  change (Prim2SF 10.0) with ten.
  let zero := eval vm_compute in (Prim2SF 0.0) in
  change (Prim2SF 0.0) with zero.
  destruct (Prim2SF x) as [s|s| |s m e]; unfold SFltb; simpl;
    try congruence; destruct s; congruence.
Qed.

(** The two tests of the code, the upper bound first, are the clamp. *)
Lemma clamp_agrees x :
  (let y := if 10.0 <? x then 10.0 else x in if y <? 0.0 then 0.0 else y)
  = ScoreSpec.clamp 0 10 x.
Proof.
  unfold ScoreSpec.clamp. cbv zeta. destruct (10.0 <? x) eqn:Hhi.
  - rewrite (above_ten_not_negative x Hhi). reflexivity.
  - reflexivity.
Qed.

(** The score of the code, when there is one, is the score of the
    formula; and there is one exactly when the integers of the matches
    are within the range of the floats. *)
Lemma compute_malscore_spec matched score :
  compute_malscore matched = Ok score
  ↔ Forall (λ m, ScoreSpec.representable m = true) matched
    ∧ score = ScoreSpec.malscore matched.
Proof.
  unfold compute_malscore, ScoreSpec.malscore, ScoreSpec.total.
  destruct (accumulate 0.0 matched) as [t|e] eqn:Hacc;
    cbn [mbind result_bind].
  - apply accumulate_total in Hacc as [Hall ->]. rewrite clamp_agrees.
    split; [by intros [= <-] | by intros [_ ->]].
  - split; [done |]. intros [Hall _].
    assert (Hok : accumulate 0.0 matched
                  = Ok (foldl (λ sum m, sum + ScoreSpec.term m) 0 matched))
      by (by apply accumulate_total).
    congruence.
Qed.

(** **** The bounds *)

Lemma clamp_bounds x :
  (10 <? ScoreSpec.clamp 0 10 x) = false
  ∧ (ScoreSpec.clamp 0 10 x <? 0) = false.
Proof.
  unfold ScoreSpec.clamp. destruct (x <? 0) eqn:Hlo; [by split |].
  destruct (10 <? x) eqn:Hhi; by split.
Qed.

(** Rounding a mantissa that is not negative gives a number. *)
Lemma shr_1_nonneg mrs : (0 ≤ shr_m mrs)%Z → (0 ≤ shr_m (shr_1 mrs))%Z.
Proof.
  destruct mrs as [m r s]. simpl.
  destruct m as [|[p|p|]|p]; simpl; lia.
Qed.

Lemma iter_shr_1_nonneg p : ∀ mrs,
  (0 ≤ shr_m mrs)%Z → (0 ≤ shr_m (SpecFloat.iter_pos shr_1 p mrs))%Z.
Proof.
  induction p as [p IH|p IH|]; intros mrs H; simpl.
  - apply IH, IH. by apply shr_1_nonneg.
  - by apply IH, IH.
  - by apply shr_1_nonneg.
Qed.

Lemma shr_fexp_nonneg m e l :
  (0 ≤ m)%Z → (0 ≤ shr_m (shr_fexp prec emax m e l).1)%Z.
Proof.
  intros H. unfold shr_fexp, shr.
  assert (H0 : (0 ≤ shr_m (shr_record_of_loc m l))%Z).
  { destruct l as [|[]]; exact H. }
  destruct (_ - e)%Z; simpl; auto. by apply iter_shr_1_nonneg.
Qed.

Lemma round_nearest_even_nonneg m l :
  (0 ≤ m)%Z → (0 ≤ round_nearest_even m l)%Z.
Proof.
  intros H. destruct l as [|[]]; simpl; try lia. destruct (Z.even m); lia.
Qed.

Lemma binary_round_aux_number sx m e l :
  (0 ≤ m)%Z → binary_round_aux prec emax sx m e l ≠ S754_nan.
Proof.
  intros H. unfold binary_round_aux.
  pose proof (shr_fexp_nonneg m e l H) as H1.
  destruct (shr_fexp prec emax m e l) as [mrs' e'].
  pose proof (shr_fexp_nonneg
                (round_nearest_even (shr_m mrs') (loc_of_shr_record mrs'))
                e' loc_Exact (round_nearest_even_nonneg _ _ H1)) as H2.
  destruct (shr_fexp prec emax _ e' loc_Exact) as [mrs'' e''].
  simpl in H2. destruct (shr_m mrs''); try discriminate; [| lia].
  destruct (_ <=? _)%Z; discriminate.
Qed.

Lemma binary_normalize_number m e sz :
  binary_normalize prec emax m e sz ≠ S754_nan.
Proof.
  unfold binary_normalize, binary_round.
  destruct m; [discriminate | |];
    destruct (shl_align _ _ _) as [mz ez]; apply binary_round_aux_number; lia.
Qed.

(** A sum is not a number only when a term is none, or when the terms
    are infinities of opposite signs. *)
Lemma add_finite_number x y :
  Prim2SF x ≠ S754_nan → ScoreSpec.finite y = true →
  Prim2SF (x + y) ≠ S754_nan.
Proof.
  unfold ScoreSpec.finite. rewrite add_spec. unfold SF64add.
  destruct (Prim2SF x) as [sx|sx| |sx mx ex],
           (Prim2SF y) as [sy|sy| |sy my ey]; simpl; try done.
  - by destruct sx, sy.
  - intros _ _. apply binary_normalize_number.
Qed.

Lemma total_number matched : ∀ acc,
  Prim2SF acc ≠ S754_nan →
  Forall (λ m, ScoreSpec.finite (ScoreSpec.term m) = true) matched →
  Prim2SF (foldl (λ sum m, sum + ScoreSpec.term m) acc matched) ≠ S754_nan.
Proof.
  induction matched as [|m rest IH]; intros acc Hacc Hall; [done |].
  apply Forall_cons in Hall as [Hm Hall]. simpl.
  apply IH; [| done]. by apply add_finite_number.
Qed.

(** The clamp of a number is within the bounds. *)
Lemma clamp_in_range x :
  Prim2SF x ≠ S754_nan → ScoreSpec.in_range (ScoreSpec.clamp 0 10 x) = true.
Proof.
  intros Hx. unfold ScoreSpec.clamp.
  destruct (x <? 0) eqn:Hlo; [by vm_compute |].
  destruct (10 <? x) eqn:Hhi; [by vm_compute |].
  unfold ScoreSpec.in_range. revert Hlo Hhi.
  rewrite !ltb_spec, !leb_spec.
  let ten := eval vm_compute in (Prim2SF 10) in
  change (Prim2SF 10) with ten.
  let zero := eval vm_compute in (Prim2SF 0) in
  change (Prim2SF 0) with zero.
  destruct (Prim2SF x) as [s|s| |s m e]; unfold SFltb, SFleb, SFcompare;
    try done.
  - by destruct s.
  - destruct s; [done |]. intros _.
    pose proof (Pos.compare_cont_antisym m 5629499534213120 Eq) as Hanti.
    cbn [CompOpp] in Hanti. rewrite <- Hanti.
    rewrite (Z.compare_antisym e).
    destruct (e ?= _)%Z eqn:He; cbn [CompOpp andb]; try done.
    by destruct (Pos.compare_cont Eq m _).
Qed.

(** C6: whenever the code gives a score, it is the clamp to [0, 10] of
    the sum, over the matches, of [weight * 0.5 * (confidence / 100)]
    for severity 1 and of [weight * (severity - 1) * (confidence / 100)]
    otherwise, and it gives one exactly when the integers of the matches
    are within the range of the floats; the two one-match examples give
    exactly 1.0 and 2.0; six matches of the second kind give exactly
    10.0; no score exceeds 10.0 or lies below 0.0; and a score to which
    no match adds an infinite amount lies within [0, 10]. *)
Theorem malscore_is_clamped_sum :
  (∀ matched score,
     compute_malscore matched = Ok score
     ↔ Forall (λ m, ScoreSpec.representable m = true) matched
       ∧ score = ScoreSpec.malscore matched)
  ∧ compute_malscore [Samples.low] = Ok 1.0
  ∧ compute_malscore [Samples.mid] = Ok 2.0
  ∧ compute_malscore (replicate 6 Samples.mid) = Ok 10.0
  ∧ (∀ matched score,
       compute_malscore matched = Ok score →
       (10.0 <? score) = false ∧ (score <? 0.0) = false)
  ∧ (∀ matched score,
       compute_malscore matched = Ok score →
       Forall (λ m, ScoreSpec.finite (ScoreSpec.term m) = true) matched →
       ScoreSpec.in_range score = true).
Proof.
  split; [exact compute_malscore_spec |].
  split; [vm_compute; reflexivity |].
  split; [vm_compute; reflexivity |].
  split; [vm_compute; reflexivity |].
  split.
  - intros matched score [_ ->]%compute_malscore_spec. apply clamp_bounds.
  - intros matched score [_ ->]%compute_malscore_spec Hfin.
    apply clamp_in_range. by apply total_number.
Qed.

Lemma malscore_is_clamped_sum_witness :
  (compute_malscore [Samples.mid; Samples.low; Samples.mid] = Ok 5.0
   ↔ Forall (λ m, ScoreSpec.representable m = true)
       [Samples.mid; Samples.low; Samples.mid]
     ∧ 5.0 = ScoreSpec.malscore [Samples.mid; Samples.low; Samples.mid])
  ∧ ScoreSpec.in_range 5.0 = true.
Proof.
  pose proof malscore_is_clamped_sum as (Hspec & _ & _ & _ & _ & Hrange).
  split; [apply Hspec |].
  apply (Hrange [Samples.mid; Samples.low; Samples.mid]).
  - vm_compute. reflexivity.
  - repeat constructor.
Defined.

(** Outside the declared range of the confidence the sum need not be a
    number: two matches of confidence 1000 whose weights are the
    largest float and its opposite add plus and minus infinity, and the
    score, being no number, passes both tests of the clamp. *)
Example score_of_opposite_infinities :
  let huge (w : Z) :=
    {| m_name := "huge"; severity := 2; confidence := 1000; weight := w;
       families := None |} in
  let w := (2 ^ 1023)%Z in
  ∃ score, compute_malscore [huge w; huge (- w)%Z] = Ok score
           ∧ Prim2SF score = S754_nan
           ∧ ScoreSpec.in_range score = false.
Proof. eexists. split; [vm_compute; reflexivity |]. by vm_compute. Qed.

Close Scope float_scope.

End AggregateFacts.

(** ** Signature engine *)

Module EngineFacts.
Import Engine.

Section WithState.
Context {St : Type}.
Implicit Types (s : state St) (sig : SigInst St) (c : SigClass St).

(** *** List surgery *)

(** An instance is never found among the classes: the membership test
    that guards [complete_list.remove(sig)] is always false. *)
Lemma instance_not_among_classes sig (classes : list (SigClass St)) :
  py_in AClass (AnInstance sig) classes = false.
Proof. unfold py_in. by induction classes. Qed.

Lemma record_match_keeps_candidates sig s s' :
  record_match sig s = Ok s' → complete_list s' = complete_list s.
Proof.
  unfold record_match. destruct (as_result (icls sig) (ist sig)) as [m|e];
    cbn [mbind result_bind]; [| done].
  cbn [complete_list set_matched].
  rewrite instance_not_among_classes. by intros [= <-].
Qed.

Lemma py_remove_length {A} (inj : A → pyobj St) x (l l' : list A) :
  py_remove inj x l = Ok l' → length l = S (length l').
Proof.
  revert l'. induction l as [|y l IH]; intros l'; simpl; [done |].
  destruct (py_eq (inj y) x); [by intros [= <-] |].
  destruct (py_remove inj x l) as [l''|e]; cbn [mbind result_bind]; [| done].
  intros [= <-]. simpl. by rewrite (IH l'').
Qed.


(** *** The innermost loop *)

(** One body execution leaves the list as long as it was or one
    shorter. *)
Lemma sig_body_length i sig proc pidx cidx call s s' :
  sig_body i sig proc pidx cidx call s = Ok s' →
  length (evented_list s') = length (evented_list s)
  ∨ length (evented_list s) = S (length (evented_list s')).
Proof.
  unfold sig_body. destruct (negb (interested sig proc call)).
  { intros [= <-]. by left. }
  destruct (on_call (icls sig) (ist sig) call proc) as [r st].
  set (sig' := with_state st sig).
  set (s1 := emit _ (set_evented _ s)).
  assert (H1 : length (evented_list s1) = length (evented_list s))
    by (subst s1; simpl; apply length_insert).
  assert (Hrm : ∀ s2, evented_list s2 = evented_list s1 →
            (l ← py_remove AnInstance (AnInstance sig') (evented_list s2);
             Ok (set_evented l s2)) = Ok s' →
            length (evented_list s) = S (length (evented_list s'))).
  { intros s2 H2.
    destruct (py_remove AnInstance (AnInstance sig') (evented_list s2))
      as [l|e] eqn:Hl; cbn [mbind result_bind]; [| done].
    intros [= <-]. apply py_remove_length in Hl. simpl. congruence. }
  assert (Hrec : ∀ s2, record_match sig' s1 = Ok s2 →
            evented_list s2 = evented_list s1).
  { unfold record_match. intros s2.
    destruct (as_result (icls sig') (ist sig')) as [m|e];
      cbn [mbind result_bind]; [| done].
    destruct (py_in _ _ _); [| by intros [= <-]].
    destruct (py_remove _ _ _) as [l|e]; cbn [mbind result_bind]; [| done].
    by intros [= <-]. }
  destruct r as [[| | |b]|e].
  - intros [= <-]. by left.
  - destruct (record_match sig' s1) as [s2|e] eqn:Hr;
      cbn [mbind result_bind]; [| done].
    intros H. right. eapply Hrm; [| exact H]. by apply Hrec.
  - intros H. right. by eapply Hrm.
  - intros H. right. by eapply Hrm.
  - intros H. right. by eapply Hrm.
Qed.

(** The bound [fuel] is immaterial once it covers what is left of the
    list: the loop ends by running off the list, not by running out. *)
Lemma sig_loop_fuel proc pidx cidx call fuel : ∀ fuel' i s,
  (length (evented_list s) - i ≤ fuel)%nat →
  (length (evented_list s) - i ≤ fuel')%nat →
  sig_loop fuel i proc pidx cidx call s
  = sig_loop fuel' i proc pidx cidx call s.
Proof.
  induction fuel as [|fuel IH]; intros fuel' i s Hf Hf'.
  - assert (evented_list s !! i = None) as Hnone
      by (apply lookup_ge_None; lia).
    destruct fuel'; simpl; [done | by rewrite Hnone].
  - destruct fuel' as [|fuel'].
    { assert (evented_list s !! i = None) as Hnone
        by (apply lookup_ge_None; lia).
      simpl. by rewrite Hnone. }
    simpl. destruct (evented_list s !! i) as [sig|] eqn:Hi; [| done].
    destruct (sig_body i sig proc pidx cidx call s) as [s1|e] eqn:Hb;
      cbn [mbind result_bind]; [| done].
    apply sig_body_length in Hb. apply IH; lia.
Qed.

(** How a removal makes the iterator pass over the next signature:
    when the first signature of the list answers anything but [None] or
    [True], the loop goes on at index 1 of the shortened list, that is
    with the signature after the one that followed it. *)
Lemma removal_moves_past_next a b rest proc pidx cidx call s fuel r st :
  evented_list s = a :: b :: rest →
  interested a proc call = true →
  on_call (icls a) (ist a) call proc = (r, st) →
  r ≠ Ok PNone → r ≠ Ok PTrue →
  sig_loop (S fuel) 0 proc pidx cidx call s
  = sig_loop fuel 1 proc pidx cidx call
      (set_evented (b :: rest) (emit (OnCall (serial a) pidx cidx r) s)).
Proof.
  intros Hl Hint Hcall Hnone Htrue. cbn [sig_loop]. rewrite Hl. simpl lookup.
  unfold sig_body. rewrite Hint, Hcall. cbn [negb].
  assert (Hrm : ∀ s1, evented_list s1 = with_state st a :: b :: rest →
            (l ← py_remove AnInstance (AnInstance (with_state st a))
                   (evented_list s1);
             Ok (set_evented l s1)) = Ok (set_evented (b :: rest) s1)).
  { intros s1 ->. simpl. by rewrite Nat.eqb_refl. }
  destruct r as [[| | |t]|e]; try done;
    cbn [mbind result_bind]; (rewrite Hrm; [| by rewrite Hl]);
    reflexivity.
Qed.

(** *** Signatures that do not match leave the batch candidates alone *)








(** *** The batch pass takes up every candidate *)


Lemma process_takes_up CUCKOO_VERSION signature s m s' :
  process CUCKOO_VERSION signature s = Ok (m, s') →
  target_category (results s') = target_category (results s)
  ∧ ∃ more, trace s' = trace s ++ more
            ∧ taken_up CUCKOO_VERSION signature more.
Proof.
  unfold process, taken_up, instantiated, batch_run, loadable.
  destruct (new signature (results s)) as [st|e] eqn:Hnew.
  2:{ intros [= <- <-]. split; [done |]. eexists. split; [done |]. split.
      - eexists. by apply list_elem_of_singleton.
      - intros Hl. destruct (Hl (results s)) as [st Hst]. congruence. }
  destruct (enabled (attrs signature)); cbn [negb].
  2:{ intros [= <- <-]. split; [done |]. eexists. split; [done |]. split.
      - eexists. by apply list_elem_of_singleton.
      - done. }
  destruct (check_version CUCKOO_VERSION (attrs signature)) as [ok|e];
    cbn [mbind result_bind]; [| done].
  destruct ok; cbn [negb].
  2:{ intros [= <- <-]. split; [done |]. eexists. split; [done |]. split.
      - eexists. by apply list_elem_of_singleton.
      - done. }
  destruct (run signature st _) as [[r st'] used].
  set (s1 := emit (Instantiated (cid signature) true) s).
  set (seen := CallLog.observed ∘ CallLog.iter ∘ calls <$> processes s1).
  set (s2 := emit (BatchRun (cid signature) seen r) s1).
  set (s3 := match behavior (results s2) with
             | Some ps => set_processes (consumed used ps) s2
             | None => s2
             end).
  assert (H3 : target_category (results s3) = target_category (results s)
               ∧ trace s3 = trace s ++ [Instantiated (cid signature) true;
                                        BatchRun (cid signature) seen r]).
  { subst s3. destruct (behavior (results s2)); simpl;
      by rewrite <- app_assoc. }
  destruct H3 as [Ht3 Htr3].
  assert (Hgoal : target_category (results s3) = target_category (results s)
            ∧ ∃ more, trace s3 = trace s ++ more
                ∧ (∃ ok, Instantiated (cid signature) ok ∈ more)
                ∧ ((∀ r0, ∃ st0, new signature r0 = Ok st0) → true = true →
                   Ok true = Ok true →
                   ∃ seen0 r0, BatchRun (cid signature) seen0 r0 ∈ more)).
  { split; [done |]. eexists. split; [exact Htr3 |]. split.
    - eexists. apply elem_of_cons. by left.
    - intros _ _ _. exists seen, r. apply elem_of_cons. right.
      by apply list_elem_of_singleton. }
  destruct r as [data|e]; [| by intros [= <- <-]].
  destruct (truth data); [| by intros [= <- <-]].
  destruct (as_result signature st'); by intros [= <- <-].
Qed.




(** *** The passes and the call logs *)








(** After the reset that follows a batch signature every log stands at
    its first call again. *)
Lemma reset_cursors_restores s :
  Forall (λ p, CallLog.observed (calls p) = CallLog.entries (calls p))
         (processes (reset_cursors s)).
Proof.
  unfold reset_cursors, processes.
  destruct (behavior (results s)) as [ps|] eqn:Hb; simpl; [| by rewrite Hb].
  apply Forall_fmap, Forall_true. done.
Qed.


(** C5: the family the aggregation step writes is that of the
    waterfall, the first of four rules to give a non-empty name: (1) of
    the matches that declare a non-empty family list the first in
    ascending severity (the earliest found among equally severe ones),
    its first entry title-cased; (2) for category "file" (read from
    [results["info"]["category"]]) with reputation results, the
    consensus of the detection names, those of the trusted vendor
    listed twice; (3) the name the alert heuristic takes from the
    intrusion alerts; (4) for category "file", the antivirus name
    without its "Win.Trojan." prefix; and the empty string when no rule
    gives a name.  The step writes a family when the integers of the
    matches are within the range of the floats, every trojan alert has
    the token the heuristic takes and the target has a file section. *)
Theorem malfamily_is_waterfall g s :
  let r := results s in
  let family :=
    FamilySpec.malfamily g (info_category r) (matched s) (virustotal r)
      (suricata r) (target_file r) in
  (∀ s', aggregate g s = Ok s' → malfamily (results s') = Some family)
  ∧ (Forall (λ m, ScoreSpec.representable m = true) (matched s) →
     (∀ found al, suricata r = Some found → alerts found = Some al →
                  Forall (λ a, FamilySpec.has_token a = true) al) →
     target_file r ≠ None →
     ∃ s', aggregate g s = Ok s').
Proof.
  intros r family. unfold aggregate. cbv zeta. split.
  - intros s'.
    destruct (Aggregate.compute_malscore _) as [score|e];
      cbn [mbind result_bind]; [| done].
    destruct (Aggregate.compute_malfamily _ _ _) as [f|e] eqn:Hf;
      cbn [mbind result_bind]; [| done].
    apply AggregateFacts.compute_malfamily_spec in Hf.
    intros [= <-]. simpl. by rewrite Hf.
  - intros Hrep Halerts Hfile.
    assert (Hscore : Aggregate.compute_malscore
                       (Aggregate.sort_by_severity (matched s))
                     = Ok (ScoreSpec.malscore
                             (Aggregate.sort_by_severity (matched s)))).
    { apply AggregateFacts.compute_malscore_spec. split; [| done].
      by rewrite AggregateFacts.sort_by_severity_perm. }
    rewrite Hscore. cbn [mbind result_bind].
    match goal with |- context [Aggregate.compute_malfamily g ?l ?r0] =>
      destruct (AggregateFacts.compute_malfamily_returns g l r0)
        as [f ->]; [exact Halerts | exact Hfile |]
    end.
    cbn [mbind result_bind]. eauto.
Qed.

End WithState.

Import Samples.


Lemma malfamily_is_waterfall_witness :
  let s : state unit :=
    {| evented_list := []; complete_list := [];
       matched := [zeus_match; mid; ramnit_match];
       results := crafted true true true; trace := [] |} in
  ∃ s', aggregate most_common s = Ok s'
        ∧ malfamily (results s') = Some "Ramnit".
Proof.
  intros s.
  destruct (malfamily_is_waterfall most_common s) as [Hfamily Hreturns].
  destruct Hreturns as [s' Hs'].
  - repeat constructor.
  - intros found al [= <-] [= <-]. repeat constructor.
  - done.
  - exists s'. split; [exact Hs' |]. by rewrite (Hfamily s' Hs').
Defined.

(** The order of severity decides among the matches, not the order in
    which they were found; and the names of the trusted vendor are
    listed twice: of two engines that disagree the trusted one
    prevails, which it would not if each name counted once. *)
Example severity_and_vendor_decide :
  let family ms r :=
    s ← aggregate (St := unit) most_common
          {| evented_list := []; complete_list := []; matched := ms;
             results := r; trace := [] |};
    Ok (malfamily (results s)) in
  family [zeus_match; ramnit_match] two_opinions = Ok (Some "Ramnit")
  ∧ family [ramnit_match; zeus_match] two_opinions = Ok (Some "Ramnit")
  ∧ family [zeus_match; low] two_opinions = Ok (Some "Zeus")
  ∧ family [mid; low] two_opinions = Ok (Some "Ramnit")
  ∧ most_common ["Agent"; "Ramnit"] = "Agent".
Proof. vm_compute. repeat split. Qed.

(** The precedence on aggregates crafted to satisfy the rules. *)
Example family_precedence :
  let family m v a c :=
    s ← aggregate first_name (crafted_state m v a c);
    Ok (malfamily (results s)) in
  family true true true true = Ok (Some "Zeus")
  ∧ family false true true true = Ok (Some "Ramnit")
  ∧ family false false true true = Ok (Some "Dridex")
  ∧ family false false false true = Ok (Some "Agent-42")
  ∧ family false false false false = Ok (Some "").
Proof. vm_compute. repeat split. Qed.


(** C3 (fails on the code): two evented signatures without filters and
    one call.  The first answers not-matched and is removed from the
    list while the list is being iterated; the iterator's index then
    points past the second signature, which is still active (it goes on
    to receive its completion hook) but is never shown the call. *)
Theorem removal_skips_next_signature :
  ∃ s, run_on [quitter; watcher] one_call = Ok s
       ∧ trace s = [ Instantiated 0 true; Instantiated 1 true;
                     OnCall 0 0 0 (Ok PFalse);
                     OnComplete 1 (Ok PTrue);
                     Instantiated 0 true;
                     BatchRun 0 [[create_file]] (Raise NotImplementedError);
                     CursorsReset;
                     Instantiated 1 true;
                     BatchRun 1 [[create_file]] (Raise NotImplementedError);
                     CursorsReset ]
       ∧ ¬ called_on 1 0 0 (trace s).
Proof.
  eexists. split; [vm_compute; reflexivity |]. split; [reflexivity |].
  intros [r H]. apply list_elem_of_In in H. simpl in H.
  repeat (destruct H as [H|H]; [discriminate |]). done.
Qed.

(** With the two signatures in the other order nothing is removed before
    the watcher's turn, and both are called. *)
Example no_removal_no_skip :
  ∃ s, run_on [watcher; quitter] one_call = Ok s
       ∧ called_on 0 0 0 (trace s) ∧ called_on 1 0 0 (trace s).
Proof.
  eexists. split; [vm_compute; reflexivity |].
  split; eexists; apply list_elem_of_In; simpl; eauto 6.
Qed.

(** An evented signature and a batch signature, the batch one
    ordered first: the traversal of the evented pass has read the log
    to its end, and the batch signature, whose traversal begins anew,
    is shown both calls. *)
Example first_batch_signature_reads_all :
  ∃ s, run_on [reader; quitter] two_calls = Ok s
       ∧ trace s = [ Instantiated 0 true;
                     OnCall 1 0 0 (Ok PFalse);
                     Instantiated 2 true;
                     BatchRun 2 [[create_file; write_file]] (Ok PTrue);
                     CursorsReset;
                     Instantiated 0 true;
                     BatchRun 0 [[create_file; write_file]]
                       (Raise NotImplementedError);
                     CursorsReset ].
Proof. eexists. split; [vm_compute; reflexivity | reflexivity]. Qed.

(** The second of two batch signatures reads the whole log although
    the first consumed it. *)
Example second_batch_signature_reads_all :
  ∃ s, run_on [reader; reader] two_calls = Ok s
       ∧ trace s = [ Instantiated 2 true;
                     BatchRun 2 [[create_file; write_file]] (Ok PTrue);
                     CursorsReset;
                     Instantiated 2 true;
                     BatchRun 2 [[create_file; write_file]] (Ok PTrue);
                     CursorsReset ].
Proof. eexists. split; [vm_compute; reflexivity | reflexivity]. Qed.

(** C1 (fails on the code): exceptions that leave a stage entry point.
    - an alert ["ET TROJAN"] has two word-like fragments and [words[2]]
      raises [IndexError] out of [RunSignatures.run];
    - a signature class whose constructor raises while the evented list
      is built takes [RunSignatures.run] down with it;
    - an aggregate without ["behavior"] makes [RunReporting.__init__]
      raise [KeyError];
    - with no signature registered at all the bucket is a dict and
      [complete_list + evented_list] raises [TypeError]. *)
Theorem stage_entry_points_raise :
  run_on [reader] short_alert = Raise IndexError
  ∧ run_on [unloadable] one_call = Raise RuntimeError
  ∧ RunReporting_init no_behavior = Raise KeyError
  ∧ RunSignatures_run (St := unit) "1.3-NG" ∅ first_name
      Registry.BDict one_call = Raise TypeError.
Proof. repeat split; vm_compute; reflexivity. Qed.

End EngineFacts.

(** * Further properties of the code *)

(** ** Plugin discovery *)

Module LoaderFacts.
Import Registry Loader.

Implicit Types (m : gmap string (bucket pyclass)) (g : string).

Lemma register_on_list_only g cls m :
  list_only m →
  ∃ l, plugins g m = l
       ∧ register_plugin g cls m = (Ok (), <[g := BList (l ++ [cls])]> m).
Proof.
  intros Hm. unfold plugins. destruct (m !! g) as [[|l]|] eqn:Hg.
  - by destruct (Hm g).
  - exists l. split; [done |]. apply RegistryFacts.register_appends. by left.
  - exists []. split; [done |]. apply RegistryFacts.register_appends. by right.
Qed.

Lemma list_only_insert g (l : list pyclass) m :
  list_only m → list_only (<[g := BList l]> m).
Proof.
  intros Hm g'. destruct (decide (g = g')) as [->|Hne].
  - by rewrite lookup_insert_eq.
  - rewrite lookup_insert_ne by done. apply Hm.
Qed.

Lemma plugins_insert g g' (l : list pyclass) m :
  plugins g' (<[g := BList l]> m) = if decide (g = g') then l else plugins g' m.
Proof.
  unfold plugins. destruct (decide (g = g')) as [->|Hne].
  - by rewrite lookup_insert_eq.
  - by rewrite lookup_insert_ne.
Qed.

(** Loading splits over concatenation of member lists. *)
Lemma load_plugins_app a b m :
  load_plugins (a ++ b) m
  = match load_plugins a m with
    | (Ok _, m1) => load_plugins b m1
    | (Raise e, m1) => (Raise e, m1)
    end.
Proof.
  revert m. induction a as [|[n [cls|]] a IH]; intros m; simpl; [| | auto].
  { by destruct (load_plugins b m) as [[[]|e] m1]. }
  destruct (classify cls) as [group|]; [| auto].
  destruct (register_plugin group cls m) as [[[]|e] m1]; auto.
Qed.

Lemma load_plugins_on_lists members : ∀ m,
  list_only m →
  ∃ m', load_plugins members m = (Ok (), m')
        ∧ list_only m'
        ∧ ∀ g, plugins g m' = plugins g m ++ classified g members.
Proof.
  induction members as [|[n [cls|]] members IH]; intros m Hm; simpl.
  - exists m. split; [done |]. split; [done |]. intros g.
    by rewrite app_nil_r.
  - destruct (classify cls) as [group|] eqn:Hc.
    + destruct (register_on_list_only group cls m Hm) as (l & Hl & ->).
      destruct (IH (<[group := BList (l ++ [cls])]> m)) as (m' & -> & Hm' & Hp).
      { by apply list_only_insert. }
      exists m'. split; [done |]. split; [done |]. intros g.
      rewrite Hp, plugins_insert.
      destruct (decide (group = g)) as [->|Hne].
      * rewrite bool_decide_eq_true_2 by done. subst l.
        by rewrite <- app_assoc.
      * rewrite bool_decide_eq_false_2; [done |]. congruence.
    + destruct (IH m Hm) as (m' & -> & Hm' & Hp).
      exists m'. split; [done |]. split; [done |]. intros g. rewrite Hp.
      by rewrite bool_decide_eq_false_2.
  - apply IH, Hm.
Qed.

(** On a registry that holds no dict, importing a module that can be
    imported returns, keeps the registry free of dicts, and extends
    every group by exactly the classes of the module that belong to it,
    in member order. *)
Theorem import_plugin_extends_groups importable name members m :
  importable !! name = Some (Found members) → list_only m →
  ∃ m', import_plugin importable name m = (None, m')
        ∧ list_only m'
        ∧ ∀ g, plugins g m' = plugins g m ++ classified g members.
Proof.
  intros Hname Hm. unfold import_plugin. rewrite Hname. simpl.
  destruct (load_plugins_on_lists members m Hm) as (m' & -> & Hm' & Hp).
  by exists m'.
Qed.

Lemma import_plugin_extends_groups_witness :
  let members := [("Sniffer", Some {| class_name := "Sniffer";
                                      ancestors := [CAuxiliary];
                                      itself := None |});
                  ("Auxiliary", Some (base CAuxiliary));
                  ("os", None)] in
  let importable : gmap string imported :=
    {[ "modules.auxiliary.sniffer" := Found members ]} in
  ∃ m', import_plugin importable "modules.auxiliary.sniffer" ∅ = (None, m')
        ∧ list_only m'
        ∧ ∀ g, plugins g m' = plugins g ∅ ++ classified g members.
Proof.
  intros members importable.
  apply (import_plugin_extends_groups importable
           "modules.auxiliary.sniffer" members ∅); [reflexivity |].
  intros g. by rewrite lookup_empty.
Defined.

(** A member that is a capability class itself (or
    [LibVirtMachinery]) is registered nowhere. *)
Lemma capability_class_unclassified cls :
  is_capability_class cls → classify cls = None.
Proof.
  intros [c [Ha Hi]]. unfold classify, issubclass, is_not.
  rewrite Ha, Hi. by destruct c.
Qed.

(** A module that holds only capability classes and values that are not
    classes leaves the registry as it is, whatever the registry holds. *)
Theorem capability_classes_never_registered members m :
  Forall (λ mem : member, match mem.2 with
                          | Some cls => is_capability_class cls
                          | None => True
                          end) members →
  load_plugins members m = (Ok (), m).
Proof.
  induction 1 as [|[n [cls|]] members Hx _ IH]; simpl in *; [done | | done].
  by rewrite (capability_class_unclassified cls Hx).
Qed.

Lemma capability_classes_never_registered_witness :
  load_plugins
    [("Auxiliary", Some (base CAuxiliary));
     ("LibVirtMachinery", Some (base CLibVirtMachinery));
     ("Signature", Some (base CSignature)); ("log", None)]
    {[ "auxiliary" := BDict ]}
  = (Ok (), {[ "auxiliary" := BDict ]}).
Proof.
  apply capability_classes_never_registered.
  repeat constructor; simpl; by eexists.
Defined.

(** A group that holds a dict (it was listed before anything was
    registered in it) makes loading fail: a module with a class for that
    group raises [AttributeError]. *)
Theorem load_plugins_into_dict_raises members : ∀ m g cls n,
  m !! g = Some BDict →
  (n, Some cls) ∈ members → classify cls = Some g →
  ∃ m', load_plugins members m = (Raise AttributeError, m')
        ∧ m' !! g = Some BDict.
Proof.
  induction members as [|[n' [cls'|]] members IH]; intros m g cls n Hg Hin Hc.
  - by apply elem_of_nil in Hin.
  - simpl. apply elem_of_cons in Hin as [[= <- <-]|Hin].
    + rewrite Hc. unfold register_plugin, setdefault. rewrite Hg. eauto.
    + destruct (classify cls') as [group|] eqn:Hc'; [| by eapply IH].
      unfold register_plugin, setdefault.
      destruct (m !! group) as [[|l]|] eqn:Hgroup; [eauto | |].
      * eapply IH; [| exact Hin | exact Hc].
        rewrite lookup_insert_ne; [done |]. congruence.
      * eapply IH; [| exact Hin | exact Hc].
        rewrite !lookup_insert_ne; [done | congruence | congruence].
  - simpl. apply elem_of_cons in Hin as [[=]|Hin]. by eapply IH.
Qed.

Lemma load_plugins_into_dict_raises_witness :
  let sig := {| class_name := "Zeus"; ancestors := [CSignature];
                itself := None |} in
  ∃ m', load_plugins [("Zeus", Some sig)] {[ "signatures" := BDict ]}
        = (Raise AttributeError, m')
        ∧ m' !! "signatures" = Some BDict.
Proof.
  intros sig.
  apply (load_plugins_into_dict_raises [("Zeus", Some sig)]
           {[ "signatures" := BDict ]} "signatures" sig "Zeus");
    [reflexivity | by apply list_elem_of_singleton | reflexivity].
Defined.

(** Importing a package whose modules can all be imported is loading
    the members of its modules that are not packages, one module after
    the other. *)
Theorem import_package_is_load importable found : ∀ ms m,
  package_members importable found = Some ms →
  import_package importable found m
  = match load_plugins ms m with
    | (Ok _, m') => (None, m')
    | (Raise e, m') => (Some (Escaped e), m')
    end.
Proof.
  induction found as [|[name ispkg] found IH]; intros ms m; simpl.
  { by intros [= <-]. }
  destruct ispkg; [by apply IH |].
  unfold import_plugin.
  destruct (importable !! name) as [[members| |e]|]; try done.
  destruct (package_members importable found) as [more|] eqn:Hmore; [| done].
  intros [= <-]. simpl. rewrite load_plugins_app.
  destruct (load_plugins members m) as [[[]|e] m1]; [| done].
  by apply IH.
Qed.

Lemma import_package_is_load_witness :
  let sig := {| class_name := "Zeus"; ancestors := [CSignature];
                itself := None |} in
  let importable : gmap string imported :=
    {[ "modules.signatures.zeus" := Found [("Zeus", Some sig)] ]} in
  import_package importable
    [("modules.signatures.network", true); ("modules.signatures.zeus", false)]
    ∅
  = (None, {[ "signatures" := BList [sig] ]}).
Proof.
  intros sig importable.
  rewrite (import_package_is_load importable _ [("Zeus", Some sig)] ∅);
    reflexivity.
Defined.

(** A module whose import fails ends the package import: with
    [CuckooCriticalError] when the import raised [ImportError], with the
    error itself when the module's code raised another one.  The
    plugins of the modules imported before it stay registered, and no
    later module is imported. *)
Theorem import_failure_keeps_earlier importable pre name post ms m :
  list_only m →
  package_members importable pre = Some ms →
  (∀ members, importable !! name ≠ Some (Found members)) →
  ∃ m', import_package importable (pre ++ (name, false) :: post) m
        = (Some (match importable !! name with
                 | Some (Broken e) => Escaped e
                 | _ => CuckooCriticalError name
                 end), m')
        ∧ ∀ g, plugins g m' = plugins g m ++ classified g ms.
Proof.
  revert ms m. induction pre as [|[n ispkg] pre IH]; intros ms m Hm; simpl.
  { intros [= <-] Hn. unfold import_plugin. exists m.
    split; [| intros g; by rewrite app_nil_r].
    destruct (importable !! name) as [[members| |e]|]; try done.
    by destruct (Hn members). }
  destruct ispkg; [by apply IH |].
  unfold import_plugin.
  destruct (importable !! n) as [[members| |e]|]; try done.
  destruct (package_members importable pre) as [more|] eqn:Hmore; [| done].
  intros [= <-] Hn. simpl.
  destruct (load_plugins_on_lists members m Hm) as (m1 & -> & Hm1 & Hp1).
  destruct (IH more m1 Hm1 eq_refl Hn) as (m' & -> & Hp).
  exists m'. split; [done |]. intros g. rewrite Hp, Hp1.
  assert (Hcl : ∀ a b, classified g (a ++ b) = classified g a ++ classified g b).
  { induction a as [|[x [c|]] a IHa]; intros b; simpl; [done | | auto].
    destruct (bool_decide _); simpl; by rewrite IHa. }
  by rewrite Hcl, app_assoc.
Qed.

Lemma import_failure_keeps_earlier_witness :
  let sig := {| class_name := "Zeus"; ancestors := [CSignature];
                itself := None |} in
  let importable : gmap string imported :=
    {[ "modules.signatures.zeus" := Found [("Zeus", Some sig)];
       "modules.signatures.yara" := ImportError;
       "modules.signatures.typo" := Broken RuntimeError ]} in
  (∃ m', import_package importable
           ([("modules.signatures.zeus", false)]
            ++ ("modules.signatures.yara", false)
            :: [("modules.signatures.zeus", false)]) ∅
         = (Some (CuckooCriticalError "modules.signatures.yara"), m')
         ∧ ∀ g, plugins g m' = plugins g ∅ ++ classified g [("Zeus", Some sig)])
  ∧ (∃ m', import_package importable
             ([("modules.signatures.zeus", false)]
              ++ ("modules.signatures.typo", false)
              :: [("modules.signatures.zeus", false)]) ∅
           = (Some (Escaped RuntimeError), m')
           ∧ ∀ g, plugins g m' = plugins g ∅ ++ classified g [("Zeus", Some sig)]).
Proof.
  intros sig importable. split.
  - apply (import_failure_keeps_earlier importable
             [("modules.signatures.zeus", false)]
             "modules.signatures.yara" _ [("Zeus", Some sig)] ∅).
    + intros g. by rewrite lookup_empty.
    + reflexivity.
    + intros members. vm_compute. discriminate.
  - apply (import_failure_keeps_earlier importable
             [("modules.signatures.zeus", false)]
             "modules.signatures.typo" _ [("Zeus", Some sig)] ∅).
    + intros g. by rewrite lookup_empty.
    + reflexivity.
    + intros members. vm_compute. discriminate.
Defined.

End LoaderFacts.

(** ** Registry: registering and listing *)

Module RegistryLaws.
Import Registry Loader.
Section WithDescriptor.
Context {D : Type}.
Implicit Types (m : gmap string (bucket D)) (d : D) (g : string).

(** Registering into a group that holds no dict succeeds; listing the
    group afterwards returns what it held with the new descriptor last,
    and no other group is touched. *)
Theorem register_then_list g d m :
  PyStr.truthy g = true → m !! g ≠ Some BDict →
  ∃ m1, register_plugin g d m = (Ok (), m1)
        ∧ list_plugins (Some g) m1 = (LGroup (BList (plugins g m ++ [d])), m1)
        ∧ ∀ g', g' ≠ g → m1 !! g' = m !! g'.
Proof.
  intros Hg Hm. unfold plugins.
  assert (Hreg : register_plugin g d m
                 = (Ok (), <[g := BList (match m !! g with
                                         | Some b => bucket_items b
                                         | None => []
                                         end ++ [d])]> m)).
  { destruct (m !! g) as [[|l]|] eqn:Hl; [done | |].
    - apply RegistryFacts.register_appends. by left.
    - apply RegistryFacts.register_appends. by right. }
  eexists. split; [exact Hreg |]. split.
  - apply RegistryFacts.list_registered; [done |]. apply lookup_insert_eq.
  - intros g' Hne. by rewrite lookup_insert_ne.
Qed.

(** Listing never changes the plugins any group holds, and what it
    returns for a group are the plugins of that group. *)
Theorem listing_changes_no_plugins group m :
  (∀ g', plugins g' (list_plugins group m).2 = plugins g' m)
  ∧ match (list_plugins group m).1, group with
    | LGroup b, Some g => bucket_items b = plugins g m
    | LAll m', _ => m' = m
    | LGroup _, None => False
    end.
Proof.
  unfold list_plugins, getitem, plugins.
  destruct group as [g|]; [| done].
  destruct (PyStr.truthy g); [| done].
  destruct (m !! g) as [b|] eqn:Hg; simpl; [done |].
  split; [| done]. intros g'.
  destruct (decide (g = g')) as [<-|Hne].
  - by rewrite lookup_insert_eq, Hg.
  - by rewrite lookup_insert_ne.
Qed.

End WithDescriptor.

Lemma register_then_list_witness :
  ∃ m1, register_plugin "feeds" 3 {[ "feeds" := BList [1; 2] ]} = (Ok (), m1)
        ∧ list_plugins (Some "feeds") m1
          = (LGroup (BList (plugins "feeds" {[ "feeds" := BList [1; 2] ]}
                            ++ [3])), m1)
        ∧ ∀ g', g' ≠ "feeds" →
            m1 !! g' = ({[ "feeds" := BList [1; 2] ]} : gmap _ _) !! g'.
Proof.
  apply (register_then_list "feeds" 3 {[ "feeds" := BList [1; 2] ]});
    [reflexivity | discriminate].
Defined.

End RegistryLaws.

(** ** Auxiliary controller: which modules start, and stopping *)

Module AuxiliaryLaws.
Import Auxiliary AuxiliarySpec.

Lemma start_loop_records cfg mods : ∀ pos s,
  Forall (λ m, configured cfg m = true → escapes (aux_start m) = false)
         (reached mods) →
  ∃ s', start_loop cfg pos mods s = (Ok (), s')
        ∧ aux_cls <$> enabled s'
          = (aux_cls <$> enabled s)
            ++ List.filter (λ m, configured cfg m && start_returns m)
                           (reached mods).
Proof.
  induction mods as [|m mods IH]; intros pos s Hall; simpl.
  { eexists. split; [done |]. by rewrite app_nil_r. }
  simpl in Hall. destruct (aux_ctor m) as [[]|e].
  2:{ eexists. split; [done |]. by rewrite app_nil_r. }
  apply Forall_cons in Hall as [Hm Hall].
  unfold configured, cfg_get in *. simpl List.filter.
  destruct (cfg !! short_name (aux_module m)) as [o|]; simpl.
  2:{ exact (IH _ (emit (Constructed pos (Ok ())) s) Hall). }
  destruct (opt_enabled o); simpl.
  2:{ exact (IH _ (emit (Constructed pos (Ok ())) s) Hall). }
  specialize (Hm eq_refl). unfold start_returns, escapes in *.
  destruct (aux_start m) as [[]|e] eqn:Hst.
  - destruct (IH (S pos) (enable {| aux_pos := pos; aux_cls := m |}
                        (emit (StartCalled pos (Ok ()))
                           (emit (Constructed pos (Ok ())) s))) Hall)
      as (s' & -> & Hen).
    eexists. split; [done |]. rewrite Hen. simpl.
    by rewrite fmap_app, <- app_assoc.
  - apply negb_false_iff in Hm.
    destruct (IH (S pos) (emit (StartCalled pos (Raise e))
                            (emit (Constructed pos (Ok ())) s)) Hall)
      as (s' & Hs' & Hen).
    exists s'. split; [| exact Hen].
    destruct e; simpl in Hm; try discriminate; exact Hs'.
Qed.

(** When no start hook that is called raises past [except Exception],
    [start] returns, and the instances it records are those of the
    modules in front of the first constructor failure whose section
    exists and enables them and whose start hook returned, in order. *)
Theorem start_records_the_started cfg bucket s :
  Forall (λ m, configured cfg m = true → escapes (aux_start m) = false)
         (reached (Registry.bucket_items bucket)) →
  ∃ s', start cfg bucket s = (Ok (), s')
        ∧ aux_cls <$> enabled s'
          = (aux_cls <$> enabled s)
            ++ List.filter (λ m, configured cfg m && start_returns m)
                           (reached (Registry.bucket_items bucket)).
Proof.
  intros Hall. unfold start, Registry.bucket_truthy.
  destruct (Registry.bucket_items bucket) as [|m mods] eqn:Hitems.
  - exists s. by rewrite app_nil_r.
  - by apply start_loop_records.
Qed.

Lemma start_records_the_started_witness :
  let failing := {| aux_ctor := Ok (); aux_module := "sniffer";
                    aux_start := Raise CuckooOperationalError;
                    aux_stop := Ok () |} in
  let bucket := Registry.BList [Samples.sniffer; failing; Samples.sniffer;
                                Samples.broken; Samples.sniffer] in
  ∃ s', start Samples.aux_enabled bucket init = (Ok (), s')
        ∧ aux_cls <$> enabled s'
          = (aux_cls <$> enabled init)
            ++ List.filter
                 (λ m, configured Samples.aux_enabled m && start_returns m)
                 (reached (Registry.bucket_items bucket)).
Proof.
  intros failing bucket.
  apply (start_records_the_started Samples.aux_enabled bucket init).
  repeat constructor.
Defined.

Lemma stop_loop_total mods : ∀ lg,
  Forall (λ i, escapes (aux_stop (aux_cls i)) = false) mods →
  ∃ lg', stop_loop mods lg = (Ok (), lg')
         ∧ stop_positions lg' = stop_positions lg ++ (aux_pos <$> mods).
Proof.
  induction mods as [|i l IH]; intros lg Hall; simpl.
  { eexists. split; [done |]. by rewrite app_nil_r. }
  apply Forall_cons in Hall as [Hi Hall].
  assert (Hgo : ∀ r,
            ∃ lg', stop_loop l (lg ++ [StopCalled (aux_pos i) r]) = (Ok (), lg')
                   ∧ stop_positions lg'
                     = stop_positions lg ++ aux_pos i :: (aux_pos <$> l)).
  { intros r. destruct (IH (lg ++ [StopCalled (aux_pos i) r]) Hall)
      as (lg' & Hs' & Hp).
    exists lg'. split; [exact Hs' |]. rewrite Hp.
    rewrite AuxiliaryFacts.stop_positions_app. simpl.
    by rewrite <- app_assoc. }
  unfold escapes in Hi.
  destruct (aux_stop (aux_cls i)) as [[]|e]; [apply Hgo |].
  apply negb_false_iff in Hi. rewrite Hi. apply Hgo.
Qed.

(** A stop hook that raises an [Exception] keeps no other module from
    being stopped: when no stop hook raises past [except Exception],
    [stop] returns and has called the stop hook of every recorded
    instance, in order. *)
Theorem stop_reaches_every_started s :
  Forall (λ i, escapes (aux_stop (aux_cls i)) = false) (enabled s) →
  ∃ s', stop s = (Ok (), s')
        ∧ enabled s' = enabled s
        ∧ stop_positions (log s')
          = stop_positions (log s) ++ (aux_pos <$> enabled s).
Proof.
  intros Hall. unfold stop.
  destruct (stop_loop_total (enabled s) (log s) Hall) as (lg' & -> & Hp).
  eexists. split; [done |]. by split.
Qed.

Lemma stop_reaches_every_started_witness :
  let failing := {| aux_ctor := Ok (); aux_module := "sniffer";
                    aux_start := Ok (); aux_stop := Raise RuntimeError |} in
  let s := {| enabled := [ {| aux_pos := 0; aux_cls := failing |};
                           {| aux_pos := 1; aux_cls := Samples.sniffer |} ];
              log := [] |} in
  ∃ s', stop s = (Ok (), s')
        ∧ enabled s' = enabled s
        ∧ stop_positions (log s')
          = stop_positions (log s) ++ (aux_pos <$> enabled s).
Proof.
  intros failing s. apply (stop_reaches_every_started s).
  repeat constructor.
Defined.

End AuxiliaryLaws.

(** ** Sorting by key: what does not depend on the order given *)

Module PyListLaws.
Import PyList.
Section WithKey.
Context {A : Type} (key : A → Z).
Implicit Types (a x : A) (l : list A).

Lemma insert_by_front a l :
  Forall (λ y, key a ≤ key y)%Z l → insert_by key a l = a :: l.
Proof.
  destruct 1 as [|y l Hy _]; simpl; [done |].
  by destruct (Z.leb_spec (key a) (key y)); [| lia].
Qed.

Lemma insert_by_filter (p : A → bool) a l :
  StronglySorted (key_le key) l →
  List.filter p (insert_by key a l)
  = if p a then insert_by key a (List.filter p l) else List.filter p l.
Proof.
  induction 1 as [|x l Hs IH Hx]; simpl; [by destruct (p a) |].
  destruct (Z.leb_spec (key a) (key x)) as [Hle|Hgt]; simpl.
  - destruct (p a); [| done]. symmetry. apply insert_by_front.
    assert (Hall : Forall (λ y, key a ≤ key y)%Z (x :: l)).
    { constructor; [done |]. eapply Forall_impl; [exact Hx |].
      unfold key_le. simpl. lia. }
    change (Forall (λ y, (key a ≤ key y)%Z) (List.filter p (x :: l))).
    apply Forall_forall. intros y Hy%list_elem_of_In%filter_In.
    rewrite Forall_forall in Hall. apply Hall, list_elem_of_In, Hy.
  - rewrite IH. destruct (p x), (p a); simpl; try done.
    by destruct (Z.leb_spec (key a) (key x)); [lia |].
Qed.

(** Sorting and then dropping elements is dropping them and then
    sorting. *)
Lemma sort_by_filter (p : A → bool) l :
  List.filter p (sort_by key l) = sort_by key (List.filter p l).
Proof.
  induction l as [|a l IH]; [done |]. cbn [sort_by foldr List.filter].
  fold (sort_by key l).
  rewrite insert_by_filter by apply PyListFacts.sort_by_sorted.
  rewrite IH. by destruct (p a).
Qed.

Lemma key_inj_on l x y :
  NoDup (key <$> l) → x ∈ l → y ∈ l → key x = key y → x = y.
Proof.
  induction l as [|z l IH]; simpl; [by intros _ ?%elem_of_nil |].
  rewrite NoDup_cons. intros [Hz Hnd].
  rewrite !elem_of_cons. intros [->|Hx] [->|Hy] Hk; auto.
  - exfalso. apply Hz. rewrite Hk. by apply list_elem_of_fmap_2.
  - exfalso. apply Hz. rewrite <- Hk. by apply list_elem_of_fmap_2.
Qed.

Lemma sorted_perm_unique l1 : ∀ l2,
  StronglySorted (key_le key) l1 → StronglySorted (key_le key) l2 →
  l1 ≡ₚ l2 → NoDup (key <$> l1) → l1 = l2.
Proof.
  induction l1 as [|x1 l1 IH]; intros l2 H1 H2 Hp Hnd.
  { by apply Permutation_nil_l in Hp. }
  destruct l2 as [|x2 l2]; [by apply Permutation_nil_r in Hp |].
  apply StronglySorted_inv in H1 as [H1 Hx1].
  apply StronglySorted_inv in H2 as [H2 Hx2].
  assert (Heq : x1 = x2).
  { apply (key_inj_on (x1 :: l1)); [done | by left | |].
    - rewrite Hp. by left.
    - assert (Hin1 : x1 ∈ x2 :: l2) by (rewrite <- Hp; by left).
      assert (Hin2 : x2 ∈ x1 :: l1) by (rewrite Hp; by left).
      rewrite Forall_forall in Hx1, Hx2. unfold key_le in *.
      apply elem_of_cons in Hin1 as [->|Hin1]; [done |].
      apply elem_of_cons in Hin2 as [->|Hin2]; [done |].
      specialize (Hx1 _ Hin2). specialize (Hx2 _ Hin1). simpl in *. lia. }
  subst x2. f_equal. apply IH; [done | done | |].
  - by apply Permutation_cons_inv in Hp.
  - simpl in Hnd. by apply NoDup_cons in Hnd as [_ ?].
Qed.

(** With pairwise different keys the sorted list depends only on the
    elements, not on the order they came in. *)
Lemma sort_by_perm_unique l1 l2 :
  NoDup (key <$> l1) → l1 ≡ₚ l2 → sort_by key l1 = sort_by key l2.
Proof.
  intros Hnd Hp. apply sorted_perm_unique.
  - apply PyListFacts.sort_by_sorted.
  - apply PyListFacts.sort_by_sorted.
  - by rewrite !PyListFacts.sort_by_perm.
  - by rewrite (PyListFacts.sort_by_perm key l1).
Qed.

End WithKey.
End PyListLaws.

(** ** Processing stage: what ends up in the results *)

Module ProcessingLaws.
Import Processing ProcessingSpec.
Section WithData.
Context {D : Type}.
Implicit Types (s : state D) (m : ProcClass D) (mods : list (ProcClass D)).

(** One round of the loop of [run]. *)
Lemma process_effect cfg m s :
  let '(r, s1) := process cfg m s in
  contributions s1 = contributions s
  ∧ match statistics s with
    | None => r = None ∧ statistics s1 = None
    | Some t =>
        r = contributes cfg m
        ∧ statistics s1
          = Some (t ++ match contributes cfg m with
                       | Some _ => [pc_name m]
                       | None => []
                       end)
    end.
Proof.
  unfold process, contributes, cfg_get.
  destruct (pc_ctor m) as [[]|e]; simpl.
  2:{ split; [done |]. destruct (statistics s); by rewrite ?app_nil_r. }
  destruct (cfg !! short_name (pc_module m)) as [o|]; simpl.
  2:{ split; [done |]. destruct (pc_run m), (statistics s);
        by rewrite ?app_nil_r. }
  destruct (opt_enabled o); simpl.
  2:{ split; [done |]. destruct (pc_run m), (statistics s);
        by rewrite ?app_nil_r. }
  destruct (pc_run m) as [d|e]; simpl.
  - destruct (statistics s) eqn:Hst; simpl; rewrite ?Hst; by repeat split.
  - split; [done |]. destruct (statistics s); by rewrite ?app_nil_r.
Qed.

Lemma run_loop_untimed cfg mods : ∀ s,
  statistics s = None →
  contributions (run_loop cfg mods s) = contributions s
  ∧ statistics (run_loop cfg mods s) = None.
Proof.
  induction mods as [|m mods IH]; intros s Hs; simpl; [done |].
  pose proof (process_effect cfg m s) as He.
  destruct (process cfg m s) as [r s1]. rewrite Hs in He.
  destruct He as (Hc & -> & Hst).
  destruct (IH s1 Hst) as [IH1 IH2]. by rewrite IH1, IH2, Hc.
Qed.

Lemma run_loop_timed cfg mods : ∀ s t,
  statistics s = Some t →
  contributions (run_loop cfg mods s)
  = foldl (merge cfg) (contributions s) mods
  ∧ statistics (run_loop cfg mods s) = Some (t ++ contributors cfg mods).
Proof.
  induction mods as [|m mods IH]; intros s t Hs; simpl.
  { by rewrite app_nil_r. }
  pose proof (process_effect cfg m s) as He.
  destruct (process cfg m s) as [r s1]. rewrite Hs in He.
  destruct He as (Hc & -> & Hst). unfold merge at 2, contributors.
  cbn [List.filter].
  destruct (contributes cfg m) as [[k d]|] eqn:Hm; simpl.
  - match goal with |- context [run_loop cfg mods ?s2] =>
      destruct (IH s2 (t ++ [pc_name m]) Hst) as [IH1 IH2]
    end.
    rewrite IH1, IH2. simpl. rewrite Hc. split; [done |].
    by rewrite <- app_assoc.
  - rewrite app_nil_r in Hst. destruct (IH s1 t Hst) as [IH1 IH2].
    by rewrite IH1, IH2, Hc.
Qed.


Lemma merge_only_contributing cfg mods : ∀ c,
  foldl (merge cfg) c mods
  = foldl (merge cfg) c
      (List.filter (λ m, bool_decide (is_Some (contributes cfg m))) mods).
Proof.
  induction mods as [|m mods IH]; intros c; [done |].
  cbn [List.filter].
  destruct (bool_decide_reflect (is_Some (contributes cfg m))) as [Hs|Hn].
  - exact (IH (merge cfg c m)).
  - change (foldl (merge cfg) (merge cfg c m) mods
            = foldl (merge cfg) c
                (List.filter
                   (λ m, bool_decide (is_Some (contributes cfg m))) mods)).
    replace (merge cfg c m) with c; [apply IH |].
    unfold merge. destruct (contributes cfg m) as [[k d]|]; [| done].
    exfalso. eauto.
Qed.

Lemma run_only_contributing cfg mods mods' s :
  List.filter (λ m, bool_decide (is_Some (contributes cfg m))) mods
  = List.filter (λ m, bool_decide (is_Some (contributes cfg m))) mods' →
  contributions (run_loop cfg mods s) = contributions (run_loop cfg mods' s)
  ∧ statistics (run_loop cfg mods s) = statistics (run_loop cfg mods' s).
Proof.
  intros Heq. destruct (statistics s) as [t|] eqn:Hs.
  - destruct (run_loop_timed cfg mods s t Hs) as [-> ->].
    destruct (run_loop_timed cfg mods' s t Hs) as [-> ->].
    unfold contributors.
    by rewrite (merge_only_contributing cfg mods),
               (merge_only_contributing cfg mods'), Heq.
  - destruct (run_loop_untimed cfg mods s Hs) as [-> ->].
    by destruct (run_loop_untimed cfg mods' s Hs) as [-> ->].
Qed.

(** The timing entry is appended inside the [try] around [run()]: on
    results without a statistics list every module's contribution is
    lost with the error, and the stage adds nothing. *)
Theorem no_statistics_no_results cfg bucket s :
  statistics s = None →
  contributions (run cfg bucket s) = contributions s
  ∧ statistics (run cfg bucket s) = None.
Proof.
  intros Hs. unfold run. destruct (Registry.bucket_truthy bucket); [| done].
  by apply run_loop_untimed.
Qed.


(** A module that fails to load, has no section, is disabled or whose
    [run] raises leaves the results as they are without it. *)
Theorem failed_module_changes_nothing cfg pre m post s :
  contributes cfg m = None →
  contributions (run cfg (Registry.BList (pre ++ m :: post)) s)
  = contributions (run cfg (Registry.BList (pre ++ post)) s)
  ∧ statistics (run cfg (Registry.BList (pre ++ m :: post)) s)
    = statistics (run cfg (Registry.BList (pre ++ post)) s).
Proof.
  intros Hm.
  assert (Hrun : ∀ l, contributions (run cfg (Registry.BList l) s)
                      = contributions (run_loop cfg (PyList.sort_by pc_order l) s)
                      ∧ statistics (run cfg (Registry.BList l) s)
                        = statistics (run_loop cfg (PyList.sort_by pc_order l) s)).
  { intros [|x l]; done. }
  destruct (Hrun (pre ++ m :: post)) as [-> ->].
  destruct (Hrun (pre ++ post)) as [-> ->].
  apply run_only_contributing.
  rewrite !PyListLaws.sort_by_filter. f_equal.
  rewrite !List.filter_app. cbn [List.filter]. rewrite Hm.
  by rewrite bool_decide_false by (by intros [? ?]).
Qed.

(** With pairwise different [order] values the stage does not depend on
    the order the modules were registered in. *)
Theorem registration_order_irrelevant cfg mods mods' s :
  NoDup (pc_order <$> mods) → mods ≡ₚ mods' →
  run cfg (Registry.BList mods) s = run cfg (Registry.BList mods') s.
Proof.
  intros Hnd Hp. unfold run, Registry.bucket_truthy. simpl.
  rewrite (PyListLaws.sort_by_perm_unique pc_order mods mods' Hnd Hp).
  destruct mods as [|x mods].
  - by apply Permutation_nil_l in Hp as <-.
  - destruct mods' as [|x' mods']; [by apply Permutation_nil_r in Hp |].
    done.
Qed.

End WithData.

Import ProcessingSamples.

Lemma no_statistics_no_results_witness :
  contributions (run proc_cfg (Registry.BList [static; strings]) untimed)
  = contributions untimed
  ∧ statistics (run proc_cfg (Registry.BList [static; strings]) untimed)
    = None.
Proof.
  apply (no_statistics_no_results proc_cfg). reflexivity.
Defined.


Lemma failed_module_changes_nothing_witness :
  contributions
    (run proc_cfg (Registry.BList ([static] ++ failing :: [strings])) timed)
  = contributions
      (run proc_cfg (Registry.BList ([static] ++ [strings])) timed)
  ∧ statistics
      (run proc_cfg (Registry.BList ([static] ++ failing :: [strings])) timed)
    = statistics
        (run proc_cfg (Registry.BList ([static] ++ [strings])) timed).
Proof.
  apply (failed_module_changes_nothing proc_cfg [static] failing [strings]).
  reflexivity.
Defined.

Lemma registration_order_irrelevant_witness :
  run proc_cfg (Registry.BList [static; strings; disabled]) timed
  = run proc_cfg (Registry.BList [disabled; static; strings]) timed.
Proof.
  apply (registration_order_irrelevant proc_cfg).
  - apply (bool_decide_unpack _). vm_compute. exact I.
  - change [disabled; static; strings] with ([disabled] ++ [static; strings]).
    change [static; strings; disabled] with ([static; strings] ++ [disabled]).
    apply Permutation_app_comm.
Defined.

End ProcessingLaws.

(** ** Version check: when it raises, what it ignores *)

Module VersionLaws.
Import Version.

Lemma before_first_app c v s :
  PyStr.contains c v = false →
  PyStr.before_first c (v +:+ String c s) = v.
Proof.
  induction v as [|d v IH]; simpl.
  - by rewrite Ascii.eqb_refl.
  - destruct (Ascii.eqb c d); [done |]. intros H. by rewrite IH.
Qed.

Lemma before_first_whole c v :
  PyStr.contains c v = false → PyStr.before_first c v = v.
Proof.
  induction v as [|d v IH]; simpl; [done |].
  destruct (Ascii.eqb c d); [done |]. intros H. by rewrite IH.
Qed.

Lemma rejects_raises f v b e :
  rejects f v b = Raise e →
  e = AttributeError
  ∧ (PyStr.truthy v = false
     ∨ PyStr.truthy (PyStr.before_first PyStr.dash b) = false).
Proof.
  unfold rejects, make.
  destruct (PyStr.truthy v) eqn:Hv,
           (PyStr.truthy (PyStr.before_first PyStr.dash b)) eqn:Hb.
  - destruct (parse v) as [n|e1] eqn:Hp1; cbn [mbind result_bind].
    2:{ apply VersionFacts.parse_raises_ValueError in Hp1 as ->. done. }
    destruct (parse (PyStr.before_first PyStr.dash b)) as [n'|e2] eqn:Hp2;
      cbn [mbind result_bind].
    2:{ apply VersionFacts.parse_raises_ValueError in Hp2 as ->. done. }
    destruct (VersionFacts.cmp_parsed n n') as [c Hc].
    rewrite Hc. cbn [mbind result_bind]. done.
  - destruct (parse v) as [n|e1] eqn:Hp1; cbn [mbind result_bind].
    2:{ apply VersionFacts.parse_raises_ValueError in Hp1 as ->. done. }
    intros [= <-]. auto.
  - cbn [mbind result_bind].
    destruct (parse (PyStr.before_first PyStr.dash b)) as [n'|e2] eqn:Hp2;
      cbn [mbind result_bind].
    2:{ apply VersionFacts.parse_raises_ValueError in Hp2 as ->. done. }
    intros [= <-]. auto.
  - cbn [mbind result_bind]. intros [= <-]. auto.
Qed.

(** The only error that leaves the check is [AttributeError], and it
    does so only when the text before the first dash is empty in the
    running version or in a bound that is given. *)
Theorem check_raises_only_on_empty_head running minimum maximum e :
  _check_signature_version running minimum maximum = Raise e →
  e = AttributeError
  ∧ (PyStr.truthy (PyStr.before_first PyStr.dash running) = false
     ∨ ¬ head_present minimum ∨ ¬ head_present maximum).
Proof.
  unfold _check_signature_version, head_present.
  destruct (given minimum) as [lo|].
  - destruct (rejects is_lt _ lo) as [below|e1] eqn:H1;
      cbn [mbind result_bind].
    2:{ intros [= <-]. apply rejects_raises in H1 as [-> [H|H]];
          (split; [done |]); [by left | right; left; congruence]. }
    destruct below; [done |].
    destruct (given maximum) as [hi|]; cbn [mbind result_bind]; [| done].
    destruct (rejects is_gt _ hi) as [above|e2] eqn:H2;
      cbn [mbind result_bind]; [by destruct above |].
    intros [= <-]. apply rejects_raises in H2 as [-> [H|H]];
      (split; [done |]); [by left | right; right; congruence].
  - cbn [mbind result_bind].
    destruct (given maximum) as [hi|]; cbn [mbind result_bind]; [| done].
    destruct (rejects is_gt _ hi) as [above|e2] eqn:H2;
      cbn [mbind result_bind]; [by destruct above |].
    intros [= <-]. apply rejects_raises in H2 as [-> [H|H]];
      (split; [done |]); [by left | right; right; congruence].
Qed.

Lemma check_raises_only_on_empty_head_witness :
  AttributeError = AttributeError
  ∧ (PyStr.truthy (PyStr.before_first PyStr.dash "1.5") = false
     ∨ ¬ head_present (Some "-dev") ∨ ¬ head_present None).
Proof.
  apply (check_raises_only_on_empty_head "1.5" (Some "-dev") None).
  reflexivity.
Defined.

(** What follows the first dash plays no role, in the running version
    and in either bound. *)
Theorem suffixes_ignored v lo hi s1 s2 s3 :
  PyStr.contains PyStr.dash v = false →
  PyStr.contains PyStr.dash lo = false → PyStr.truthy lo = true →
  PyStr.contains PyStr.dash hi = false → PyStr.truthy hi = true →
  _check_signature_version (v +:+ String PyStr.dash s1)
    (Some (lo +:+ String PyStr.dash s2)) (Some (hi +:+ String PyStr.dash s3))
  = _check_signature_version v (Some lo) (Some hi).
Proof.
  intros Hv Hlo Hlo' Hhi Hhi'. unfold _check_signature_version.
  rewrite (before_first_app _ v s1 Hv), (before_first_whole _ v Hv).
  assert (Hg : ∀ b s, PyStr.truthy b = true →
            given (Some (b +:+ String PyStr.dash s))
            = Some (b +:+ String PyStr.dash s) ∧ given (Some b) = Some b).
  { intros [|c b] s; [done |]. done. }
  destruct (Hg lo s2 Hlo') as [-> ->]. destruct (Hg hi s3 Hhi') as [-> ->].
  assert (Hr : ∀ f b s, PyStr.contains PyStr.dash b = false →
            rejects f v (b +:+ String PyStr.dash s) = rejects f v b).
  { intros f b s Hb. unfold rejects.
    by rewrite (before_first_app _ b s Hb), (before_first_whole _ b Hb). }
  by rewrite (Hr is_lt lo s2 Hlo), (Hr is_gt hi s3 Hhi).
Qed.

Lemma suffixes_ignored_witness :
  _check_signature_version ("1.3" +:+ String PyStr.dash "NG")
    (Some ("1.2" +:+ String PyStr.dash "rc1"))
    (Some ("1.10" +:+ String PyStr.dash "dev"))
  = _check_signature_version "1.3" (Some "1.2") (Some "1.10").
Proof. apply suffixes_ignored; reflexivity. Defined.

Lemma given_parsed bound n :
  parse (PyStr.before_first PyStr.dash bound) = Ok n →
  given (Some bound) = Some bound.
Proof. destruct bound; [discriminate | done]. Qed.

(** With a running version and two bounds whose texts before the dash
    are numbers, the check returns, and passes exactly when the running
    version is not below the minimum and not above the maximum in the
    ordering of [StrictVersion]. *)
Theorem check_decides_by_bounds running lo hi v a b :
  parse (PyStr.before_first PyStr.dash running) = Ok v →
  parse (PyStr.before_first PyStr.dash lo) = Ok a →
  parse (PyStr.before_first PyStr.dash hi) = Ok b →
  ∃ c1 c2,
    cmp (Parsed v) (Parsed a) = Ok c1 ∧ cmp (Parsed v) (Parsed b) = Ok c2
    ∧ _check_signature_version running (Some lo) (Some hi)
      = Ok (negb (is_lt c1) && negb (is_gt c2)).
Proof.
  intros Hv Ha Hb.
  destruct (VersionFacts.rejects_well_formed is_lt _ lo v a Hv Ha)
    as (c1 & Hc1 & Hr1).
  destruct (VersionFacts.rejects_well_formed is_gt _ hi v b Hv Hb)
    as (c2 & Hc2 & Hr2).
  exists c1, c2. split; [done |]. split; [done |].
  unfold _check_signature_version.
  rewrite (given_parsed lo a Ha), (given_parsed hi b Hb), Hr1.
  cbn [mbind result_bind]. destruct (is_lt c1); [done |].
  rewrite Hr2. cbn [mbind result_bind]. by destruct (is_gt c2).
Qed.

Lemma check_decides_by_bounds_witness :
  ∃ c1 c2,
    cmp (Parsed {| version := (1, 10, 0)%N; prerelease := None |})
        (Parsed {| version := (1, 9, 0)%N; prerelease := None |}) = Ok c1
    ∧ cmp (Parsed {| version := (1, 10, 0)%N; prerelease := None |})
          (Parsed {| version := (2, 0, 0)%N; prerelease := Some ("b"%char, 1%N) |})
      = Ok c2
    ∧ _check_signature_version "1.10-dev" (Some "1.9") (Some "2.0b1")
      = Ok (negb (is_lt c1) && negb (is_gt c2)).
Proof.
  apply check_decides_by_bounds; reflexivity.
Defined.

(** A minimum whose text before the dash is there but is not a number
    rejects, whatever the maximum is: the maximum is not looked at. *)
Theorem unparsable_minimum_rejects running lo hi v :
  parse (PyStr.before_first PyStr.dash running) = Ok v →
  PyStr.truthy (PyStr.before_first PyStr.dash lo) = true →
  (∀ n, parse (PyStr.before_first PyStr.dash lo) ≠ Ok n) →
  _check_signature_version running (Some lo) hi = Ok false.
Proof.
  intros Hv Hhead Hbad. unfold _check_signature_version.
  assert (given (Some lo) = Some lo) as -> by (by destruct lo).
  by rewrite (VersionFacts.rejects_malformed is_lt _ lo v Hv Hhead Hbad).
Qed.

Lemma unparsable_minimum_rejects_witness :
  _check_signature_version "1.3-NG" (Some "1.x-beta") (Some "-dev")
  = Ok false.
Proof.
  apply (unparsable_minimum_rejects "1.3-NG" "1.x-beta" (Some "-dev")
           {| version := (1, 3, 0)%N; prerelease := None |});
    [reflexivity | reflexivity |].
  intros n. vm_compute. discriminate.
Defined.

End VersionLaws.

(** ** Family detection from the alerts *)

Module AggregateLaws.
Import Aggregate AggregateSpec.

Lemma suricata_loop_app al : ∀ al' family,
  suricata_loop (al ++ al') family
  = family' ← suricata_loop al family; suricata_loop al' family'.
Proof.
  induction al as [|a al IH]; intros al' family; simpl; [done |].
  destruct (signature a) as [s|]; [| apply IH].
  destruct (PyStr.truthy s && is_trojan_alert s); [| apply IH].
  destruct (alert_family s) as [[f|]|e]; cbn [mbind result_bind];
    [apply IH | apply IH | done].
Qed.

Lemma suricata_loop_step a al family :
  suricata_loop (a :: al) family
  = c ← alert_candidate a; suricata_loop al (default family c).
Proof.
  unfold alert_candidate. simpl.
  destruct (signature a) as [s|]; [| done].
  destruct (PyStr.truthy s && is_trojan_alert s); [| done].
  by destruct (alert_family s) as [[f|]|e].
Qed.

Lemma suricata_loop_silent al : ∀ family,
  Forall (λ a, alert_candidate a = Ok None) al →
  suricata_loop al family = Ok family.
Proof.
  induction al as [|a al IH]; intros family Hall; [done |].
  apply Forall_cons in Hall as [Ha Hall].
  rewrite suricata_loop_step, Ha. cbn [mbind result_bind]. by apply IH.
Qed.

Lemma suricata_loop_returns al : ∀ family,
  Forall (λ a, ∃ c, alert_candidate a = Ok c) al →
  ∃ family', suricata_loop al family = Ok family'.
Proof.
  induction al as [|a al IH]; intros family Hall; [by eexists |].
  apply Forall_cons in Hall as [[c Ha] Hall].
  rewrite suricata_loop_step, Ha. cbn [mbind result_bind]. by apply IH.
Qed.

(** Among the alerts it is the last acceptable one that names the
    family (among the matches it is the first): in an analysis that is
    not of a file, with no family from the matches, the family is the
    name proposed by the last alert that proposes one. *)
Theorem last_alert_names_family g matched r pre a post f :
  family_of_matches matched = "" →
  String.eqb (info_category r) "file" = false →
  suricata_alerts_present r = Some (pre ++ a :: post) →
  Forall (λ a', ∃ c, alert_candidate a' = Ok c) pre →
  alert_candidate a = Ok (Some f) →
  Forall (λ a', alert_candidate a' = Ok None) post →
  compute_malfamily g matched r = Ok f.
Proof.
  intros Hm Hcat Hal Hpre Ha Hpost. unfold compute_malfamily.
  rewrite Hm, Hcat, Hal. cbn [PyStr.truthy negb andb].
  rewrite suricata_loop_app.
  destruct (suricata_loop_returns pre "" Hpre) as [fam ->].
  cbn [mbind result_bind]. rewrite suricata_loop_step, Ha.
  cbn [mbind result_bind default from_option id].
  rewrite (suricata_loop_silent post f Hpost).
  cbn [mbind result_bind]. by rewrite andb_false_r.
Qed.

(** A trojan alert with fewer than three word-like fragments makes the
    family computation, and with it the signature run, raise
    [IndexError], provided no match named a family, there are no
    reputation results and the alerts before it raise nothing. *)
Theorem short_trojan_alert_raises g matched r pre a post s :
  family_of_matches matched = "" → vt_results_present r = None →
  suricata_alerts_present r = Some (pre ++ a :: post) →
  Forall (λ a', ∃ c, alert_candidate a' = Ok c) pre →
  signature a = Some s → is_trojan_alert s = true →
  (length (PyStr.findall_words s) < 3)%nat →
  compute_malfamily g matched r = Raise IndexError.
Proof.
  intros Hm Hvt Hal Hpre Hs Ht Hw. unfold compute_malfamily.
  rewrite Hm, Hvt, Hal. cbn [PyStr.truthy negb andb].
  assert ((if String.eqb (info_category r) "file" then "" else "") = "")
    as -> by (by destruct (String.eqb _ _)).
  cbn [PyStr.truthy negb]. rewrite suricata_loop_app.
  destruct (suricata_loop_returns pre "" Hpre) as [fam ->].
  cbn [mbind result_bind]. rewrite suricata_loop_step.
  unfold alert_candidate. rewrite Hs, Ht.
  assert (PyStr.truthy s = true) as ->.
  { destruct s; [| done]. by vm_compute in Ht. }
  cbn [andb]. by rewrite (AggregateFacts.alert_needs_three_words s Hw).
Qed.

Lemma last_alert_names_family_witness :
  let alert (text : string) := {| signature := Some text |} in
  let r :=
    {| info_category := "url"; target_category := "url";
       target_file := None; behavior := None; virustotal := None;
       suricata :=
         Some {| alerts :=
                   Some ([alert "ET TROJAN Zeus Checkin"]
                         ++ alert "ETPRO TROJAN Win32 Dridex.A CnC"
                         :: [alert "ET TROJAN Generic Beacon";
                             alert "ET POLICY curl User-Agent"]) |};
       signatures := None; malscore := None; malfamily := None |} in
  compute_malfamily (λ _, "") [Samples.low] r = Ok "Dridex".
Proof.
  intros alert r.
  apply (last_alert_names_family (λ _, "") [Samples.low] r
           [alert "ET TROJAN Zeus Checkin"]
           (alert "ETPRO TROJAN Win32 Dridex.A CnC")
           [alert "ET TROJAN Generic Beacon";
            alert "ET POLICY curl User-Agent"] "Dridex");
    try reflexivity.
  - repeat constructor. by eexists.
  - repeat constructor.
Defined.

Lemma short_trojan_alert_raises_witness :
  compute_malfamily (λ _, "") [] Samples.short_alert = Raise IndexError.
Proof.
  apply (short_trojan_alert_raises (λ _, "") [] Samples.short_alert
           [] {| signature := Some "ET TROJAN" |} [] "ET TROJAN");
    try reflexivity.
  - constructor.
  - vm_compute. lia.
Defined.

End AggregateLaws.

(** ** Signature engine: what the passes never do *)

Module EngineLaws.
Import Engine EngineSpec.

Section WithState.
Context {St : Type}.
Implicit Types (s : state St) (sig : SigInst St) (c : SigClass St).

(** *** An instance that answered is left alone *)

Lemma left_alone_snoc (tr : list event) e0 :
  left_alone tr →
  (∀ e n, e ∈ tr → answers n e → ¬ about n e0) →
  left_alone (tr ++ [e0]).
Proof.
  intros Htr He0 before e after n. revert before e.
  induction after as [|x after _] using rev_ind; intros before e Heq Hans.
  { constructor. }
  rewrite app_comm_cons, app_assoc in Heq.
  apply app_inj_tail in Heq as [-> <-].
  apply Forall_app. split.
  - by eapply Htr.
  - repeat constructor. apply (He0 e); [| done].
    rewrite elem_of_app, elem_of_cons. auto.
Qed.

Lemma serials_insert i sig st (l : list (SigInst St)) :
  l !! i = Some sig →
  serial <$> <[i := with_state st sig]> l = serial <$> l.
Proof.
  intros Hi. rewrite list_fmap_insert. apply list_insert_id.
  by rewrite list_lookup_fmap, Hi.
Qed.

Lemma py_remove_serials sig (l : list (SigInst St)) : ∀ l',
  py_remove AnInstance (AnInstance sig) l = Ok l' →
  NoDup (serial <$> l) →
  NoDup (serial <$> l')
  ∧ (serial sig ∉ serial <$> l')
  ∧ ∀ n, n ∈ (serial <$> l') → n ∈ (serial <$> l).
Proof.
  induction l as [|y l IH]; intros l'; simpl; [done |].
  rewrite NoDup_cons. intros H [Hy Hnd].
  destruct (Nat.eqb_spec (serial y) (serial sig)) as [Heq|Hne].
  - injection H as <-. rewrite <- Heq. split; [done |]. split; [done |].
    intros n Hn. by right.
  - destruct (py_remove AnInstance (AnInstance sig) l) as [l''|e] eqn:Hl;
      cbn [mbind result_bind] in H; [| done].
    injection H as <-. destruct (IH l'' eq_refl Hnd) as (Hnd' & Hx & Hsub).
    simpl. rewrite NoDup_cons, not_elem_of_cons. repeat split; auto.
    intros n [->|Hn]%elem_of_cons; [by left | right; auto].
Qed.

Lemma record_match_keeps sig s s' :
  record_match sig s = Ok s' →
  evented_list s' = evented_list s ∧ trace s' = trace s.
Proof.
  unfold record_match.
  destruct (as_result (icls sig) (ist sig)) as [m|e];
    cbn [mbind result_bind]; [| done].
  destruct (py_in _ _ _); [| by intros [= <-]].
  destruct (py_remove _ _ _) as [l|e]; cbn [mbind result_bind]; [| done].
  by intros [= <-].
Qed.

Lemma sig_body_inv i sig proc pidx cidx call s s' :
  evented_list s !! i = Some sig → inv s →
  sig_body i sig proc pidx cidx call s = Ok s' → inv s'.
Proof.
  intros Hi (Hnd & Hla & Hans). unfold sig_body.
  destruct (negb (interested sig proc call)); [by intros [= <-] |].
  destruct (on_call (icls sig) (ist sig) call proc) as [r st].
  set (sig' := with_state st sig).
  set (e0 := OnCall (serial sig') pidx cidx r).
  set (s1 := emit e0 (set_evented (<[i := sig']> (evented_list s)) s)).
  assert (Hser : serial <$> evented_list s1 = serial <$> evented_list s)
    by (subst s1 sig'; simpl; by apply serials_insert).
  assert (Hin : serial sig ∈ serial <$> evented_list s).
  { apply list_elem_of_fmap. exists sig. split; [done |].
    by eapply list_elem_of_lookup_2. }
  assert (Hla1 : left_alone (trace s1)).
  { subst s1. simpl. apply left_alone_snoc; [done |].
    intros e n He Hn Hab. simpl in Hab. subst n.
    by apply (Hans e (serial sig)). }
  assert (Hquiet : r = Ok PNone → inv s1).
  { intros ->. split; [by rewrite Hser |]. split; [done |].
    intros e n. rewrite Hser. change (trace s1) with (trace s ++ [e0]).
    rewrite elem_of_app.
    intros [He|He%list_elem_of_singleton]; [by apply Hans |].
    subst e. simpl. tauto. }
  assert (Hrm : ∀ s2, evented_list s2 = evented_list s1 →
            trace s2 = trace s1 →
            (l ← py_remove AnInstance (AnInstance sig') (evented_list s2);
             Ok (set_evented l s2)) = Ok s' → inv s').
  { intros s2 Hev Htr.
    destruct (py_remove AnInstance (AnInstance sig') (evented_list s2))
      as [l|e] eqn:Hl; cbn [mbind result_bind]; [| done].
    intros [= <-]. rewrite Hev in Hl.
    apply py_remove_serials in Hl as (Hnd' & Hx & Hsub);
      [| by rewrite Hser].
    split; [done |]. split; [simpl; by rewrite Htr |].
    intros e n. simpl. rewrite Htr. change (trace s1) with (trace s ++ [e0]).
    rewrite elem_of_app.
    intros [He|He%list_elem_of_singleton] Hn.
    - intros Hn'. apply Hsub in Hn'. rewrite Hser in Hn'.
      by apply (Hans e n).
    - subst e. simpl in Hn. destruct Hn as [<- _]. exact Hx. }
  destruct r as [[| | |b]|e].
  - intros [= <-]. by apply Hquiet.
  - destruct (record_match sig' s1) as [s2|e] eqn:Hr;
      cbn [mbind result_bind]; [| done].
    apply record_match_keeps in Hr as [Hev Htr]. by apply Hrm.
  - by apply Hrm.
  - by apply Hrm.
  - by apply Hrm.
Qed.

Lemma sig_loop_inv proc pidx cidx call fuel : ∀ i s s',
  inv s → sig_loop fuel i proc pidx cidx call s = Ok s' → inv s'.
Proof.
  induction fuel as [|fuel IH]; intros i s s' Hs; simpl.
  { by intros [= <-]. }
  destruct (evented_list s !! i) as [sig|] eqn:Hi; [| by intros [= <-]].
  destruct (sig_body i sig proc pidx cidx call s) as [s1|e] eqn:Hb;
    cbn [mbind result_bind]; [| done].
  apply IH. by eapply sig_body_inv.
Qed.

Lemma call_loop_inv proc pidx cs : ∀ cidx s s',
  inv s → call_loop proc pidx cidx cs s = Ok s' → inv s'.
Proof.
  induction cs as [|call cs IH]; intros cidx s s' Hs; simpl.
  { by intros [= <-]. }
  destruct (sig_loop _ 0 proc pidx cidx call s) as [s1|e] eqn:Hl;
    cbn [mbind result_bind]; [| done].
  apply IH. by eapply sig_loop_inv.
Qed.

Lemma proc_loop_inv todo : ∀ pidx s s',
  inv s → proc_loop pidx todo s = Ok s' → inv s'.
Proof.
  induction todo as [|proc todo IH]; intros pidx s s' Hs; simpl.
  { by intros [= <-]. }
  destruct (call_loop proc pidx _ _ s) as [s1|e] eqn:Hl;
    cbn [mbind result_bind]; [| done].
  apply IH. eapply call_loop_inv in Hl; [| exact Hs]. exact Hl.
Qed.

Lemma complete_loop_left_alone todo : ∀ i s s',
  left_alone (trace s) →
  (∀ sig e, sig ∈ todo → e ∈ trace s → ¬ answers (serial sig) e) →
  complete_loop i todo s = Ok s' → left_alone (trace s').
Proof.
  induction todo as [|sig todo IH]; intros i s s' Hla Hno; simpl.
  { by intros [= <-]. }
  destruct (on_complete (icls sig) (ist sig)) as [r st].
  set (sig' := with_state st sig).
  set (e0 := OnComplete (serial sig) r).
  set (s1 := emit e0 (set_evented (<[i := sig']> (evented_list s)) s)).
  assert (Hla1 : left_alone (trace s1)).
  { subst s1. simpl. apply left_alone_snoc; [done |].
    intros e n He Hn Hab. simpl in Hab. subst n.
    apply (Hno sig e); [by left | done | done]. }
  assert (Hno1 : ∀ sig0 e, sig0 ∈ todo → e ∈ trace s1 →
                 ¬ answers (serial sig0) e).
  { intros sig0 e Hsig. subst s1. simpl. rewrite elem_of_app.
    intros [He|He%list_elem_of_singleton].
    - apply Hno; [by right | done].
    - subst e. simpl. tauto. }
  assert (Hgo : ∀ s2, trace s2 = trace s1 →
            complete_loop (S i) todo s2 = Ok s' → left_alone (trace s')).
  { intros s2 Htr. apply IH; rewrite Htr; [exact Hla1 | exact Hno1]. }
  destruct r as [[| | |b]|e]; try (by apply Hgo).
  destruct (record_match sig' s1) as [s2|e] eqn:Hr;
    cbn [mbind result_bind]; [| done].
  apply record_match_keeps in Hr as [_ Htr]. by apply Hgo.
Qed.

Lemma evented_pass_left_alone s s' :
  NoDup (serial <$> evented_list s) →
  Forall (λ e, ∀ n, ¬ about n e) (trace s) →
  evented_pass s = Ok s' → left_alone (trace s').
Proof.
  intros Hnd Hno.
  assert (Hnone : ∀ e n, e ∈ trace s → ¬ answers n e).
  { intros e n He Hn. rewrite Forall_forall in Hno.
    apply (Hno e He n). destruct e; simpl in *; tauto. }
  assert (Hs : inv s).
  { split; [done |]. split.
    - intros before e after n Heq Hn. exfalso. apply (Hnone e n); [| done].
      rewrite Heq, elem_of_app, elem_of_cons. auto.
    - intros e n He Hn. by destruct (Hnone e n He). }
  unfold evented_pass.
  destruct (evented_list s) as [|sig0 rest] eqn:Hev.
  { intros [= <-]. apply Hs. }
  destruct (behavior (results s)) as [procs|]; [| intros [= <-]; apply Hs].
  destruct (proc_loop 0 procs s) as [s1|e] eqn:Hp;
    cbn [mbind result_bind]; [| done].
  apply proc_loop_inv in Hp as (Hnd1 & Hla1 & Hans1); [| exact Hs].
  apply complete_loop_left_alone; [done |].
  intros sig e Hsig He Hn. apply (Hans1 e (serial sig) He Hn).
  by apply list_elem_of_fmap_2.
Qed.

(** *** Errors and the batch pass *)

Lemma process_raises V c s e :
  process V c s = Raise e →
  enabled (attrs c) = true ∧ check_version V (attrs c) = Raise e.
Proof.
  unfold process. destruct (new c (results s)) as [st|e0]; [| done].
  destruct (enabled (attrs c)); cbn [negb]; [| done].
  destruct (check_version V (attrs c)) as [ok|e1];
    cbn [mbind result_bind]; [| by intros [= <-]].
  destruct ok; cbn [negb]; [| done].
  destruct (run c st _) as [[r st'] used].
  destruct r as [data|e2]; [| done].
  destruct (truth data); [| done].
  by destruct (as_result c st').
Qed.

Lemma batch_loop_raises V todo : ∀ s e,
  batch_loop V todo s = Raise e →
  ∃ c, c ∈ todo ∧ enabled (attrs c) = true
       ∧ check_version V (attrs c) = Raise e.
Proof.
  induction todo as [|c todo IH]; intros s e; simpl; [done |].
  assert (Hrest : ∀ s1, batch_loop V todo s1 = Raise e →
            ∃ c0, c0 ∈ c :: todo ∧ enabled (attrs c0) = true
                  ∧ check_version V (attrs c0) = Raise e).
  { intros s1 H. apply IH in H as (c0 & Hin & H). exists c0.
    split; [by right | done]. }
  destruct (admits _ _); [| apply Hrest].
  destruct (process V c s) as [[m s1]|e1] eqn:Hp; cbn [mbind result_bind].
  - apply Hrest.
  - intros [= <-]. apply process_raises in Hp. exists c.
    split; [by left | done].
Qed.

(** Whatever the constructor, [run] or [as_result] of a batch
    signature raises is contained: an error leaves the batch pass only
    from the version check of an enabled candidate. *)
Theorem batch_errors_are_version_errors V s e :
  batch_pass V s = Raise e →
  ∃ c, c ∈ complete_list s ∧ enabled (attrs c) = true
       ∧ check_version V (attrs c) = Raise e.
Proof.
  unfold batch_pass. destruct (complete_list s) as [|c0 l] eqn:Hl; [done |].
  intros H. apply batch_loop_raises in H as (c & Hin & H).
  exists c. split; [| done].
  unfold sort_by_order in Hin. by rewrite PyListFacts.sort_by_perm in Hin.
Qed.

Lemma process_runs_qualified V c s m s' :
  process V c s = Ok (m, s') →
  ∃ more, trace s' = trace s ++ more
          ∧ ∀ n seen r, BatchRun n seen r ∈ more →
              n = cid c ∧ enabled (attrs c) = true
              ∧ check_version V (attrs c) = Ok true.
Proof.
  unfold process.
  assert (Hnone : ∀ ok n seen r,
            BatchRun n seen r ∈ [Instantiated (cid c) ok] →
            n = cid c ∧ enabled (attrs c) = true
            ∧ check_version V (attrs c) = Ok true).
  { intros ok n seen r H%list_elem_of_singleton. done. }
  destruct (new c (results s)) as [st|e0].
  2:{ intros [= <- <-]. eexists. split; [done |]. apply Hnone. }
  destruct (enabled (attrs c)); cbn [negb].
  2:{ intros [= <- <-]. eexists. split; [done |]. apply Hnone. }
  destruct (check_version V (attrs c)) as [ok|e1];
    cbn [mbind result_bind]; [| done].
  destruct ok; cbn [negb].
  2:{ intros [= <- <-]. eexists. split; [done |]. apply Hnone. }
  destruct (run c st _) as [[r st'] used].
  set (s1 := emit (Instantiated (cid c) true) s).
  set (seen := CallLog.observed ∘ CallLog.iter ∘ calls <$> processes s1).
  set (s2 := emit (BatchRun (cid c) seen r) s1).
  set (s3 := match behavior (results s2) with
             | Some ps => set_processes (consumed used ps) s2
             | None => s2
             end).
  assert (Htr3 : trace s3 = trace s ++ [Instantiated (cid c) true;
                                        BatchRun (cid c) seen r]).
  { subst s3. destruct (behavior (results s2)); simpl;
      by rewrite <- app_assoc. }
  assert (Hgoal : ∃ more, trace s3 = trace s ++ more
            ∧ ∀ n seen0 r0, BatchRun n seen0 r0 ∈ more →
                n = cid c ∧ true = true ∧ Ok true = Ok true).
  { eexists. split; [exact Htr3 |]. intros n seen0 r0.
    rewrite elem_of_cons, list_elem_of_singleton.
    intros [H|H]; [done |]. by injection H as -> _ _. }
  destruct r as [data|e]; [| by intros [= <- <-]].
  destruct (truth data); [| by intros [= <- <-]].
  destruct (as_result c st'); by intros [= <- <-].
Qed.

Lemma batch_loop_runs_qualified V todo : ∀ s s',
  batch_loop V todo s = Ok s' →
  ∃ more, trace s' = trace s ++ more
          ∧ ∀ n seen r, BatchRun n seen r ∈ more →
              ∃ c, c ∈ todo ∧ cid c = n ∧ enabled (attrs c) = true
                   ∧ check_version V (attrs c) = Ok true
                   ∧ admits (filter_analysistypes (attrs c))
                            (target_category (results s)) = true.
Proof.
  induction todo as [|c todo IH]; intros s s'; simpl.
  { intros [= <-]. exists []. split; [by rewrite app_nil_r |].
    intros n seen r H. by apply elem_of_nil in H. }
  destruct (admits _ _) eqn:Hadm.
  2:{ intros H. apply IH in H as (more & Ht & Hall). exists more.
      split; [done |]. intros n seen r Hin.
      destruct (Hall n seen r Hin) as (c0 & Hc0 & H). exists c0.
      split; [by right | done]. }
  destruct (process V c s) as [[m s1]|e] eqn:Hp;
    cbn [mbind result_bind]; [| done].
  pose proof (EngineFacts.process_takes_up _ _ _ _ _ Hp) as [Hcat1 _].
  apply process_runs_qualified in Hp as (more1 & Ht1 & Hq1).
  set (s2 := match m with Some m0 => append_matched m0 s1 | None => s1 end).
  assert (H2 : target_category (results s2) = target_category (results s1)
               ∧ trace s2 = trace s1) by (subst s2; by destruct m).
  destruct H2 as [Hcat2 Ht2].
  assert (H3 : target_category (results (reset_cursors s2))
               = target_category (results s2)
               ∧ ∃ after, trace (reset_cursors s2) = trace s2 ++ after
                          ∧ ∀ n seen r, BatchRun n seen r ∉ after).
  { unfold reset_cursors. destruct (behavior (results s2)); simpl.
    - split; [done |]. eexists. split; [done |]. intros n seen r.
      by intros H%list_elem_of_singleton.
    - split; [done |]. exists []. split; [by rewrite app_nil_r |].
      intros n seen r. apply not_elem_of_nil. }
  destruct H3 as (Hcat3 & after & Ht3 & Hafter).
  intros H. apply IH in H as (more & Ht & Hall).
  exists (more1 ++ after ++ more).
  split; [by rewrite Ht, Ht3, Ht2, Ht1, <- !app_assoc |].
  intros n seen r. rewrite !elem_of_app. intros [Hin|[Hin|Hin]].
  - destruct (Hq1 n seen r Hin) as (-> & He & Hv). exists c.
    split; [by left | done].
  - by destruct (Hafter n seen r).
  - destruct (Hall n seen r Hin) as (c0 & Hc0 & Hid & He & Hv & Ha).
    exists c0. split; [by right |]. repeat split; try done.
    by rewrite <- Hcat1, <- Hcat2, <- Hcat3.
Qed.

Lemma batch_pass_runs_qualified V s s' n seen r :
  batch_pass V s = Ok s' →
  BatchRun n seen r ∈ trace s' →
  BatchRun n seen r ∈ trace s
  ∨ ∃ c, c ∈ complete_list s ∧ cid c = n ∧ enabled (attrs c) = true
         ∧ check_version V (attrs c) = Ok true
         ∧ admits (filter_analysistypes (attrs c))
                  (target_category (results s)) = true.
Proof.
  unfold batch_pass. destruct (complete_list s) as [|c0 l] eqn:Hl.
  { intros [= <-]. by left. }
  intros H. apply batch_loop_runs_qualified in H as (more & -> & Hall).
  rewrite elem_of_app. intros [Hin|Hin]; [by left | right].
  destruct (Hall n seen r Hin) as (c & Hc & H). exists c. split; [| done].
  unfold sort_by_order in Hc. by rewrite PyListFacts.sort_by_perm in Hc.
Qed.

(** *** The whole run *)

Lemma left_alone_app (tr more : list event) :
  left_alone tr → Forall (λ e, ∀ n, ¬ about n e) more →
  left_alone (tr ++ more).
Proof.
  induction more as [|x more IH] using rev_ind; intros Htr Hq.
  { by rewrite app_nil_r. }
  apply Forall_app in Hq as [Hq Hx]. rewrite app_assoc.
  apply left_alone_snoc; [by apply IH |].
  intros e n _ _. apply Forall_inv in Hx. apply Hx.
Qed.

Lemma build_evented_serials V classes : ∀ pos r tr ev tr',
  build_evented V pos classes r tr = Ok (ev, tr') →
  Forall (λ i : SigInst St, pos ≤ serial i)%nat ev
  ∧ NoDup (serial <$> ev)
  ∧ (Forall (λ e, ∀ n, ¬ about n e) tr →
     Forall (λ e, ∀ n, ¬ about n e) tr').
Proof.
  induction classes as [|c classes IH]; intros pos r tr ev tr'; simpl.
  { intros [= <- <-]. split; [constructor |]. split; [constructor | done]. }
  destruct (if enabled (attrs c) && evented (attrs c)
            then ok ← check_version V (attrs c);
                 Ok (ok && admits (filter_analysistypes (attrs c))
                                  (target_category r))
            else Ok false) as [wanted|e]; cbn [mbind result_bind]; [| done].
  assert (Hweak : ∀ ev0, Forall (λ i : SigInst St, S pos ≤ serial i)%nat ev0 →
            Forall (λ i : SigInst St, pos ≤ serial i)%nat ev0).
  { intros ev0 H. eapply Forall_impl; [exact H |]. intros i. simpl. lia. }
  destruct wanted.
  2:{ intros H. apply IH in H as (Hge & Hnd & Hq). auto. }
  destruct (new c r) as [st|e]; [| done].
  destruct (build_evented V (S pos) classes r
              (tr ++ [Instantiated (cid c) true])) as [[l tr1]|e] eqn:Hb;
    cbn [mbind result_bind]; [| done].
  intros [= <- <-]. apply IH in Hb as (Hge & Hnd & Hq).
  split; [constructor; [simpl; lia | auto] |]. split.
  - simpl. apply NoDup_cons. split; [| done].
    intros (i & Hi & Hin)%list_elem_of_fmap.
    rewrite Forall_forall in Hge. specialize (Hge i Hin). simpl in Hi. lia.
  - intros Htr. apply Hq. apply Forall_app. split; [done |].
    repeat constructor. intros n. simpl. tauto.
Qed.

Lemma process_hooks_quiet V c s m s' :
  process V c s = Ok (m, s') →
  ∃ more, trace s' = trace s ++ more
          ∧ Forall (λ e, ∀ n, ¬ about n e) more.
Proof.
  unfold process.
  assert (Hone : ∀ ok, Forall (λ e, ∀ n, ¬ about n e)
                         [Instantiated (cid c) ok]).
  { intros ok. repeat constructor. intros n. simpl. tauto. }
  destruct (new c (results s)) as [st|e0].
  2:{ intros [= <- <-]. eexists. split; [done | apply Hone]. }
  destruct (enabled (attrs c)); cbn [negb].
  2:{ intros [= <- <-]. eexists. split; [done | apply Hone]. }
  destruct (check_version V (attrs c)) as [ok|e1];
    cbn [mbind result_bind]; [| done].
  destruct ok; cbn [negb].
  2:{ intros [= <- <-]. eexists. split; [done | apply Hone]. }
  destruct (run c st _) as [[r st'] used].
  set (s1 := emit (Instantiated (cid c) true) s).
  set (seen := CallLog.observed ∘ CallLog.iter ∘ calls <$> processes s1).
  set (s2 := emit (BatchRun (cid c) seen r) s1).
  set (s3 := match behavior (results s2) with
             | Some ps => set_processes (consumed used ps) s2
             | None => s2
             end).
  assert (Hgoal : ∃ more, trace s3 = trace s ++ more
                          ∧ Forall (λ e, ∀ n, ¬ about n e) more).
  { exists [Instantiated (cid c) true; BatchRun (cid c) seen r]. split.
    - subst s3. destruct (behavior (results s2)); simpl;
        by rewrite <- app_assoc.
    - repeat constructor; intros n; simpl; tauto. }
  destruct r as [data|e]; [| by intros [= <- <-]].
  destruct (truth data); [| by intros [= <- <-]].
  destruct (as_result c st'); by intros [= <- <-].
Qed.

Lemma batch_loop_hooks_quiet V todo : ∀ s s',
  batch_loop V todo s = Ok s' →
  ∃ more, trace s' = trace s ++ more
          ∧ Forall (λ e, ∀ n, ¬ about n e) more.
Proof.
  induction todo as [|c todo IH]; intros s s'; simpl.
  { intros [= <-]. exists []. by rewrite app_nil_r. }
  destruct (admits _ _); [| apply IH].
  destruct (process V c s) as [[m s1]|e] eqn:Hp;
    cbn [mbind result_bind]; [| done].
  apply process_hooks_quiet in Hp as (more1 & Ht1 & Hq1).
  set (s2 := match m with Some m0 => append_matched m0 s1 | None => s1 end).
  assert (Ht2 : trace s2 = trace s1) by (subst s2; by destruct m).
  assert (H3 : ∃ after, trace (reset_cursors s2) = trace s2 ++ after
                        ∧ Forall (λ e, ∀ n, ¬ about n e) after).
  { unfold reset_cursors. destruct (behavior (results s2)); simpl.
    - eexists. split; [done |]. repeat constructor. intros n. simpl. tauto.
    - exists []. by rewrite app_nil_r. }
  destruct H3 as (after & Ht3 & Hafter).
  intros H. apply IH in H as (more & Ht & Hq).
  exists (more1 ++ after ++ more).
  split; [by rewrite Ht, Ht3, Ht2, Ht1, <- !app_assoc |].
  by rewrite !Forall_app.
Qed.

Lemma inst_now_serials overlay store (ev : list (SigInst St)) :
  serial <$> (inst_now overlay store <$> ev) = serial <$> ev.
Proof. rewrite <- list_fmap_compose. by apply list_fmap_ext. Qed.

(** In a run that returns, once an evented instance has given a
    per-call answer other than [None] (by returning or by raising), no
    hook of that instance is called again. *)
Theorem run_leaves_answered_alone V overlay g bucket r s' :
  RunSignatures_run V overlay g bucket r = Ok s' → left_alone (trace s').
Proof.
  unfold RunSignatures_run.
  destruct (build_evented V 0 (Registry.bucket_items bucket) r [])
    as [[ev tr]|e] eqn:Hb; cbn [mbind result_bind]; [| done].
  destruct bucket as [|classes]; [done |].
  apply build_evented_serials in Hb as (_ & Hnd & Hq).
  specialize (Hq (Forall_nil_2 _)).
  match goal with |- context [evented_pass ?s0] =>
    destruct (evented_pass s0) as [s1|e] eqn:Hev
  end; cbn [mbind result_bind]; [| done].
  apply evented_pass_left_alone in Hev;
    [| by (simpl; rewrite inst_now_serials) | exact Hq].
  match goal with |- context [batch_pass V ?s2] =>
    destruct (batch_pass V s2) as [s3|e] eqn:Hbatch
  end; cbn [mbind result_bind]; [| done].
  assert (Hla3 : left_alone (trace s3)).
  { unfold batch_pass in Hbatch. simpl in Hbatch.
    destruct (complete_list s1) as [|c0 l].
    - injection Hbatch as <-. exact Hev.
    - apply batch_loop_hooks_quiet in Hbatch as (more & -> & Hmore).
      by apply left_alone_app. }
  unfold aggregate.
  destruct (Aggregate.compute_malscore _) as [score|e];
    cbn [mbind result_bind]; [| done].
  destruct (Aggregate.compute_malfamily _ _ _) as [family|e];
    cbn [mbind result_bind]; [| done].
  intros [= <-]. exact Hla3.
Qed.

(** *** What the evented pass leaves alone *)

Lemma frame_refl s : frame s s.
Proof.
  repeat (split; [done |]). exists []. by rewrite app_nil_r.
Qed.

Lemma frame_trans s1 s2 s3 : frame s1 s2 → frame s2 s3 → frame s1 s3.
Proof.
  intros (Hc & Ht & Hv & Hb & more & Htr & Hm)
         (Hc' & Ht' & Hv' & Hb' & more' & Htr' & Hm').
  split; [congruence |]. split; [congruence |]. split; [congruence |].
  split; [auto |].
  exists (more ++ more'). split; [by rewrite Htr', Htr, app_assoc |].
  by apply Forall_app.
Qed.

Lemma frame_hook e s :
  is_hook e → ∀ l, frame s (emit e (set_evented l s)).
Proof.
  intros He l. repeat (split; [done |]). exists [e].
  split; [done |]. by repeat constructor.
Qed.

(** Reading a log to its end leaves its content alone. *)
Lemma frame_exhausted pidx s :
  frame s (set_processes
             (alter (map_calls (CallLog.exhaust ∘ CallLog.iter)) pidx
                    (processes s)) s).
Proof.
  split; [done |]. split; [done |]. split.
  - unfold full_view, processes. simpl.
    rewrite (list_fmap_alter _ _ id); [by apply list_alter_id |].
    by apply Forall_forall.
  - split; [done |]. exists []. by rewrite app_nil_r.
Qed.

Lemma record_match_frame sig s s' : record_match sig s = Ok s' → frame s s'.
Proof.
  unfold record_match.
  destruct (as_result (icls sig) (ist sig)) as [m|e];
    cbn [mbind result_bind]; [| done].
  cbn [complete_list set_matched].
  rewrite EngineFacts.instance_not_among_classes.
  intros [= <-]. repeat (split; [done |]). exists [].
  simpl. by rewrite app_nil_r.
Qed.

Lemma sig_body_frame i sig proc pidx cidx call s s' :
  sig_body i sig proc pidx cidx call s = Ok s' → frame s s'.
Proof.
  unfold sig_body.
  destruct (negb (interested sig proc call)).
  { intros [= <-]. apply frame_refl. }
  destruct (on_call (icls sig) (ist sig) call proc) as [r st].
  set (sig' := with_state st sig).
  set (e0 := OnCall (serial sig') pidx cidx r).
  set (s1 := emit e0 (set_evented (<[i := sig']> (evented_list s)) s)).
  assert (H1 : frame s s1) by (by apply frame_hook).
  assert (Hrm : ∀ s2, frame s s2 →
            (l ← py_remove AnInstance (AnInstance sig') (evented_list s2);
             Ok (set_evented l s2)) = Ok s' → frame s s').
  { intros s2 H2.
    destruct (py_remove AnInstance (AnInstance sig') (evented_list s2))
      as [l|e]; cbn [mbind result_bind]; [| done].
    intros [= <-]. exact H2. }
  destruct r as [[| | |b]|e].
  - by intros [= <-].
  - destruct (record_match sig' s1) as [s2|e] eqn:Hr;
      cbn [mbind result_bind]; [| done].
    apply Hrm. eapply frame_trans; [exact H1 |].
    by eapply record_match_frame.
  - by apply Hrm.
  - by apply Hrm.
  - by apply Hrm.
Qed.

Lemma sig_loop_frame proc pidx cidx call fuel : ∀ i s s',
  sig_loop fuel i proc pidx cidx call s = Ok s' → frame s s'.
Proof.
  induction fuel as [|fuel IH]; intros i s s'; simpl.
  { intros [= <-]. apply frame_refl. }
  destruct (evented_list s !! i) as [sig|];
    [| intros [= <-]; apply frame_refl].
  destruct (sig_body i sig proc pidx cidx call s) as [s1|e] eqn:Hb;
    cbn [mbind result_bind]; [| done].
  intros H. eapply frame_trans; [by eapply sig_body_frame | by eapply IH].
Qed.

Lemma call_loop_frame proc pidx cs : ∀ cidx s s',
  call_loop proc pidx cidx cs s = Ok s' → frame s s'.
Proof.
  induction cs as [|call cs IH]; intros cidx s s'; simpl.
  { intros [= <-]. apply frame_refl. }
  destruct (sig_loop _ 0 proc pidx cidx call s) as [s1|e] eqn:Hl;
    cbn [mbind result_bind]; [| done].
  intros H. eapply frame_trans; [by eapply sig_loop_frame | by eapply IH].
Qed.

Lemma proc_loop_frame todo : ∀ pidx s s',
  proc_loop pidx todo s = Ok s' → frame s s'.
Proof.
  induction todo as [|proc todo IH]; intros pidx s s'; simpl.
  { intros [= <-]. apply frame_refl. }
  destruct (call_loop proc pidx _ _ s) as [s1|e] eqn:Hl;
    cbn [mbind result_bind]; [| done].
  intros H. apply IH in H. apply call_loop_frame in Hl.
  eapply frame_trans; [exact Hl |]. eapply frame_trans; [| exact H].
  apply frame_exhausted.
Qed.

Lemma complete_loop_frame todo : ∀ i s s',
  complete_loop i todo s = Ok s' → frame s s'.
Proof.
  induction todo as [|sig todo IH]; intros i s s'; simpl.
  { intros [= <-]. apply frame_refl. }
  destruct (on_complete (icls sig) (ist sig)) as [r st].
  set (sig' := with_state st sig).
  set (e0 := OnComplete (serial sig) r).
  set (s1 := emit e0 (set_evented (<[i := sig']> (evented_list s)) s)).
  assert (H1 : frame s s1) by (by apply frame_hook).
  assert (Hgo : complete_loop (S i) todo s1 = Ok s' → frame s s').
  { intros H. eapply frame_trans; [exact H1 | by eapply IH]. }
  destruct r as [[| | |b]|e]; try exact Hgo.
  destruct (record_match sig' s1) as [s2|e] eqn:Hr;
    cbn [mbind result_bind]; [| done].
  intros H. eapply frame_trans; [exact H1 |].
  eapply frame_trans; [by eapply record_match_frame | by eapply IH].
Qed.

Lemma evented_pass_frame s s' : evented_pass s = Ok s' → frame s s'.
Proof.
  unfold evented_pass.
  destruct (evented_list s) as [|sig0 rest];
    [intros [= <-]; apply frame_refl |].
  destruct (behavior (results s)) as [procs|];
    [| intros [= <-]; apply frame_refl].
  destruct (proc_loop 0 procs s) as [s1|e] eqn:Hp;
    cbn [mbind result_bind]; [| done].
  intros H. eapply frame_trans;
    [by eapply proc_loop_frame | by eapply complete_loop_frame].
Qed.

(** The evented pass never takes a class off the batch candidate
    list, whatever the hooks answer: the list holds classes, and the
    membership test that guards the removal is made with an instance.
    A signature that matched in the evented pass is a candidate of the
    batch pass all the same. *)
Theorem evented_pass_keeps_every_candidate s s' :
  evented_pass s = Ok s' → complete_list s' = complete_list s.
Proof. intros H. by apply evented_pass_frame in H as [Hc _]. Qed.

Lemma build_evented_no_batch V classes : ∀ pos r tr (ev : list (SigInst St)) tr',
  build_evented V pos classes r tr = Ok (ev, tr') →
  (∀ n seen res, BatchRun n seen res ∉ tr) →
  ∀ n seen res, BatchRun n seen res ∉ tr'.
Proof.
  induction classes as [|c classes IH]; intros pos r tr ev tr'; simpl.
  { by intros [= <- <-]. }
  destruct (if enabled (attrs c) && evented (attrs c)
            then ok ← check_version V (attrs c);
                 Ok (ok && admits (filter_analysistypes (attrs c))
                                  (target_category r))
            else Ok false) as [wanted|e]; cbn [mbind result_bind]; [| done].
  destruct wanted; [| apply IH].
  destruct (new c r) as [st|e]; [| done].
  destruct (build_evented V (S pos) classes r
              (tr ++ [Instantiated (cid c) true])) as [[l tr1]|e] eqn:Hb;
    cbn [mbind result_bind]; [| done].
  intros [= <- <-] Htr. eapply IH; [exact Hb |].
  intros n seen res. rewrite elem_of_app, list_elem_of_singleton.
  intros [H|H]; [by apply (Htr n seen res) | done].
Qed.

(** The batch pass obeys the overlay file: in a run that returns,
    [run] was called only on registered classes that, with the
    attributes the overlay loop left them, are enabled, pass the version
    check and admit the analysis type. *)
Theorem batch_runs_obey_overlay V overlay g classes r s' n seen res :
  RunSignatures_run V overlay g (Registry.BList classes) r = Ok s' →
  BatchRun n seen res ∈ trace s' →
  ∃ c, c ∈ classes ∧ cid c = n
       ∧ let now := attrs (class_now (class_store overlay classes) c) in
         enabled now = true ∧ check_version V now = Ok true
         ∧ admits (filter_analysistypes now) (target_category r) = true.
Proof.
  unfold RunSignatures_run. cbn [Registry.bucket_items].
  destruct (build_evented V 0 classes r []) as [[ev tr]|e] eqn:Hb;
    cbn [mbind result_bind]; [| done].
  pose proof (build_evented_no_batch _ _ _ _ _ _ _ Hb) as Htr.
  match goal with |- context [evented_pass ?s0] =>
    set (s0' := s0); destruct (evented_pass s0') as [s1|e] eqn:Hev
  end; cbn [mbind result_bind]; [| done].
  apply evented_pass_frame in Hev as (Hc1 & Hcat1 & _ & _ & more1 & Htr1 & Hm1).
  match goal with |- context [batch_pass V ?s2] =>
    set (s2' := s2); destruct (batch_pass V s2') as [s3|e] eqn:Hbatch
  end; cbn [mbind result_bind]; [| done].
  unfold aggregate.
  destruct (Aggregate.compute_malscore _) as [score|e];
    cbn [mbind result_bind]; [| done].
  destruct (Aggregate.compute_malfamily _ _ _) as [family|e];
    cbn [mbind result_bind]; [| done].
  intros [= <-]. cbn [trace set_results set_matched]. intros Hin.
  destruct (batch_pass_runs_qualified V s2' s3 n seen res Hbatch Hin)
    as [Hold|(c & Hc & Hid & He & Hv & Ha)].
  - exfalso. subst s2'. cbn [trace set_results] in Hold.
    rewrite Htr1 in Hold. apply elem_of_app in Hold as [Hold|Hold].
    + subst s0'. simpl in Hold. apply (Htr ltac:(intros; apply not_elem_of_nil)
                                         n seen res Hold).
    + rewrite Forall_forall in Hm1. by apply Hm1 in Hold.
  - subst s2'. cbn [complete_list set_results results] in Hc, Ha.
    rewrite Hc1 in Hc. subst s0'. cbn [complete_list] in Hc.
    apply list_elem_of_fmap in Hc as (c0 & -> & Hc0).
    exists c0. split; [done |]. split; [done |].
    cbn [target_category set_signatures] in Ha. rewrite Hcat1 in Ha.
    done.
Qed.

(** *** Every traversal reads the logs from their first call *)




(** *** The end of the run *)

(** When the end of [run] returns, [results["signatures"]] and the
    match list are one list, holding the matches collected by the two
    passes in ascending severity, matches of equal severity in the
    order they were found. *)
Theorem matches_end_ordered_by_severity g s s' :
  aggregate g s = Ok s' →
  signatures (results s') = Some (matched s')
  ∧ matched s' ≡ₚ matched s
  ∧ StronglySorted (PyList.key_le severity) (matched s')
  ∧ ∀ k, PyList.with_key severity k (matched s')
         = PyList.with_key severity k (matched s).
Proof.
  unfold aggregate.
  destruct (Aggregate.compute_malscore _) as [score|e];
    cbn [mbind result_bind]; [| done].
  destruct (Aggregate.compute_malfamily _ _ _) as [family|e];
    cbn [mbind result_bind]; [| done].
  intros [= <-]. simpl. split; [done |]. split.
  - apply AggregateFacts.sort_by_severity_perm.
  - split; [apply AggregateFacts.sort_by_severity_sorted |].
    intros k. apply AggregateFacts.sort_by_severity_stable.
Qed.

End WithState.

Lemma matches_end_ordered_by_severity_witness :
  match aggregate Samples.first_name
          (Samples.crafted_state false true false false) with
  | Ok s' =>
      signatures (results s') = Some (matched s')
      ∧ matched s' ≡ₚ [Samples.mid; Samples.low]
      ∧ StronglySorted (PyList.key_le severity) (matched s')
      ∧ ∀ k, PyList.with_key severity k (matched s')
             = PyList.with_key severity k [Samples.mid; Samples.low]
  | Raise _ => False
  end.
Proof.
  destruct (aggregate _ _) as [s'|e] eqn:Hrun.
  - by apply matches_end_ordered_by_severity in Hrun.
  - vm_compute in Hrun. discriminate.
Defined.

Lemma evented_pass_keeps_every_candidate_witness :
  match evented_pass watcher_state with
  | Ok s' => matched s' = [Samples.hit "watcher"]
             ∧ complete_list s' = complete_list watcher_state
  | Raise _ => False
  end.
Proof.
  destruct (evented_pass watcher_state) as [s'|e] eqn:Hrun.
  - split; [| by apply evented_pass_keeps_every_candidate].
    vm_compute in Hrun. by injection Hrun as <-.
  - vm_compute in Hrun. discriminate.
Defined.

Lemma batch_runs_obey_overlay_witness :
  match RunSignatures_run "1.3-NG" ∅ (λ _, "")
          (Registry.BList [Samples.reader]) Samples.one_call,
        RunSignatures_run "1.3-NG" reader_off (λ _, "")
          (Registry.BList [Samples.reader]) Samples.one_call with
  | Ok s, Ok s' =>
      (∃ c, c ∈ [Samples.reader] ∧ cid c = 2
            ∧ let now := attrs (class_now (class_store ∅ [Samples.reader]) c) in
              enabled now = true ∧ check_version "1.3-NG" now = Ok true
              ∧ admits (filter_analysistypes now)
                       (target_category Samples.one_call) = true)
      ∧ ∀ seen res, BatchRun 2 seen res ∉ trace s'
  | _, _ => False
  end.
Proof.
  destruct (RunSignatures_run "1.3-NG" ∅ _ _ _) as [s|e] eqn:Hrun;
    [| vm_compute in Hrun; discriminate].
  destruct (RunSignatures_run "1.3-NG" reader_off _ _ _) as [s'|e] eqn:Hoff;
    [| vm_compute in Hoff; discriminate].
  split.
  - apply (batch_runs_obey_overlay _ _ _ _ _ _ 2
             [[Samples.create_file]] (Ok PTrue) Hrun).
    vm_compute in Hrun. injection Hrun as <-.
    apply list_elem_of_In. vm_compute. tauto.
  - intros seen res Hin.
    destruct (batch_runs_obey_overlay _ _ _ _ _ _ _ _ _ Hoff Hin)
      as (c & Hc & _ & He & _).
    apply list_elem_of_singleton in Hc as ->. vm_compute in He. discriminate.
Defined.

Lemma run_leaves_answered_alone_witness :
  match Samples.run_on [Samples.quitter; Samples.watcher; Samples.reader]
          Samples.two_calls with
  | Ok s' => left_alone (trace s')
  | Raise _ => False
  end.
Proof.
  destruct (Samples.run_on _ _) as [s'|e] eqn:Hrun.
  - by apply run_leaves_answered_alone in Hrun.
  - vm_compute in Hrun. discriminate.
Defined.


Lemma batch_errors_are_version_errors_witness :
  ∃ c, c ∈ complete_list (batch_state [Samples.reader; misversioned])
       ∧ enabled (attrs c) = true
       ∧ check_version "1.3-NG" (attrs c) = Raise AttributeError.
Proof.
  apply (batch_errors_are_version_errors "1.3-NG"
           (batch_state [Samples.reader; misversioned]) AttributeError).
  vm_compute. reflexivity.
Defined.

End EngineLaws.

(** ** Reporting stage: which failures are contained *)

Module ReportingLaws.
Import Reporting.
Implicit Types (s : state) (m : ReportClass) (mods : list ReportClass).

Lemma loaded_names_app lg lg' :
  loaded_names (lg ++ lg') = loaded_names lg ++ loaded_names lg'.
Proof. induction lg as [|[n ok|n r] lg IH]; simpl; by rewrite ?IH. Qed.

Lemma ran_names_app lg lg' :
  ran_names (lg ++ lg') = ran_names lg ++ ran_names lg'.
Proof. induction lg as [|[n ok|n r] lg IH]; simpl; by rewrite ?IH. Qed.

(** One module whose set-up does not raise. *)
Lemma process_contained cfg m s :
  (reportable cfg m = true → rc_setup m = Ok ()) →
  ∃ s', process cfg m s = (Ok (), s')
        ∧ loaded_names (log s') = loaded_names (log s) ++ [rc_name m]
        ∧ ran_names (log s')
          = ran_names (log s) ++ (if reportable cfg m then [rc_name m] else []).
Proof.
  unfold process, reportable, cfg_get. intros Hsetup.
  destruct (rc_ctor m) as [[]|e]; simpl.
  { destruct (cfg !! short_name (rc_module m)) as [o|]; simpl.
    - destruct (opt_enabled o); simpl.
      + rewrite (Hsetup eq_refl).
        destruct (rc_run m) as [[]|e]; simpl; [destruct (statistics s) |];
          eexists; (split; [done |]);
          simpl; rewrite !loaded_names_app, !ran_names_app; simpl;
          by rewrite !app_nil_r.
      + eexists. split; [done |]. simpl.
        rewrite loaded_names_app, ran_names_app. simpl.
        by rewrite !app_nil_r.
    - eexists. split; [done |]. simpl.
      rewrite loaded_names_app, ran_names_app. simpl. by rewrite !app_nil_r. }
  eexists. split; [done |]. simpl.
  rewrite loaded_names_app, ran_names_app. simpl. by rewrite !app_nil_r.
Qed.

Lemma run_loop_contained cfg mods : ∀ s,
  Forall (λ m, reportable cfg m = true → rc_setup m = Ok ()) mods →
  ∃ s', run_loop cfg mods s = (Ok (), s')
        ∧ loaded_names (log s') = loaded_names (log s) ++ (rc_name <$> mods)
        ∧ ran_names (log s')
          = ran_names (log s)
            ++ (rc_name <$> List.filter (reportable cfg) mods).
Proof.
  induction mods as [|m mods IH]; intros s Hall; simpl.
  { exists s. by rewrite !app_nil_r. }
  apply Forall_cons in Hall as [Hm Hall].
  destruct (process_contained cfg m s Hm) as (s1 & -> & Hl1 & Hr1).
  destruct (IH s1 Hall) as (s' & -> & Hl & Hr).
  exists s'. split; [done |]. rewrite Hl, Hl1, Hr, Hr1, <- !app_assoc.
  split; [done |]. by destruct (reportable cfg m).
Qed.

Lemma report_loop_app cfg pre : ∀ post s,
  run_loop cfg (pre ++ post) s
  = match run_loop cfg pre s with
    | (Ok _, s1) => run_loop cfg post s1
    | (Raise e, s1) => (Raise e, s1)
    end.
Proof.
  induction pre as [|m pre IH]; intros post s; simpl.
  { done. }
  destruct (process cfg m s) as [[[]|e] s1]; [apply IH | done].
Qed.

(** A report module whose constructor or [run] raises, whatever it
    raises, keeps no other module from being run: as long as no
    set-up call raises, [run] returns, has instantiated every
    registered class, and has called [run] on every module that loads
    and is enabled, in the order of their [order] values. *)
Theorem failing_report_stops_no_other cfg mods s :
  Forall (λ m, reportable cfg m = true → rc_setup m = Ok ()) mods →
  ∃ s', run cfg (Registry.BList mods) s = (Ok (), s')
        ∧ loaded_names (log s')
          = loaded_names (log s) ++ (rc_name <$> PyList.sort_by rc_order mods)
        ∧ ran_names (log s')
          = ran_names (log s)
            ++ (rc_name <$> List.filter (reportable cfg)
                              (PyList.sort_by rc_order mods)).
Proof.
  intros Hall. unfold run, Registry.bucket_truthy. simpl.
  destruct mods as [|m mods].
  { exists s. by rewrite !app_nil_r. }
  apply run_loop_contained.
  by rewrite (PyListFacts.sort_by_perm rc_order (m :: mods)).
Qed.

(** The calls between the [enabled] test and the [try] block are not
    guarded: when one of them raises for a module that loads and is
    enabled, the error leaves [run], and the modules after it in
    running order are never instantiated. *)
Theorem setup_failure_ends_reporting cfg mods pre m post e s :
  PyList.sort_by rc_order mods = pre ++ m :: post →
  Forall (λ m', reportable cfg m' = true → rc_setup m' = Ok ()) pre →
  reportable cfg m = true → rc_setup m = Raise e →
  ∃ s', run cfg (Registry.BList mods) s = (Raise e, s')
        ∧ loaded_names (log s')
          = loaded_names (log s) ++ (rc_name <$> pre) ++ [rc_name m]
        ∧ ran_names (log s')
          = ran_names (log s)
            ++ (rc_name <$> List.filter (reportable cfg) pre).
Proof.
  intros Hsort Hpre Hm He. unfold run, Registry.bucket_truthy. simpl.
  destruct mods as [|m0 mods]; [by destruct pre |].
  rewrite Hsort, report_loop_app.
  destruct (run_loop_contained cfg pre s Hpre) as (s1 & -> & Hl1 & Hr1).
  simpl. unfold process, reportable, cfg_get in *.
  destruct (rc_ctor m) as [[]|e0]; [| done].
  destruct (cfg !! short_name (rc_module m)) as [o|]; [| done].
  simpl in Hm. rewrite Hm, He. simpl. eexists. split; [done |]. simpl.
  rewrite loaded_names_app, ran_names_app, Hl1, Hr1. simpl.
  by rewrite app_nil_r, <- app_assoc.
Qed.

Lemma failing_report_stops_no_other_witness :
  ∃ s', run report_cfg (Registry.BList [reporthtml; mongodb; jsondump])
          start_state = (Ok (), s')
        ∧ loaded_names (log s')
          = loaded_names (log start_state)
            ++ (rc_name <$> PyList.sort_by rc_order
                              [reporthtml; mongodb; jsondump])
        ∧ ran_names (log s')
          = ran_names (log start_state)
            ++ (rc_name <$> List.filter (reportable report_cfg)
                              (PyList.sort_by rc_order
                                 [reporthtml; mongodb; jsondump])).
Proof.
  apply (failing_report_stops_no_other report_cfg).
  repeat constructor; vm_compute; congruence.
Defined.

Lemma setup_failure_ends_reporting_witness :
  ∃ s', run report_cfg (Registry.BList [mongodb; unwritable; jsondump])
          start_state = (Raise CuckooReportError, s')
        ∧ loaded_names (log s')
          = loaded_names (log start_state)
            ++ (rc_name <$> [jsondump]) ++ [rc_name unwritable]
        ∧ ran_names (log s')
          = ran_names (log start_state)
            ++ (rc_name <$> List.filter (reportable report_cfg) [jsondump]).
Proof.
  apply (setup_failure_ends_reporting report_cfg
           [mongodb; unwritable; jsondump] [jsondump] unwritable
           [mongodb] CuckooReportError start_state);
    try reflexivity.
  repeat constructor.
Defined.

End ReportingLaws.

(** ** Feed engine: what is recorded, what ends the run *)

Module FeedsLaws.
Import Feeds.
Implicit Types (s : state) (f : FeedClass) (l : list FeedClass).

Lemma feed_loop_app pre : ∀ post s,
  run_loop (pre ++ post) s
  = match run_loop pre s with
    | (None, s1) => run_loop post s1
    | (Some e, s1) => (Some e, s1)
    end.
Proof.
  induction pre as [|f pre IH]; intros post s; simpl; [done |].
  destruct (fd_enabled f); [| apply IH].
  destruct (process f s) as [[e|] s1]; [done | apply IH].
Qed.

Lemma refresh_feeds f s : feeds (refresh f s).2 = feeds s.
Proof.
  unfold refresh, fallback.
  destruct (fd_modify f) as [[]|e].
  - destruct (fd_run f true) as [[]|e]; [done |].
    destruct e; try done; by destruct (fd_run f false).
  - destruct e; try done; by destruct (fd_run f false).
Qed.

(** What [process] does to the recorded paths and whether it returns
    depend on the paths recorded so far only. *)
Lemma process_on_feeds f s s' :
  feeds s = feeds s' →
  (process f s).1 = (process f s').1
  ∧ feeds (process f s).2 = feeds (process f s').2.
Proof.
  intros Heq. unfold process.
  destruct (fd_ctor f) as [[]|e]; [| done].
  destruct (fd_update f) as [[|]|e]; [| | done].
  - unfold refresh, fallback.
    assert (Hthrough : ∀ lg lg',
              (match fd_feedpath f with
               | Ok path =>
                   (None, {| feeds := <[fd_name f := path]> (feeds s);
                             log := lg |})
               | Raise e => (Some (Propagated e),
                             {| feeds := feeds s; log := lg |})
               end).1
              = (match fd_feedpath f with
                 | Ok path =>
                     (None, {| feeds := <[fd_name f := path]> (feeds s');
                               log := lg' |})
                 | Raise e => (Some (Propagated e),
                               {| feeds := feeds s'; log := lg' |})
                 end).1
              ∧ feeds (match fd_feedpath f with
                       | Ok path =>
                           (None, {| feeds := <[fd_name f := path]> (feeds s);
                                     log := lg |})
                       | Raise e => (Some (Propagated e),
                                     {| feeds := feeds s; log := lg |})
                       end).2
                = feeds (match fd_feedpath f with
                         | Ok path =>
                             (None,
                              {| feeds := <[fd_name f := path]> (feeds s');
                                 log := lg' |})
                         | Raise e => (Some (Propagated e),
                                       {| feeds := feeds s'; log := lg' |})
                         end).2).
    { intros lg lg'. destruct (fd_feedpath f); simpl; by rewrite Heq. }
    destruct (fd_modify f) as [[]|e]; simpl.
    + destruct (fd_run f true) as [[]|e]; simpl; [apply Hthrough |].
      destruct e; simpl; try done;
        destruct (fd_run f false) as [[]|e']; simpl;
        solve [apply Hthrough | done].
    + destruct e; simpl; try done;
        destruct (fd_run f false) as [[]|e']; simpl;
        solve [apply Hthrough | done].
  - simpl. destruct (fd_feedpath f); simpl; by rewrite Heq.
Qed.

Lemma run_loop_on_feeds l : ∀ s s',
  feeds s = feeds s' →
  (run_loop l s).1 = (run_loop l s').1
  ∧ feeds (run_loop l s).2 = feeds (run_loop l s').2.
Proof.
  induction l as [|f l IH]; intros s s' Heq; simpl; [done |].
  destruct (fd_enabled f); [| by apply IH].
  destruct (process_on_feeds f s s' Heq) as [H1 H2].
  destruct (process f s) as [[e|] s1], (process f s') as [[e'|] s1'];
    simpl in *; try done.
  by apply IH.
Qed.

(** An enabled feed whose constructor raises is not skipped with a log
    entry: the handler reads the name of an instance that was never
    bound, [UnboundLocalError] leaves [run], and the feeds after it are
    not processed. *)
Theorem unloadable_feed_ends_run pre f post s s1 e :
  run_loop pre s = (None, s1) →
  fd_enabled f = true → fd_ctor f = Raise e →
  run (Registry.BList (pre ++ f :: post)) s
  = (Some UnboundLocalError, emit (Constructed (fd_name f) false) s1).
Proof.
  intros Hpre Hon Hctor. unfold run, Registry.bucket_truthy. simpl.
  destruct (pre ++ f :: post) as [|x l] eqn:Hl; [by destruct pre |].
  rewrite <- Hl, feed_loop_app, Hpre. simpl.
  unfold process. by rewrite Hon, Hctor.
Qed.

(** A feed whose [modify] or [run(modified=True)] raises something
    other than [NotImplementedError] is dropped: the run returns what it
    returns without the feed, with the same paths recorded. *)
Theorem failing_feed_is_dropped pre f post s :
  fd_ctor f = Ok () → fd_update f = Ok true → refresh_fails f →
  (run (Registry.BList (pre ++ f :: post)) s).1
  = (run (Registry.BList (pre ++ post)) s).1
  ∧ feeds (run (Registry.BList (pre ++ f :: post)) s).2
    = feeds (run (Registry.BList (pre ++ post)) s).2.
Proof.
  intros Hctor Hup Hfail.
  assert (Hrun : ∀ l, run (Registry.BList l) s = run_loop l s).
  { intros [|x l]; done. }
  rewrite !Hrun, !feed_loop_app.
  destruct (run_loop pre s) as [[e|] s1]; [done |].
  simpl. destruct (fd_enabled f); [| done].
  assert (Hp : ∃ s2, process f s1 = (None, s2) ∧ feeds s2 = feeds s1).
  { unfold process. rewrite Hctor, Hup. unfold refresh.
    destruct Hfail as [(e & -> & Hne)|(e & -> & -> & Hne)];
      destruct e; try done; by eexists. }
  destruct Hp as (s2 & -> & Heq). by apply run_loop_on_feeds.
Qed.

Lemma run_loop_recorded l : ∀ s k p,
  feeds (run_loop l s).2 !! k = Some p →
  feeds s !! k = Some p
  ∨ ∃ f, f ∈ l ∧ fd_enabled f = true ∧ fd_ctor f = Ok ()
         ∧ fd_name f = k ∧ fd_feedpath f = Ok p.
Proof.
  induction l as [|f l IH]; intros s k p; simpl; [by left |].
  assert (Hrest : ∀ s1, feeds s1 = feeds s →
            feeds (run_loop l s1).2 !! k = Some p →
            feeds s !! k = Some p
            ∨ ∃ f0, f0 ∈ f :: l ∧ fd_enabled f0 = true ∧ fd_ctor f0 = Ok ()
                    ∧ fd_name f0 = k ∧ fd_feedpath f0 = Ok p).
  { intros s1 Heq H. apply IH in H as [H|(f0 & Hin & H)].
    - left. by rewrite <- Heq.
    - right. exists f0. split; [by right | done]. }
  destruct (fd_enabled f) eqn:Hon; [| by apply Hrest].
  unfold process. destruct (fd_ctor f) as [[]|e] eqn:Hctor; [| by left].
  destruct (fd_update f) as [updated|e]; [| by left].
  assert (Hthrough : ∀ s1, feeds s1 = feeds s →
            feeds (match
                     match fd_feedpath f with
                     | Ok path =>
                         (None, {| feeds := <[fd_name f := path]> (feeds s1);
                                   log := log s1 |})
                     | Raise e => (Some (Propagated e), s1)
                     end
                   with
                   | (None, s2) => run_loop l s2
                   | (Some e, s2) => (Some e, s2)
                   end).2 !! k = Some p →
            feeds s !! k = Some p
            ∨ ∃ f0, f0 ∈ f :: l ∧ fd_enabled f0 = true ∧ fd_ctor f0 = Ok ()
                    ∧ fd_name f0 = k ∧ fd_feedpath f0 = Ok p).
  { intros s1 Heq. destruct (fd_feedpath f) as [path|e] eqn:Hpath; simpl.
    - intros H. apply IH in H as [H|(f0 & Hin & H)].
      + simpl in H. destruct (decide (fd_name f = k)) as [Hk|Hk].
        * rewrite Hk, lookup_insert_eq in H. injection H as ->.
          right. exists f. split; [by left | done].
        * rewrite lookup_insert_ne in H by done. left. by rewrite <- Heq.
      + right. exists f0. split; [by right | done].
    - intros H. left. by rewrite <- Heq. }
  destruct updated; [| by apply Hthrough].
  pose proof (refresh_feeds f (emit (Constructed (fd_name f) true) s)) as Hrf.
  destruct (refresh f (emit (Constructed (fd_name f) true) s))
    as [[| |e] s1]; simpl in Hrf.
  - by apply Hthrough.
  - by apply Hrest.
  - intros H. left. by rewrite <- Hrf.
Qed.

(** Every path the run records is the path of an enabled feed of that
    name that could be loaded: nothing is recorded for a feed that is
    switched off, and no other key of the results is touched. *)
Theorem recorded_paths_come_from_enabled_feeds bucket s k p :
  feeds (run bucket s).2 !! k = Some p →
  feeds s !! k = Some p
  ∨ ∃ f, f ∈ Registry.bucket_items bucket ∧ fd_enabled f = true
         ∧ fd_ctor f = Ok () ∧ fd_name f = k ∧ fd_feedpath f = Ok p.
Proof.
  unfold run. destruct (Registry.bucket_truthy bucket); [| by left].
  apply run_loop_recorded.
Qed.

Lemma unloadable_feed_ends_run_witness :
  run (Registry.BList ([abuse_ch] ++ unloadable :: [stale])) init
  = (Some UnboundLocalError,
     emit (Constructed (fd_name unloadable) false)
          (run_loop [abuse_ch] init).2).
Proof.
  apply (unloadable_feed_ends_run [abuse_ch] unloadable [stale] init
           (run_loop [abuse_ch] init).2 RuntimeError); reflexivity.
Defined.

Lemma failing_feed_is_dropped_witness :
  (run (Registry.BList ([abuse_ch] ++ garbled :: [stale])) init).1
  = (run (Registry.BList ([abuse_ch] ++ [stale])) init).1
  ∧ feeds (run (Registry.BList ([abuse_ch] ++ garbled :: [stale])) init).2
    = feeds (run (Registry.BList ([abuse_ch] ++ [stale])) init).2.
Proof.
  apply (failing_feed_is_dropped [abuse_ch] garbled [stale] init);
    [reflexivity | reflexivity |].
  left. exists ValueError. split; [reflexivity | discriminate].
Defined.

Lemma recorded_paths_come_from_enabled_feeds_witness :
  let bucket := Registry.BList [switched_off; stale] in
  feeds init !! "stale" = Some "feeds/stale.feed"
  ∨ ∃ f, f ∈ Registry.bucket_items bucket ∧ fd_enabled f = true
         ∧ fd_ctor f = Ok () ∧ fd_name f = "stale"
         ∧ fd_feedpath f = Ok "feeds/stale.feed".
Proof.
  intros bucket.
  apply (recorded_paths_come_from_enabled_feeds bucket init).
  vm_compute. reflexivity.
Defined.

End FeedsLaws.
